(** * discordgo rate limiter (ratelimit.go): a shallow embedding

    The Go code keeps three kinds of heap objects that are shared through
    pointers: [customRateLimit] rules (referenced both by the limiter's
    rule slice and by every bucket the rule is attached to), [Bucket]s
    (referenced by the limiter's registry and by the callers that hold a
    slot), and the [int64] cell holding the global throttle (referenced by
    the limiter and by every bucket).  The embedding therefore threads an
    explicit store with one typed heap per kind of object, a clock, and the
    log of [time.Sleep] calls through a small outcome monad.

    Conventions.
    - [int] and [int64] are 64-bit two's complement; [time.Duration] is an
      [int64] number of nanoseconds.  Their arithmetic wraps ([int.wrap64]).
    - A [time.Time] is an instant on an unbounded time line, counted in
      nanoseconds from the Unix epoch; [Time.Sub] saturates as documented
      for the Go library, [Time.UnixNano] wraps to 64 bits.  The wall /
      monotonic split inside [time.Time] is not represented.
    - Goroutines are not represented: every method runs to completion on
      its own.  A [Lock] on a mutex that is already held therefore never
      returns ([Blocks]); an [Unlock] of a free mutex is the Go runtime's
      fatal error ([Fatal]).
    - [http.ParseTime] is a parameter of the development. *)

From Stdlib Require Import ZArith Lia Ascii String List Bool.
From stdpp Require Import base option list gmap strings fin_maps.

Local Open Scope string_scope.
Local Open Scope Z_scope.

(** ** Machine integers *)

Module int.

Definition wrap (bits z : Z) : Z :=
  (z + 2 ^ (bits - 1)) mod 2 ^ bits - 2 ^ (bits - 1).

Definition MaxInt64 : Z := 2 ^ 63 - 1.
Definition MinInt64 : Z := - 2 ^ 63.

Definition wrap64 (z : Z) : Z := wrap 64 z.

Definition fits64 (z : Z) : Prop := MinInt64 <= z <= MaxInt64.

(** Go's [a - b], [a * b] and [a + b] on [int] / [int64]. *)
Definition sub (a b : Z) : Z := wrap64 (a - b).
Definition mul (a b : Z) : Z := wrap64 (a * b).
Definition add (a b : Z) : Z := wrap64 (a + b).

(** Saturation to the [int64] range. *)
Definition clamp64 (z : Z) : Z :=
  if z <? MinInt64 then MinInt64
  else if MaxInt64 <? z then MaxInt64 else z.

End int.

(** ** package time *)

Module time.

Abbreviation Duration := Z (only parsing).
Abbreviation Time := Z (only parsing).

Definition Nanosecond : Duration := 1.
Definition Microsecond : Duration := 1000 * Nanosecond.
Definition Millisecond : Duration := 1000 * Microsecond.
Definition Second : Duration := 1000 * Millisecond.

Definition maxDuration : Duration := int.MaxInt64.
Definition minDuration : Duration := int.MinInt64.

(** The zero [time.Time] is January 1, year 1, 00:00:00 UTC, which lies
    62135596800 seconds before the Unix epoch. *)
Definition zero : Time := - 62135596800 * Second.

(** A [Time] keeps its seconds in an [int64] counted from year 1:
    [unixToInternal] seconds more than the Unix seconds. *)
Definition unixToInternal : Z := 62135596800.

(** [time.Unix(sec, nsec)]: [nsec] outside [0, 1e9) is carried into
    [sec]; [sec + unixToInternal] is an [int64] sum. *)
Definition Unix (sec nsec : Z) : Time :=
  let sec' := int.add sec (nsec / 1000000000) in
  let nsec' := nsec mod 1000000000 in
  (int.add sec' unixToInternal - unixToInternal) * Second + nsec'.

(** [t.UnixNano()] *)
Definition UnixNano (t : Time) : Z := int.wrap64 t.

(** [t.Add(d)] *)
Definition Add (t : Time) (d : Duration) : Time := t + d.

(** [t.Sub(u)]: the maximum (or minimum) duration is returned when the
    difference cannot be stored in a Duration. *)
Definition Sub (t u : Time) : Duration := int.clamp64 (t - u).

(** [t.After(u)] and [t.Before(u)] *)
Definition After (t u : Time) : bool := u <? t.
Definition Before (t u : Time) : bool := t <? u.

End time.

(** ** package strings *)

Module strings.

Fixpoint drop (n : nat) (s : string) : string :=
  match n, s with
  | O, _ => s
  | S n', String _ s' => drop n' s'
  | S _, EmptyString => EmptyString
  end.

(** [len(s) >= len(suffix) && s[len(s)-len(suffix):] == suffix] *)
Definition HasSuffix (s suffix : string) : bool :=
  (String.length suffix <=? String.length s)%nat
  && String.eqb (drop (String.length s - String.length suffix) s) suffix.

End strings.

(** ** package strconv *)

Module strconv.

Inductive NumErr := ErrSyntax | ErrRange.

Definition digit (c : ascii) : option Z :=
  let n := Z.of_N (N_of_ascii c) in
  if (48 <=? n) && (n <=? 57) then Some (n - 48) else None.

(** The loop of [ParseUint] over the bytes of the string, in base 10,
    with [n] the [uint64] read so far: a byte that is no digit is a
    syntax error; the first digit that takes the value over [maxVal] is
    a range error, whatever the bytes after it are. *)
Definition maxUint64 : Z := 2 ^ 64 - 1.

Fixpoint scan (maxVal n : Z) (s : string) : Z * option NumErr :=
  match s with
  | EmptyString => (n, None)
  | String c s' =>
      match digit c with
      | None => (0, Some ErrSyntax)
      | Some d =>
          if maxUint64 / 10 + 1 <=? n then (maxVal, Some ErrRange)
          else
            let n10 := n * 10 in
            let n1 := (n10 + d) mod 2 ^ 64 in
            if (n1 <? n10) || (maxVal <? n1) then (maxVal, Some ErrRange)
            else scan maxVal n1 s'
      end
  end.

(** [ParseUint(s, 10, bitSize)]: the value and the error, if any (with a
    range error the value is the largest one of that size). *)
Definition ParseUint (s : string) (bitSize : Z) : Z * option NumErr :=
  match s with
  | EmptyString => (0, Some ErrSyntax)
  | _ => scan (2 ^ bitSize - 1) 0 s
  end.

(** [ParseInt(s, 10, bitSize)] *)
Definition ParseInt (s : string) (bitSize : Z) : Z + NumErr :=
  match s with
  | EmptyString => inr ErrSyntax
  | String c s' =>
      let neg := Ascii.eqb c "-" in
      let s1 := if Ascii.eqb c "+" then s' else if neg then s' else s in
      match ParseUint s1 bitSize with
      | (_, Some ErrSyntax) => inr ErrSyntax
      | (un, _) =>
          let cutoff := 2 ^ (bitSize - 1) in
          if negb neg && (cutoff <=? un) then inr ErrRange
          else if neg && (cutoff <? un) then inr ErrRange
          else inl (if neg then - un else un)
      end
  end.

End strconv.

(** ** package net/http: headers *)

Module http.

(** [http.Header] is [map[string][]string]. *)
Abbreviation Header := (gmap string (list string)) (only parsing).

Definition byte_in (lo hi : Z) (c : ascii) : bool :=
  let n := Z.of_N (N_of_ascii c) in (lo <=? n) && (n <=? hi).

Definition is_lower (c : ascii) : bool := byte_in 97 122 c.
Definition is_upper (c : ascii) : bool := byte_in 65 90 c.

(** The bytes of an RFC 7230 token. *)
Definition validHeaderFieldByte (c : ascii) : bool :=
  is_lower c || is_upper c || byte_in 48 57 c
  || existsb (Ascii.eqb c)
       ["!"; "#"; "$"; "%"; "&"; "'"; "*"; "+"; "-"; "."; "^"; "_"; "`";
        "|"; "~"]%char.

Definition shift (c : ascii) (d : Z) : ascii :=
  ascii_of_N (Z.to_N (Z.of_N (N_of_ascii c) + d)).

Fixpoint all_valid (s : string) : bool :=
  match s with
  | EmptyString => true
  | String c s' => validHeaderFieldByte c && all_valid s'
  end.

(** First letter and every letter after a hyphen in upper case, all
    other letters in lower case. *)
Fixpoint canonical (upper : bool) (s : string) : string :=
  match s with
  | EmptyString => EmptyString
  | String c s' =>
      let c' := if upper && is_lower c then shift c (-32)
                else if negb upper && is_upper c then shift c 32
                else c in
      String c' (canonical (Ascii.eqb c' "-") s')
  end.

(** [textproto.CanonicalMIMEHeaderKey]: a key holding a byte that is not
    allowed in a field name is returned unchanged. *)
Definition CanonicalMIMEHeaderKey (s : string) : string :=
  if all_valid s then canonical true s else s.

(** [h.Get(key)]: the first value stored under the canonical form of
    [key], or the empty string. *)
Definition Get (h : Header) (key : string) : string :=
  match h !! CanonicalMIMEHeaderKey key with
  | Some (v :: _) => v
  | _ => ""
  end.

End http.

(** [errors.New], the errors of [strconv.ParseInt] and of
    [http.ParseTime]. *)
Inductive error :=
| errorString (msg : string)
| NumError (num : string) (e : strconv.NumErr)
| ParseError (value : string).

(** ** Heap objects *)

Abbreviation loc := positive (only parsing).

Module customRateLimit.
Record t := mk {
  suffix : string;
  requests : Z;
  reset : time.Duration;
}.

Definition set_requests (v : Z) (rl : t) : t := mk (suffix rl) v (reset rl).
Definition set_reset (v : time.Duration) (rl : t) : t :=
  mk (suffix rl) (requests rl) v.
End customRateLimit.

Module Bucket.
Record t := mk {
  mu : bool;                       (* the embedded sync.Mutex: held? *)
  Key : string;
  remaining : Z;
  limit : Z;
  reset : time.Time;
  global : loc;                    (* *int64 *)
  crlmut : bool;                   (* sync.Mutex: held? *)
  lastReset : time.Time;
  customRateLimit : option loc;    (* *customRateLimit, nil = None *)
}.

Definition set_mu (v : bool) (b : t) : t :=
  mk v (Key b) (remaining b) (limit b) (reset b) (global b) (crlmut b)
     (lastReset b) (customRateLimit b).
Definition set_remaining (v : Z) (b : t) : t :=
  mk (mu b) (Key b) v (limit b) (reset b) (global b) (crlmut b)
     (lastReset b) (customRateLimit b).
Definition set_reset (v : time.Time) (b : t) : t :=
  mk (mu b) (Key b) (remaining b) (limit b) v (global b) (crlmut b)
     (lastReset b) (customRateLimit b).
Definition set_crlmut (v : bool) (b : t) : t :=
  mk (mu b) (Key b) (remaining b) (limit b) (reset b) (global b) v
     (lastReset b) (customRateLimit b).
Definition set_lastReset (v : time.Time) (b : t) : t :=
  mk (mu b) (Key b) (remaining b) (limit b) (reset b) (global b) (crlmut b)
     v (customRateLimit b).
Definition set_customRateLimit (v : option loc) (b : t) : t :=
  mk (mu b) (Key b) (remaining b) (limit b) (reset b) (global b) (crlmut b)
     (lastReset b) v.
End Bucket.

Module RateLimiter.
Record t := mk {
  mu : bool;                          (* the embedded sync.Mutex: held? *)
  global : loc;                       (* *int64 *)
  buckets : gmap string loc;          (* map[string]*Bucket *)
  globalRateLimit : time.Duration;
  customRateLimits : list loc;        (* []*customRateLimit *)
}.

Definition set_mu (v : bool) (r : t) : t :=
  mk v (global r) (buckets r) (globalRateLimit r) (customRateLimits r).
Definition set_buckets (v : gmap string loc) (r : t) : t :=
  mk (mu r) (global r) v (globalRateLimit r) (customRateLimits r).
Definition set_customRateLimits (v : list loc) (r : t) : t :=
  mk (mu r) (global r) (buckets r) (globalRateLimit r) v.
End RateLimiter.

(** ** The store and the clock *)

Record State := mkState {
  (* the instant last read off the machine clock *)
  clock : time.Time;
  (* how much time passes before each of the coming clock events; the
     list is an oracle for the scheduler, an exhausted list means 0 *)
  pending : list N;
  (* the durations handed to time.Sleep so far, latest first *)
  slept : list time.Duration;
  cells : gmap loc Z;
  rules : gmap loc customRateLimit.t;
  bucket_heap : gmap loc Bucket.t;
  limiters : gmap loc RateLimiter.t;
}.

Definition set_cells (v : gmap loc Z) (σ : State) : State :=
  mkState (clock σ) (pending σ) (slept σ) v (rules σ) (bucket_heap σ)
          (limiters σ).
Definition set_rules (v : gmap loc customRateLimit.t) (σ : State) : State :=
  mkState (clock σ) (pending σ) (slept σ) (cells σ) v (bucket_heap σ)
          (limiters σ).
Definition set_bucket_heap (v : gmap loc Bucket.t) (σ : State) : State :=
  mkState (clock σ) (pending σ) (slept σ) (cells σ) (rules σ) v (limiters σ).
Definition set_limiters (v : gmap loc RateLimiter.t) (σ : State) : State :=
  mkState (clock σ) (pending σ) (slept σ) (cells σ) (rules σ) (bucket_heap σ)
          v.

(** Time passes: the clock moves on by the next pending amount. *)
Definition elapse (σ : State) : State :=
  mkState (clock σ + Z.of_N (hd 0%N (pending σ))) (tl (pending σ)) (slept σ)
          (cells σ) (rules σ) (bucket_heap σ) (limiters σ).

(** The goroutine is parked for [d] (nothing happens when [d <= 0]). *)
Definition park (d : time.Duration) (σ : State) : State :=
  mkState (clock σ + Z.max 0 d) (pending σ) (d :: slept σ) (cells σ)
          (rules σ) (bucket_heap σ) (limiters σ).

(** ** Outcomes of a call *)

Inductive Outcome (A : Type) : Type :=
| Returns (a : A) (σ : State)
| Blocks                      (* parked on a mutex that is held *)
| Fatal (msg : string).       (* runtime error *)
Arguments Returns {A} a σ.
Arguments Blocks {A}.
Arguments Fatal {A} msg.

Definition M (A : Type) : Type := State → Outcome A.

Definition ret {A} (a : A) : M A := fun σ => Returns a σ.

Definition bind {A B} (m : M A) (k : A → M B) : M B := fun σ =>
  match m σ with
  | Returns a σ' => k a σ'
  | Blocks => Blocks
  | Fatal msg => Fatal msg
  end.

Declare Scope go_scope.
Delimit Scope go_scope with go.
Notation "'let*' x := c1 'in' c2" := (bind c1 (fun x => c2))
  (at level 10, x name, c1 at level 100, c2 at level 200) : go_scope.
Notation "c1 ;; c2" := (bind c1 (fun _ => c2))
  (at level 100, c2 at level 200, right associativity) : go_scope.
Local Open Scope go_scope.

(** [defer u] placed at the head of a function body: [u] runs when the
    body returns, after the result has been evaluated. *)
Definition defer {A} (u : M unit) (body : M A) : M A :=
  let* a := body in u ;; ret a.

Definition when (c : bool) (m : M unit) : M unit :=
  if c then m else ret tt.

Definition nil_deref {A} : Outcome A :=
  Fatal "invalid memory address or nil pointer dereference".

(** *** Reading and writing through pointers *)

Definition load_bucket (b : loc) : M Bucket.t := fun σ =>
  match bucket_heap σ !! b with
  | Some B => Returns B σ
  | None => nil_deref
  end.

Definition update_bucket (b : loc) (f : Bucket.t → Bucket.t) : M unit :=
  fun σ =>
  match bucket_heap σ !! b with
  | Some B => Returns tt (set_bucket_heap (<[b := f B]> (bucket_heap σ)) σ)
  | None => nil_deref
  end.

Definition load_rule (p : loc) : M customRateLimit.t := fun σ =>
  match rules σ !! p with
  | Some R => Returns R σ
  | None => nil_deref
  end.

Definition update_rule (p : loc) (f : customRateLimit.t → customRateLimit.t)
  : M unit := fun σ =>
  match rules σ !! p with
  | Some R => Returns tt (set_rules (<[p := f R]> (rules σ)) σ)
  | None => nil_deref
  end.

Definition load_limiter (r : loc) : M RateLimiter.t := fun σ =>
  match limiters σ !! r with
  | Some R => Returns R σ
  | None => nil_deref
  end.

Definition update_limiter (r : loc) (f : RateLimiter.t → RateLimiter.t)
  : M unit := fun σ =>
  match limiters σ !! r with
  | Some R => Returns tt (set_limiters (<[r := f R]> (limiters σ)) σ)
  | None => nil_deref
  end.

(** [new(int64)], [&customRateLimit{...}], [&Bucket{...}], [&RateLimiter{...}] *)
Definition new_cell (v : Z) : M loc := fun σ =>
  let p := fresh (dom (cells σ)) in
  Returns p (set_cells (<[p := v]> (cells σ)) σ).

Definition new_rule (v : customRateLimit.t) : M loc := fun σ =>
  let p := fresh (dom (rules σ)) in
  Returns p (set_rules (<[p := v]> (rules σ)) σ).

Definition new_bucket (v : Bucket.t) : M loc := fun σ =>
  let p := fresh (dom (bucket_heap σ)) in
  Returns p (set_bucket_heap (<[p := v]> (bucket_heap σ)) σ).

Definition new_limiter (v : RateLimiter.t) : M loc := fun σ =>
  let p := fresh (dom (limiters σ)) in
  Returns p (set_limiters (<[p := v]> (limiters σ)) σ).

(** *** package sync/atomic *)

Module atomic.
Definition LoadInt64 (p : loc) : M Z := fun σ =>
  match cells σ !! p with
  | Some v => Returns v σ
  | None => nil_deref
  end.

Definition StoreInt64 (p : loc) (v : Z) : M unit := fun σ =>
  match cells σ !! p with
  | Some _ => Returns tt (set_cells (<[p := v]> (cells σ)) σ)
  | None => nil_deref
  end.
End atomic.

(** *** package sync: the three mutexes of the program *)

Definition unlock_of_unlocked {A} : Outcome A :=
  Fatal "sync: unlock of unlocked mutex".

(** [r.Lock()] and [r.Unlock()] on a [*RateLimiter] *)
Definition RateLimiter_Lock (r : loc) : M unit := fun σ =>
  match limiters σ !! r with
  | Some R =>
      if RateLimiter.mu R then Blocks
      else update_limiter r (RateLimiter.set_mu true) σ
  | None => nil_deref
  end.

Definition RateLimiter_Unlock (r : loc) : M unit := fun σ =>
  match limiters σ !! r with
  | Some R =>
      if RateLimiter.mu R then update_limiter r (RateLimiter.set_mu false) σ
      else unlock_of_unlocked
  | None => nil_deref
  end.

(** [b.Lock()] and [b.Unlock()] on a [*Bucket]: the admission slot *)
Definition Bucket_Lock (b : loc) : M unit := fun σ =>
  match bucket_heap σ !! b with
  | Some B =>
      if Bucket.mu B then Blocks
      else update_bucket b (Bucket.set_mu true) σ
  | None => nil_deref
  end.

Definition Bucket_Unlock (b : loc) : M unit := fun σ =>
  match bucket_heap σ !! b with
  | Some B =>
      if Bucket.mu B then update_bucket b (Bucket.set_mu false) σ
      else unlock_of_unlocked
  | None => nil_deref
  end.

(** [b.crlmut.Lock()] and [b.crlmut.Unlock()] *)
Definition crlmut_Lock (b : loc) : M unit := fun σ =>
  match bucket_heap σ !! b with
  | Some B =>
      if Bucket.crlmut B then Blocks
      else update_bucket b (Bucket.set_crlmut true) σ
  | None => nil_deref
  end.

Definition crlmut_Unlock (b : loc) : M unit := fun σ =>
  match bucket_heap σ !! b with
  | Some B =>
      if Bucket.crlmut B then update_bucket b (Bucket.set_crlmut false) σ
      else unlock_of_unlocked
  | None => nil_deref
  end.

(** *** The clock *)

(** [time.Now()]: some time has passed since the last clock event. *)
Definition Now : M time.Time := fun σ =>
  let σ' := elapse σ in Returns (clock σ') σ'.

(** [time.Sleep(d)]: pauses for at least [d]; a negative or zero duration
    returns immediately. *)
Definition asleep (d : time.Duration) (σ : State) : State :=
  if 0 <? d then elapse (park d σ) else park d σ.

Definition Sleep (d : time.Duration) : M unit := fun σ =>
  Returns tt (asleep d σ).

(** The instant the [n]-th coming [time.Now()] reads, when no sleep
    intervenes. *)
Definition reading (n : nat) (σ : State) : time.Time :=
  clock (Nat.iter n elapse σ).

(** *** Loops *)

(** [for _, x := range l { body }] *)
Fixpoint range {A} (l : list A) (body : A → M unit) : M unit :=
  match l with
  | [] => ret tt
  | x :: l' => body x ;; range l' body
  end.

(** [for i, x := range l { body }] where the body may [break]: the body
    answers [Some v] when it breaks (handing over what it found) and
    [None] to go on with the next element. *)
Fixpoint range_until {A B} (i : nat) (l : list A)
    (body : nat → A → M (option B)) : M (option B) :=
  match l with
  | [] => ret None
  | x :: l' =>
      let* brk := body i x in
      match brk with
      | Some v => ret (Some v)
      | None => range_until (S i) l' body
      end
  end.

(** ** ratelimit.go *)

(** [NewRatelimiter] *)
Definition NewRatelimiter : M loc :=
  let* g := new_cell 0 in
  new_limiter (RateLimiter.mk false g ∅ 0 []).

(** [RateLimiter.SetCustomRateLimit] *)
Definition SetCustomRateLimit (r : loc) (suffix : string) (requests : Z)
    (reset : time.Duration) : M unit :=
  RateLimiter_Lock r ;;
  defer (RateLimiter_Unlock r) (
    (* if the ratelimit already exists, update the settings. *)
    let* R := load_limiter r in
    let* found :=
      range_until 0 (RateLimiter.customRateLimits R) (fun _ v =>
        let* V := load_rule v in
        if String.eqb (customRateLimit.suffix V) suffix then
          update_rule v (customRateLimit.set_requests requests) ;;
          update_rule v (customRateLimit.set_reset reset) ;;
          ret (Some v)
        else ret None) in
    (* Create a new ratelimit if it does not exist *)
    let* rl :=
      match found with
      | Some v => ret v
      | None =>
          let* rl := new_rule (customRateLimit.mk suffix requests reset) in
          update_limiter r (fun R =>
            RateLimiter.set_customRateLimits
              (RateLimiter.customRateLimits R ++ [rl]) R) ;;
          ret rl
      end in
    (* Apply the custom rate limit to all active buckets matching suffix. *)
    let* R := load_limiter r in
    range (map_to_list (RateLimiter.buckets R)) (fun kv =>
      let v := kv.2 in
      let* V := load_bucket v in
      let* RL := load_rule rl in
      when (strings.HasSuffix (Bucket.Key V) (customRateLimit.suffix RL)) (
        crlmut_Lock v ;;
        update_bucket v (Bucket.set_customRateLimit (Some rl)) ;;
        crlmut_Unlock v))).

(** [RateLimiter.RemoveCustomRateLimit] *)
Definition RemoveCustomRateLimit (r : loc) (suffix : string)
  : M (option error) :=
  RateLimiter_Lock r ;;
  defer (RateLimiter_Unlock r) (
    let* R := load_limiter r in
    let* found :=
      range_until 0 (RateLimiter.customRateLimits R) (fun i v =>
        let* V := load_rule v in
        if String.eqb (customRateLimit.suffix V) suffix then
          update_limiter r (fun R =>
            RateLimiter.set_customRateLimits
              (take i (RateLimiter.customRateLimits R)
               ++ drop (S i) (RateLimiter.customRateLimits R)) R) ;;
          ret (Some tt)
        else ret None) in
    match found with
    | None => ret (Some (errorString "err: custom rate limit not found"))
    | Some _ =>
        (* remove the ratelimit from all active buckets *)
        let* R := load_limiter r in
        range (map_to_list (RateLimiter.buckets R)) (fun kv =>
          let b := kv.2 in
          crlmut_Lock b ;;
          let* B := load_bucket b in
          match Bucket.customRateLimit B with
          | Some rl =>
              let* RL := load_rule rl in
              when (String.eqb (customRateLimit.suffix RL) suffix)
                   (update_bucket b (Bucket.set_customRateLimit None))
          | None => ret tt
          end ;;
          crlmut_Unlock b) ;;
        ret None
    end).

(** [RateLimiter.getBucket] *)
Definition getBucket (r : loc) (key : string) : M loc :=
  RateLimiter_Lock r ;;
  defer (RateLimiter_Unlock r) (
    let* R := load_limiter r in
    match RateLimiter.buckets R !! key with
    | Some bucket => ret bucket
    | None =>
        let* b :=
          new_bucket (Bucket.mk false key 1 0 time.zero (RateLimiter.global R)
                                false time.zero None) in
        (* Check if there is a custom ratelimit set for this bucket ID. *)
        let* R := load_limiter r in
        range_until 0 (RateLimiter.customRateLimits R) (fun _ rl =>
          let* B := load_bucket b in
          let* RL := load_rule rl in
          if strings.HasSuffix (Bucket.Key B) (customRateLimit.suffix RL) then
            update_bucket b (Bucket.set_customRateLimit (Some rl)) ;;
            ret (Some tt)
          else ret None) ;;
        update_limiter r (fun R =>
          RateLimiter.set_buckets (<[key := b]> (RateLimiter.buckets R)) R) ;;
        ret b
    end).

(** [RateLimiter.LockBucket] *)
Definition LockBucket (r : loc) (bucketID : string) : M loc :=
  let* b := getBucket r bucketID in
  Bucket_Lock b ;;
  (* If we ran out of calls and the reset time is still ahead of us
     then we need to take it easy and relax a little *)
  let* B := load_bucket b in
  (if Bucket.remaining B <? 1 then
     let* now := Now in
     when (time.After (Bucket.reset B) now) (
       let* B := load_bucket b in
       let* now := Now in
       Sleep (time.Sub (Bucket.reset B) now))
   else ret tt) ;;
  (* Check for global ratelimits *)
  let* R := load_limiter r in
  let* g := atomic.LoadInt64 (RateLimiter.global R) in
  let sleepTo := time.Unix 0 g in
  let* now := Now in
  when (time.Before now sleepTo) (Sleep (time.Sub sleepTo now)) ;;
  let* B := load_bucket b in
  update_bucket b (Bucket.set_remaining (int.sub (Bucket.remaining B) 1)) ;;
  ret b.

(** *** The waiting of [LockBucket] read as a function of the clock *)

(** The first [if]: the bucket [B] is out of calls and its reset instant
    is still ahead. *)
Definition bucket_wait (B : Bucket.t) (σ : State) : State :=
  if Bucket.remaining B <? 1 then
    let σa := elapse σ in
    if time.After (Bucket.reset B) (clock σa) then
      let σb := elapse σa in
      asleep (time.Sub (Bucket.reset B) (clock σb)) σb
    else σa
  else σ.

(** The second [if]: the global throttle, holding [g], is still ahead. *)
Definition global_wait (g : Z) (σ : State) : State :=
  let σc := elapse σ in
  if time.Before (clock σc) (time.Unix 0 g) then
    asleep (time.Sub (time.Unix 0 g) (clock σc)) σc
  else σc.

(** *** The rule scan of [getBucket] read as a function *)

(** Whether the rule at [rl] has a suffix that ends [key]. *)
Definition rule_matches (rs : gmap loc customRateLimit.t) (key : string)
    (rl : loc) : bool :=
  match rs !! rl with
  | Some RL => strings.HasSuffix key (customRateLimit.suffix RL)
  | None => false
  end.

Fixpoint first_match (rs : gmap loc customRateLimit.t) (key : string)
    (rls : list loc) : option loc :=
  match rls with
  | [] => None
  | rl :: rest =>
      if rule_matches rs key rl then Some rl else first_match rs key rest
  end.

(** *** The rule scans of [SetCustomRateLimit] and
    [RemoveCustomRateLimit] read as functions *)

(** Whether the rule at [rl] has exactly the suffix [s]. *)
Definition has_suffix (rs : gmap loc customRateLimit.t) (s : string)
    (rl : loc) : bool :=
  match rs !! rl with
  | Some RL => String.eqb (customRateLimit.suffix RL) s
  | None => false
  end.

(** The first element of [l] that satisfies [p], with its index counted
    from [i]. *)
Fixpoint find_from {A} (p : A → bool) (i : nat) (l : list A)
  : option (nat * A) :=
  match l with
  | [] => None
  | x :: l' => if p x then Some (i, x) else find_from p (S i) l'
  end.

(** What the bucket loops of the two methods do to one bucket. *)
Definition attach (rl : loc) (s : string) (B : Bucket.t) : Bucket.t :=
  if strings.HasSuffix (Bucket.Key B) s
  then Bucket.set_customRateLimit (Some rl) B else B.

Definition detach (rs : gmap loc customRateLimit.t) (s : string)
    (B : Bucket.t) : Bucket.t :=
  match Bucket.customRateLimit B with
  | Some rl =>
      if has_suffix rs s rl then Bucket.set_customRateLimit None B else B
  | None => B
  end.

Section Release.

(** [http.ParseTime]: the instant a Date header denotes, if it parses. *)
Variable ParseTime : string → option Z.

Definition nonempty (s : string) : bool := negb (String.eqb s "").

(** The [if retryAfter != "" { ... } else if reset != "" { ... }] part
    of [Release]; [Some err] stands for [return err]. *)
Definition update_reset (b : loc) (reset global retryAfter date : string)
  : M (option error) :=
  if nonempty retryAfter then
    match strconv.ParseInt retryAfter 64 with
    | inr e => ret (Some (NumError retryAfter e))
    | inl parsedAfter =>
        let* now := Now in
        let resetAt :=
          time.Add now (int.mul parsedAfter time.Millisecond) in
        (* Lock either this single bucket or all buckets *)
        (if nonempty global then
           let* B := load_bucket b in
           atomic.StoreInt64 (Bucket.global B) (time.UnixNano resetAt)
         else update_bucket b (Bucket.set_reset resetAt)) ;;
        ret None
    end
  else if nonempty reset then
    (* Calculate the reset time by using the date header returned from
       discord *)
    match ParseTime date with
    | None => ret (Some (ParseError date))
    | Some discordTime =>
        match strconv.ParseInt reset 64 with
        | inr e => ret (Some (NumError reset e))
        | inl unix =>
            let delta :=
              int.add (time.Sub (time.Unix unix 0) discordTime)
                      (int.mul time.Millisecond 250) in
            let* now := Now in
            update_bucket b (Bucket.set_reset (time.Add now delta)) ;;
            ret None
        end
    end
  else ret None.

(** The [if remaining != "" { ... }] part of [Release]. *)
Definition update_remaining (b : loc) (remaining : string)
  : M (option error) :=
  if nonempty remaining then
    match strconv.ParseInt remaining 32 with
    | inr e => ret (Some (NumError remaining e))
    | inl parsedRemaining =>
        update_bucket b (Bucket.set_remaining parsedRemaining) ;;
        ret None
    end
  else ret None.

(** [Bucket.Release]; [headers = None] is the nil map. *)
Definition Release (b : loc) (headers : option http.Header)
  : M (option error) :=
  defer (Bucket_Unlock b) (
    (* Check if the bucket uses a custom ratelimiter *)
    crlmut_Lock b ;;
    let* B := load_bucket b in
    match Bucket.customRateLimit B with
    | Some rl =>
        crlmut_Unlock b ;;
        let* now := Now in
        let* B := load_bucket b in
        let* RL := load_rule rl in
        when (customRateLimit.reset RL <=? time.Sub now (Bucket.lastReset B)) (
          let* RL := load_rule rl in
          update_bucket b
            (Bucket.set_remaining (int.sub (customRateLimit.requests RL) 1)) ;;
          let* now := Now in
          update_bucket b (Bucket.set_lastReset now)) ;;
        let* B := load_bucket b in
        when (Bucket.remaining B <? 1) (
          let* now := Now in
          let* RL := load_rule rl in
          update_bucket b
            (Bucket.set_reset (time.Add now (customRateLimit.reset RL)))) ;;
        ret None
    | None =>
        crlmut_Unlock b ;;
        match headers with
        | None => ret None
        | Some h =>
            let remaining := http.Get h "X-RateLimit-Remaining" in
            let reset := http.Get h "X-RateLimit-Reset" in
            let global := http.Get h "X-RateLimit-Global" in
            let retryAfter := http.Get h "Retry-After" in
            let* err := update_reset b reset global retryAfter
                                     (http.Get h "Date") in
            match err with
            | Some e => ret (Some e)
            | None => update_remaining b remaining
            end
        end
    end).

(** *** The header branch read as a function

    What the [if retryAfter != "" ... else if reset != "" ...] statement
    decides, given the instant [now] that [time.Now()] reads in it. *)
Inductive reset_step :=
| ResetFails (e : error)          (* return err *)
| SetGlobal (resetAt : Z)         (* atomic.StoreInt64(b.global, ...) *)
| SetReset (t : Z)                (* b.reset = ... *)
| NoReset.

Definition reset_step_of (now : Z) (reset global retryAfter date : string)
  : reset_step :=
  if nonempty retryAfter then
    match strconv.ParseInt retryAfter 64 with
    | inr e => ResetFails (NumError retryAfter e)
    | inl parsedAfter =>
        let resetAt :=
          time.Add now (int.mul parsedAfter time.Millisecond) in
        if nonempty global then SetGlobal resetAt else SetReset resetAt
    end
  else if nonempty reset then
    match ParseTime date with
    | None => ResetFails (ParseError date)
    | Some discordTime =>
        match strconv.ParseInt reset 64 with
        | inr e => ResetFails (NumError reset e)
        | inl unix =>
            SetReset
              (time.Add now
                 (int.add (time.Sub (time.Unix unix 0) discordTime)
                          (int.mul time.Millisecond 250)))
        end
    end
  else NoReset.

(** What the [if remaining != "" ...] statement returns and leaves. *)
Definition remaining_error (remaining : string) : option error :=
  if nonempty remaining then
    match strconv.ParseInt remaining 32 with
    | inr e => Some (NumError remaining e)
    | inl _ => None
    end
  else None.

Definition remaining_after (remaining : string) (B : Bucket.t) : Bucket.t :=
  if nonempty remaining then
    match strconv.ParseInt remaining 32 with
    | inr _ => B
    | inl parsedRemaining => Bucket.set_remaining parsedRemaining B
    end
  else B.

End Release.


(** ** Well-formed stores

    What holds of a limiter [r], with record [R], between two calls of
    its methods: its own lock is free; its global cell and its rules are
    allocated; no two rules of its list have the same suffix; and every
    registered bucket is allocated, carries the key it is registered
    under and the limiter's global cell, has a free [crlmut], and is
    attached, if at all, to a rule of the list whose suffix ends its
    key. *)

(** The suffix of the rule at [rl]. *)
Definition suffix_of (σ : State) (rl : loc) : option string :=
  customRateLimit.suffix <$> rules σ !! rl.

Definition bucket_ok (σ : State) (R : RateLimiter.t) (key : string)
    (B : Bucket.t) : Prop :=
  Bucket.Key B = key ∧
  Bucket.global B = RateLimiter.global R ∧
  Bucket.crlmut B = false ∧
  ∀ rl, Bucket.customRateLimit B = Some rl →
        rl ∈ RateLimiter.customRateLimits R ∧
        ∃ RL, rules σ !! rl = Some RL ∧
              strings.HasSuffix key (customRateLimit.suffix RL) = true.

Record well_formed (σ : State) (r : loc) (R : RateLimiter.t) : Prop := {
  wf_limiter : limiters σ !! r = Some R;
  wf_unlocked : RateLimiter.mu R = false;
  wf_global : is_Some (cells σ !! RateLimiter.global R);
  wf_rules :
    Forall (λ rl, is_Some (rules σ !! rl)) (RateLimiter.customRateLimits R);
  wf_unique : NoDup (suffix_of σ <$> RateLimiter.customRateLimits R);
  wf_buckets :
    ∀ key b, RateLimiter.buckets R !! key = Some b →
             ∃ B, bucket_heap σ !! b = Some B ∧ bucket_ok σ R key B;
}.

(** ** What a call guarantees *)

(** [wp m σ Q]: started in [σ], the call [m] returns, with a result and
    a final store that satisfy [Q]. *)
Definition wp {A} (m : M A) (σ : State) (Q : A → State → Prop) : Prop :=
  match m σ with
  | Returns a σ' => Q a σ'
  | _ => False
  end.

(** The store once bucket [b], whose record was [B], has given up its
    admission slot. *)
Definition slot_freed (b : loc) (B : Bucket.t) (σ : State) : State :=
  set_bucket_heap (<[b := Bucket.set_mu false B]> (bucket_heap σ)) σ.

(** ** Sample stores: one limiter at work

    The clock starts at 2023-11-14 22:13:20 UTC; object 1 of each heap is
    the limiter, its global cell, the first bucket and the first rule. *)

Definition sample_ParseTime (s : string) : option Z :=
  if String.eqb s "Tue, 14 Nov 2023 22:13:20 GMT"
  then Some (1700000000 * time.Second) else None.

Definition boot : State :=
  mkState (1700000000 * time.Second) [5; 7; 11; 13; 17; 19]%N [] ∅ ∅ ∅ ∅.

(** After [NewRatelimiter()]. *)
Definition new_limiter_record : RateLimiter.t :=
  RateLimiter.mk false 1 ∅ 0 [].

Definition started : State :=
  mkState (clock boot) (pending boot) [] {[1%positive := 0]} ∅ ∅
          {[1%positive := new_limiter_record]}.

(** After [LockBucket("xyz")] on it: the bucket is checked out. *)
Definition xyz_held : Bucket.t :=
  Bucket.mk true "xyz" 0 0 time.zero 1 false time.zero None.

Definition xyz_limiter : RateLimiter.t :=
  RateLimiter.mk false 1 {["xyz" := 1%positive]} 0 [].

Definition held : State :=
  mkState (clock boot + 5) [7; 11; 13; 17; 19]%N [] {[1%positive := 0]} ∅
          {[1%positive := xyz_held]} {[1%positive := xyz_limiter]}.

(** After [SetCustomRateLimit("//reactions//", 2, 200ms)] and
    [LockBucket("emoji//reactions//")]: the bucket carries the rule. *)
Definition reactions_rule : customRateLimit.t :=
  customRateLimit.mk "//reactions//" 2 (200 * time.Millisecond).

Definition emoji_held : Bucket.t :=
  Bucket.mk true "emoji//reactions//" 0 0 time.zero 1 false time.zero
            (Some 1%positive).

Definition emoji_limiter : RateLimiter.t :=
  RateLimiter.mk false 1 {["emoji//reactions//" := 1%positive]} 0
                 [1%positive].

Definition held_ruled : State :=
  mkState (clock boot + 5) [7; 11; 13; 17; 19]%N [] {[1%positive := 0]}
          {[1%positive := reactions_rule]} {[1%positive := emoji_held]}
          {[1%positive := emoji_limiter]}.

(** Response headers, under their canonical keys. *)
Definition retry_2s : gmap string (list string) :=
  {["Retry-After" := ["2000"]]}.

Definition retry_with_bad_reset : gmap string (list string) :=
  <["Retry-After" := ["1000"]]> {["X-Ratelimit-Reset" := ["abc"]]}.

Definition retry_with_bad_remaining : gmap string (list string) :=
  <["Retry-After" := ["1000"]]> {["X-Ratelimit-Remaining" := ["many"]]}.

Definition bad_retry_with_remaining : gmap string (list string) :=
  <["Retry-After" := ["soon"]]> {["X-Ratelimit-Remaining" := ["5"]]}.

Definition remaining_5 : gmap string (list string) :=
  {["X-Ratelimit-Remaining" := ["5"]]}.

Definition retry_2s_global : gmap string (list string) :=
  <["Retry-After" := ["2000"]]> {["X-Ratelimit-Global" := ["true"]]}.

(** [held] after [Release(nil)]: bucket "xyz" is registered and its slot
    is free. *)
Definition idle : State := slot_freed 1 xyz_held held.

(** Bucket "xyz" with nothing left until one second after the start, and
    the global throttle set to three seconds after the start. *)
Definition xyz_spent : Bucket.t :=
  Bucket.mk false "xyz" 0 0 (clock boot + 1 * time.Second) 1 false time.zero
            None.

Definition throttled : State :=
  mkState (clock boot + 5) [7; 11; 13; 17; 19]%N []
          {[1%positive := clock boot + 3 * time.Second]} ∅
          {[1%positive := xyz_spent]} {[1%positive := xyz_limiter]}.

(** As [held_ruled], under the rule "1 per 200 ms". *)
Definition strict_rule : customRateLimit.t :=
  customRateLimit.mk "//reactions//" 1 (200 * time.Millisecond).

Definition held_strict : State :=
  mkState (clock boot + 5) [7; 11; 13; 17; 19]%N [] {[1%positive := 0]}
          {[1%positive := strict_rule]} {[1%positive := emoji_held]}
          {[1%positive := emoji_limiter]}.



(** * Reasoning about calls *)

Lemma wp_returns {A} (m : M A) σ Q :
  wp m σ Q ↔ ∃ a σ', m σ = Returns a σ' ∧ Q a σ'.
Proof.
  unfold wp. split.
  - destruct (m σ) as [a σ'| |]; [eauto | tauto | tauto].
  - intros (a & σ' & E & HQ). rewrite E. exact HQ.
Qed.

Lemma wp_mono {A} (m : M A) σ (Q Q' : A → State → Prop) :
  wp m σ Q → (∀ a σ', Q a σ' → Q' a σ') → wp m σ Q'.
Proof. unfold wp. destruct (m σ); auto. Qed.

Lemma wp_ret {A} (a : A) σ Q : Q a σ → wp (ret a) σ Q.
Proof. exact id. Qed.

Lemma wp_bind {A B} (m : M A) (k : A → M B) σ Q :
  wp m σ (λ a σ', wp (k a) σ' Q) → wp (bind m k) σ Q.
Proof. unfold wp, bind. destruct (m σ); auto. Qed.

Lemma wp_bind_inv {A B} (m : M A) (k : A → M B) σ Q :
  wp (bind m k) σ Q → wp m σ (λ a σ', wp (k a) σ' Q).
Proof. unfold wp, bind. destruct (m σ); auto. Qed.

Lemma wp_defer {A} (u : M unit) (body : M A) σ Q :
  wp body σ (λ a σ', wp u σ' (λ _ σ'', Q a σ'')) → wp (defer u body) σ Q.
Proof.
  intros H. unfold defer. apply wp_bind. eapply wp_mono; [exact H |].
  intros a σ' Hu. apply wp_bind. eapply wp_mono; [exact Hu |].
  intros x σ'' HQ. exact HQ.
Qed.

Lemma wp_when_true (m : M unit) σ Q : wp m σ Q → wp (when true m) σ Q.
Proof. exact id. Qed.

Lemma wp_when_false (m : M unit) σ (Q : unit → State → Prop) :
  Q tt σ → wp (when false m) σ Q.
Proof. exact id. Qed.

Lemma wp_load_bucket b B σ Q :
  bucket_heap σ !! b = Some B → Q B σ → wp (load_bucket b) σ Q.
Proof. unfold wp, load_bucket. intros ->. exact id. Qed.

Lemma wp_update_bucket b B f σ (Q : unit → State → Prop) :
  bucket_heap σ !! b = Some B →
  Q tt (set_bucket_heap (<[b := f B]> (bucket_heap σ)) σ) →
  wp (update_bucket b f) σ Q.
Proof. unfold wp, update_bucket. intros ->. exact id. Qed.

Lemma wp_load_rule p R σ Q :
  rules σ !! p = Some R → Q R σ → wp (load_rule p) σ Q.
Proof. unfold wp, load_rule. intros ->. exact id. Qed.

Lemma wp_update_rule p R f σ (Q : unit → State → Prop) :
  rules σ !! p = Some R →
  Q tt (set_rules (<[p := f R]> (rules σ)) σ) →
  wp (update_rule p f) σ Q.
Proof. unfold wp, update_rule. intros ->. exact id. Qed.

Lemma wp_load_limiter r R σ Q :
  limiters σ !! r = Some R → Q R σ → wp (load_limiter r) σ Q.
Proof. unfold wp, load_limiter. intros ->. exact id. Qed.

Lemma wp_update_limiter r R f σ (Q : unit → State → Prop) :
  limiters σ !! r = Some R →
  Q tt (set_limiters (<[r := f R]> (limiters σ)) σ) →
  wp (update_limiter r f) σ Q.
Proof. unfold wp, update_limiter. intros ->. exact id. Qed.

Lemma wp_LoadInt64 p v σ Q :
  cells σ !! p = Some v → Q v σ → wp (atomic.LoadInt64 p) σ Q.
Proof. unfold wp, atomic.LoadInt64. intros ->. exact id. Qed.

Lemma wp_StoreInt64 p v0 v σ (Q : unit → State → Prop) :
  cells σ !! p = Some v0 →
  Q tt (set_cells (<[p := v]> (cells σ)) σ) →
  wp (atomic.StoreInt64 p v) σ Q.
Proof. unfold wp, atomic.StoreInt64. intros ->. exact id. Qed.

Lemma wp_Now σ Q : Q (clock (elapse σ)) (elapse σ) → wp Now σ Q.
Proof. exact id. Qed.

Lemma wp_Sleep d σ (Q : unit → State → Prop) :
  Q tt (asleep d σ) → wp (Sleep d) σ Q.
Proof. exact id. Qed.

Lemma wp_RateLimiter_Lock r R σ (Q : unit → State → Prop) :
  limiters σ !! r = Some R → RateLimiter.mu R = false →
  Q tt (set_limiters (<[r := RateLimiter.set_mu true R]> (limiters σ)) σ) →
  wp (RateLimiter_Lock r) σ Q.
Proof.
  unfold wp, RateLimiter_Lock, update_limiter. intros -> ->. exact id.
Qed.

Lemma wp_RateLimiter_Unlock r R σ (Q : unit → State → Prop) :
  limiters σ !! r = Some R → RateLimiter.mu R = true →
  Q tt (set_limiters (<[r := RateLimiter.set_mu false R]> (limiters σ)) σ) →
  wp (RateLimiter_Unlock r) σ Q.
Proof.
  unfold wp, RateLimiter_Unlock, update_limiter. intros -> ->. exact id.
Qed.

Lemma wp_Bucket_Lock b B σ (Q : unit → State → Prop) :
  bucket_heap σ !! b = Some B → Bucket.mu B = false →
  Q tt (set_bucket_heap (<[b := Bucket.set_mu true B]> (bucket_heap σ)) σ) →
  wp (Bucket_Lock b) σ Q.
Proof. unfold wp, Bucket_Lock, update_bucket. intros -> ->. exact id. Qed.

Lemma wp_Bucket_Unlock b B σ (Q : unit → State → Prop) :
  bucket_heap σ !! b = Some B → Bucket.mu B = true →
  Q tt (set_bucket_heap (<[b := Bucket.set_mu false B]> (bucket_heap σ)) σ) →
  wp (Bucket_Unlock b) σ Q.
Proof. unfold wp, Bucket_Unlock, update_bucket. intros -> ->. exact id. Qed.

Lemma wp_crlmut_Lock b B σ (Q : unit → State → Prop) :
  bucket_heap σ !! b = Some B → Bucket.crlmut B = false →
  Q tt (set_bucket_heap (<[b := Bucket.set_crlmut true B]> (bucket_heap σ)) σ) →
  wp (crlmut_Lock b) σ Q.
Proof. unfold wp, crlmut_Lock, update_bucket. intros -> ->. exact id. Qed.

Lemma wp_crlmut_Unlock b B σ (Q : unit → State → Prop) :
  bucket_heap σ !! b = Some B → Bucket.crlmut B = true →
  Q tt (set_bucket_heap (<[b := Bucket.set_crlmut false B]> (bucket_heap σ)) σ) →
  wp (crlmut_Unlock b) σ Q.
Proof. unfold wp, crlmut_Unlock, update_bucket. intros -> ->. exact id. Qed.

(** Sleeping touches the clock and the sleep log only. *)
Lemma asleep_frame d σ :
  cells (asleep d σ) = cells σ ∧ rules (asleep d σ) = rules σ ∧
  bucket_heap (asleep d σ) = bucket_heap σ ∧
  limiters (asleep d σ) = limiters σ.
Proof. unfold asleep. by destruct (0 <? d). Qed.

Lemma cells_asleep d σ : cells (asleep d σ) = cells σ.
Proof. apply asleep_frame. Qed.
Lemma rules_asleep d σ : rules (asleep d σ) = rules σ.
Proof. apply asleep_frame. Qed.
Lemma bucket_heap_asleep d σ : bucket_heap (asleep d σ) = bucket_heap σ.
Proof. apply asleep_frame. Qed.
Lemma limiters_asleep d σ : limiters (asleep d σ) = limiters σ.
Proof. apply asleep_frame. Qed.
Lemma slept_asleep d σ : slept (asleep d σ) = d :: slept σ.
Proof. unfold asleep. by destruct (0 <? d). Qed.

Create Rewrite HintDb store.
#[export] Hint Rewrite cells_asleep rules_asleep bucket_heap_asleep
  limiters_asleep slept_asleep : store.

(** Projections of the store after an update. *)
Ltac store_simpl :=
  autorewrite with store in *;
  cbn [clock pending slept cells rules bucket_heap limiters
       set_cells set_rules set_bucket_heap set_limiters elapse park
       Bucket.mu Bucket.Key Bucket.remaining Bucket.limit Bucket.reset
       Bucket.global Bucket.crlmut Bucket.lastReset Bucket.customRateLimit
       Bucket.set_mu Bucket.set_remaining Bucket.set_reset Bucket.set_crlmut
       Bucket.set_lastReset Bucket.set_customRateLimit
       RateLimiter.mu RateLimiter.global RateLimiter.buckets
       RateLimiter.globalRateLimit RateLimiter.customRateLimits
       RateLimiter.set_mu RateLimiter.set_buckets
       RateLimiter.set_customRateLimits
       customRateLimit.suffix customRateLimit.requests customRateLimit.reset
       customRateLimit.set_requests customRateLimit.set_reset] in *.

(** A lookup in a heap at the location that was written last. *)
Ltac heap_lookup :=
  store_simpl;
  first [ eassumption
        | apply lookup_insert_eq
        | rewrite lookup_insert_ne by congruence; heap_lookup ].

(** One step of a call. *)
Ltac go_step :=
  store_simpl;
  lazymatch goal with
  | |- wp (bind _ _) _ _ => apply wp_bind
  | |- wp (defer _ _) _ _ => apply wp_defer
  | |- wp (ret _) _ _ => apply wp_ret
  | |- wp (when true _) _ _ => apply wp_when_true
  | |- wp (when false _) _ _ => apply wp_when_false
  | |- wp (load_bucket _) _ _ => eapply wp_load_bucket; [heap_lookup |]
  | |- wp (update_bucket _ _) _ _ => eapply wp_update_bucket; [heap_lookup |]
  | |- wp (load_rule _) _ _ => eapply wp_load_rule; [heap_lookup |]
  | |- wp (update_rule _ _) _ _ => eapply wp_update_rule; [heap_lookup |]
  | |- wp (load_limiter _) _ _ => eapply wp_load_limiter; [heap_lookup |]
  | |- wp (update_limiter _ _) _ _ =>
      eapply wp_update_limiter; [heap_lookup |]
  | |- wp (atomic.LoadInt64 _) _ _ => eapply wp_LoadInt64; [heap_lookup |]
  | |- wp (atomic.StoreInt64 _ _) _ _ =>
      eapply wp_StoreInt64; [heap_lookup |]
  | |- wp Now _ _ => apply wp_Now
  | |- wp (Sleep _) _ _ => apply wp_Sleep
  | |- wp (RateLimiter_Lock _) _ _ =>
      eapply wp_RateLimiter_Lock; [heap_lookup | store_simpl; try done |]
  | |- wp (RateLimiter_Unlock _) _ _ =>
      eapply wp_RateLimiter_Unlock; [heap_lookup | store_simpl; try done |]
  | |- wp (Bucket_Lock _) _ _ =>
      eapply wp_Bucket_Lock; [heap_lookup | store_simpl; try done |]
  | |- wp (Bucket_Unlock _) _ _ =>
      eapply wp_Bucket_Unlock; [heap_lookup | store_simpl; try done |]
  | |- wp (crlmut_Lock _) _ _ =>
      eapply wp_crlmut_Lock; [heap_lookup | store_simpl; try done |]
  | |- wp (crlmut_Unlock _) _ _ =>
      eapply wp_crlmut_Unlock; [heap_lookup | store_simpl; try done |]
  end.

Ltac go := repeat go_step; store_simpl.

(** ** Arithmetic *)

Lemma wrap64_fits z : int.fits64 z → int.wrap64 z = z.
Proof.
  unfold int.fits64, int.wrap64, int.wrap, int.MinInt64, int.MaxInt64.
  intros H. rewrite Z.mod_small; lia.
Qed.

Lemma wrap64_range z : int.fits64 (int.wrap64 z).
Proof.
  unfold int.fits64, int.wrap64, int.wrap, int.MinInt64, int.MaxInt64.
  pose proof (Z.mod_pos_bound (z + 2 ^ (64 - 1)) (2 ^ 64)). lia.
Qed.

Lemma clamp64_fits z : int.fits64 z → int.clamp64 z = z.
Proof.
  unfold int.fits64, int.clamp64. intros H.
  destruct (Z.ltb_spec z int.MinInt64); [lia |].
  destruct (Z.ltb_spec int.MaxInt64 z); [lia | done].
Qed.

Lemma clamp64_range z : int.fits64 (int.clamp64 z).
Proof.
  unfold int.fits64, int.clamp64, int.MinInt64, int.MaxInt64.
  destruct (Z.ltb_spec z (- 2 ^ 63)); [lia |].
  destruct (Z.ltb_spec (2 ^ 63 - 1) z); lia.
Qed.

Lemma clamp64_le z : z ≤ int.MaxInt64 → z ≤ int.clamp64 z.
Proof.
  unfold int.clamp64, int.MinInt64, int.MaxInt64. intros H.
  destruct (Z.ltb_spec z (- 2 ^ 63)); [lia |].
  destruct (Z.ltb_spec (2 ^ 63 - 1) z); lia.
Qed.

(** [time.Unix(0, g)] is the instant [g] nanoseconds after the epoch,
    and [time.Unix(u, 0)] the instant [u] seconds after it, when the
    seconds counted from year 1 fit an [int64]. *)
Lemma Unix_nano g : int.fits64 g → time.Unix 0 g = g.
Proof.
  unfold int.fits64, int.MinInt64, int.MaxInt64. intros Hg.
  unfold time.Unix, int.add, time.unixToInternal, time.Second,
    time.Millisecond, time.Microsecond, time.Nanosecond.
  rewrite (wrap64_fits (0 + g / 1000000000))
    by (unfold int.fits64, int.MinInt64, int.MaxInt64;
        Z.div_mod_to_equations; lia).
  rewrite wrap64_fits
    by (unfold int.fits64, int.MinInt64, int.MaxInt64;
        Z.div_mod_to_equations; lia).
  Z.div_mod_to_equations. lia.
Qed.


(** ** What [strconv] returns *)

Lemma digit_range c d : strconv.digit c = Some d → 0 ≤ d ≤ 9.
Proof.
  unfold strconv.digit.
  destruct (Z.leb_spec 48 (Z.of_N (N_of_ascii c)));
    destruct (Z.leb_spec (Z.of_N (N_of_ascii c)) 57); simpl;
    intros [= <-]; lia.
Qed.

Lemma scan_range maxVal s : ∀ n,
  0 ≤ maxVal → 0 ≤ n ≤ maxVal →
  0 ≤ (strconv.scan maxVal n s).1 ≤ maxVal.
Proof.
  induction s as [|c s IH]; simpl; intros n Hmax Hn; [done |].
  destruct (strconv.digit c) as [d|] eqn:Ed; simpl; [| lia].
  destruct (strconv.maxUint64 / 10 + 1 <=? n); simpl; [lia |].
  destruct (Z.ltb_spec ((n * 10 + d) mod 2 ^ 64) (n * 10)); simpl; [lia |].
  destruct (Z.ltb_spec maxVal ((n * 10 + d) mod 2 ^ 64)); simpl; [lia |].
  apply IH; [done |]. split; [| done].
  apply Z.mod_pos_bound. lia.
Qed.

Lemma ParseUint_range s bits :
  0 ≤ bits → 0 ≤ (strconv.ParseUint s bits).1 ≤ 2 ^ bits - 1.
Proof.
  intros Hbits. unfold strconv.ParseUint.
  assert (0 < 2 ^ bits) by (apply Z.pow_pos_nonneg; lia).
  destruct s as [|c s]; [simpl; lia |].
  apply scan_range; lia.
Qed.

(** [strconv.ParseInt(s, 10, bitSize)] without an error is a signed
    integer of that size. *)
Lemma ParseInt_range s bits v :
  1 ≤ bits → strconv.ParseInt s bits = inl v →
  - 2 ^ (bits - 1) ≤ v < 2 ^ (bits - 1).
Proof.
  intros Hbits. unfold strconv.ParseInt.
  destruct s as [|c s]; [done |]. cbv zeta.
  set (s1 := if Ascii.eqb c "+" then s
             else if Ascii.eqb c "-" then s else String c s).
  pose proof (ParseUint_range s1 bits ltac:(lia)) as [Hun _].
  assert (0 < 2 ^ (bits - 1)) by (apply Z.pow_pos_nonneg; lia).
  destruct (strconv.ParseUint s1 bits) as [un [[]|]]; simpl in Hun;
    [done | |];
    destruct (Ascii.eqb c "-"); simpl;
    destruct (Z.leb_spec (2 ^ (bits - 1)) un);
    destruct (Z.ltb_spec (2 ^ (bits - 1)) un); simpl;
    intros [= <-]; lia.
Qed.


Lemma nonempty_true s : nonempty s = true ↔ s ≠ "".
Proof.
  unfold nonempty. destruct (String.eqb_spec s ""); split; intros; done.
Qed.

Lemma nonempty_false s : nonempty s = false ↔ s = "".
Proof.
  unfold nonempty. destruct (String.eqb_spec s ""); split; intros; done.
Qed.

(** A bucket whose [crlmut] is taken and given back is the same bucket. *)
Lemma crlmut_round_trip B :
  Bucket.crlmut B = false →
  Bucket.set_crlmut false (Bucket.set_crlmut true B) = B.
Proof. destruct B; simpl; intros ->; done. Qed.

Lemma set_bucket_heap_id σ b B :
  bucket_heap σ !! b = Some B →
  set_bucket_heap (<[b := B]> (bucket_heap σ)) σ = σ.
Proof. intros H. destruct σ; simpl in *. by rewrite insert_id. Qed.

Lemma set_bucket_heap_twice σ v v' :
  set_bucket_heap v (set_bucket_heap v' σ) = set_bucket_heap v σ.
Proof. done. Qed.

Section ReleaseFacts.

Variable ParseTime : string → option Z.

(** The part of [Release] every call goes through: the custom rule is
    read under [crlmut], and the slot is given back at the end. *)
Lemma wp_Release_no_rule σ b B headers Q :
  bucket_heap σ !! b = Some B →
  Bucket.customRateLimit B = None →
  Bucket.crlmut B = false →
  wp (match headers with
      | None => ret None
      | Some h =>
          let* err := update_reset ParseTime b
                        (http.Get h "X-RateLimit-Reset")
                        (http.Get h "X-RateLimit-Global")
                        (http.Get h "Retry-After") (http.Get h "Date") in
          match err with
          | Some e => ret (Some e)
          | None => update_remaining b (http.Get h "X-RateLimit-Remaining")
          end
      end) σ (λ a σ', wp (Bucket_Unlock b) σ' (λ _ σ'', Q a σ'')) →
  wp (Release ParseTime b headers) σ Q.
Proof.
  intros Hb Hc Hl H. unfold Release. go. rewrite Hc. go.
  rewrite set_bucket_heap_twice, insert_insert_eq, crlmut_round_trip by done.
  rewrite set_bucket_heap_id by done. exact H.
Qed.

Lemma Release_nil_run σ b B :
  bucket_heap σ !! b = Some B →
  Bucket.customRateLimit B = None →
  Bucket.mu B = true →
  Bucket.crlmut B = false →
  Release ParseTime b None σ = Returns None (slot_freed b B σ).
Proof.
  intros Hb Hc Hm Hl.
  assert (wp (Release ParseTime b None) σ
            (λ r σ', r = None ∧ σ' = slot_freed b B σ)) as H.
  { apply wp_Release_no_rule with B; try done. go. done. }
  apply wp_returns in H as (a & σ' & E & -> & ->). exact E.
Qed.

(** C6. [Release(nil)] on a bucket with no custom rule attached returns
    no error, and the store it leaves is the store it found with the
    bucket's admission slot given back: [remaining], [reset],
    [lastReset], the clock, the global throttle and every other object
    are as before. *)
Theorem Release_nil_only_frees_slot σ b B :
  bucket_heap σ !! b = Some B →
  Bucket.customRateLimit B = None →
  Bucket.mu B = true →
  Bucket.crlmut B = false →
  ∃ σ' B',
    Release ParseTime b None σ = Returns None σ' ∧
    σ' = set_bucket_heap (<[b := B']> (bucket_heap σ)) σ ∧
    B' = Bucket.set_mu false B ∧
    Bucket.remaining B' = Bucket.remaining B ∧
    Bucket.reset B' = Bucket.reset B ∧
    Bucket.lastReset B' = Bucket.lastReset B.
Proof.
  intros Hb Hc Hm Hl.
  exists (slot_freed b B σ), (Bucket.set_mu false B).
  split; [by apply Release_nil_run |]. done.
Qed.

Lemma update_remaining_run σ b B s :
  bucket_heap σ !! b = Some B →
  update_remaining b s σ
  = Returns (remaining_error s)
      (set_bucket_heap (<[b := remaining_after s B]> (bucket_heap σ)) σ).
Proof.
  intros Hb. unfold update_remaining, remaining_error, remaining_after.
  destruct (nonempty s).
  - destruct (strconv.ParseInt s 32); unfold bind, update_bucket, ret.
    + by rewrite Hb.
    + by rewrite set_bucket_heap_id.
  - unfold ret. by rewrite set_bucket_heap_id.
Qed.

Lemma update_reset_run σ b B g reset global retryAfter date :
  bucket_heap σ !! b = Some B →
  cells σ !! Bucket.global B = Some g →
  update_reset ParseTime b reset global retryAfter date σ
  = match reset_step_of ParseTime (reading 1 σ) reset global retryAfter
                        date with
    | ResetFails e => Returns (Some e) σ
    | SetGlobal t =>
        Returns None
          (set_cells (<[Bucket.global B := time.UnixNano t]> (cells σ))
                     (elapse σ))
    | SetReset t =>
        Returns None
          (set_bucket_heap (<[b := Bucket.set_reset t B]> (bucket_heap σ))
                           (elapse σ))
    | NoReset => Returns None σ
    end.
Proof.
  intros Hb Hg. unfold update_reset, reset_step_of.
  destruct (nonempty retryAfter).
  - destruct (strconv.ParseInt retryAfter 64) as [n|e]; [| done].
    destruct (nonempty global);
      unfold bind, Now, load_bucket, atomic.StoreInt64, update_bucket, ret;
      simpl; rewrite ?Hb; simpl; rewrite ?Hg; done.
  - destruct (nonempty reset); [| done].
    destruct (ParseTime date) as [d|]; [| done].
    destruct (strconv.ParseInt reset 64) as [n|e]; [| done].
    unfold bind, Now, update_bucket, ret; simpl. by rewrite Hb.
Qed.

(** [Release] with headers on a bucket without a custom rule, as one
    equation. *)
Lemma Release_headers_run σ b B g h :
  bucket_heap σ !! b = Some B →
  Bucket.customRateLimit B = None →
  Bucket.mu B = true →
  Bucket.crlmut B = false →
  cells σ !! Bucket.global B = Some g →
  let remaining := http.Get h "X-RateLimit-Remaining" in
  Release ParseTime b (Some h) σ
  = match reset_step_of ParseTime (reading 1 σ)
            (http.Get h "X-RateLimit-Reset")
            (http.Get h "X-RateLimit-Global")
            (http.Get h "Retry-After") (http.Get h "Date") with
    | ResetFails e => Returns (Some e) (slot_freed b B σ)
    | SetGlobal t =>
        Returns (remaining_error remaining)
          (slot_freed b (remaining_after remaining B)
             (set_cells (<[Bucket.global B := time.UnixNano t]> (cells σ))
                        (elapse σ)))
    | SetReset t =>
        Returns (remaining_error remaining)
          (slot_freed b (remaining_after remaining (Bucket.set_reset t B))
             (elapse σ))
    | NoReset =>
        Returns (remaining_error remaining)
          (slot_freed b (remaining_after remaining B) σ)
    end.
Proof.
  intros Hb Hc Hm Hl Hg remaining.
  assert (∀ B0, Bucket.mu B0 = Bucket.mu B →
                Bucket.mu (remaining_after remaining B0) = true) as Hmu.
  { intros B0 E. unfold remaining_after.
    destruct (nonempty remaining); [| congruence].
    destruct (strconv.ParseInt remaining 32); simpl; congruence. }
  pose proof (update_reset_run σ b B g (http.Get h "X-RateLimit-Reset")
                (http.Get h "X-RateLimit-Global")
                (http.Get h "Retry-After") (http.Get h "Date") Hb Hg)
    as Hreset.
  destruct (reset_step_of ParseTime (reading 1 σ) _ _ _ _) as [e|t|t|].
  all: match goal with
       | |- ?lhs = Returns ?r ?s =>
           cut (wp (Release ParseTime b (Some h)) σ
                   (λ a σ', a = r ∧ σ' = s));
           [ intros Hw; apply wp_returns in Hw as (a & σ' & E & -> & ->);
             exact E |]
       end.
  all: apply wp_Release_no_rule with B; try done.
  all: apply wp_bind; unfold wp at 1; rewrite Hreset.
  - go. done.
  - unfold wp at 1. rewrite (update_remaining_run _ b B) by done.
    go. { apply Hmu. done. }
    split; [done |]. unfold slot_freed, set_bucket_heap, set_cells. simpl.
    by rewrite insert_insert_eq.
  - unfold wp at 1.
    rewrite (update_remaining_run _ b (Bucket.set_reset t B))
      by (simpl; apply lookup_insert_eq).
    go. { apply Hmu. done. }
    split; [done |]. unfold slot_freed, set_bucket_heap. simpl.
    by rewrite !insert_insert_eq.
  - unfold wp at 1. rewrite (update_remaining_run _ b B) by done.
    go. { apply Hmu. done. }
    split; [done |]. unfold slot_freed, set_bucket_heap. simpl.
    by rewrite insert_insert_eq.
Qed.

(** C3. [Release] on a bucket with a custom rule attached returns no
    error whatever the headers are, and the headers do not influence
    the store it leaves.  With [now] the reading of [time.Now()] at each
    statement: if [now.Sub(lastReset) >= rule.reset] then [remaining]
    becomes [rule.requests - 1] and [lastReset] becomes [now]; if
    [remaining] is below 1 after that, [reset] becomes
    [now.Add(rule.reset)], where this [now] is the last reading of the
    call, the clock at return; whatever is not set keeps its value.
    [now.Add(rule.reset)] is the sum [now + rule.reset], and the clock
    at return is the reading after those of the assignments made: the
    third or second when a window opened, the second or first when
    not. *)
Theorem Release_custom_rule σ b B rl RL headers :
  bucket_heap σ !! b = Some B →
  Bucket.customRateLimit B = Some rl →
  rules σ !! rl = Some RL →
  Bucket.mu B = true →
  Bucket.crlmut B = false →
  ∃ σ' B',
    Release ParseTime b headers σ = Returns None σ' ∧
    (∀ headers', Release ParseTime b headers' σ = Returns None σ') ∧
    bucket_heap σ' !! b = Some B' ∧
    Bucket.mu B' = false ∧
    (customRateLimit.reset RL ≤ time.Sub (reading 1 σ) (Bucket.lastReset B) →
       Bucket.remaining B' = int.sub (customRateLimit.requests RL) 1 ∧
       Bucket.lastReset B' = reading 2 σ) ∧
    (time.Sub (reading 1 σ) (Bucket.lastReset B) < customRateLimit.reset RL →
       Bucket.remaining B' = Bucket.remaining B ∧
       Bucket.lastReset B' = Bucket.lastReset B) ∧
    (Bucket.remaining B' < 1 →
       Bucket.reset B' = time.Add (clock σ') (customRateLimit.reset RL)) ∧
    (1 ≤ Bucket.remaining B' → Bucket.reset B' = Bucket.reset B) ∧
    (int.fits64 (reading 1 σ - Bucket.lastReset B) →
       time.Sub (reading 1 σ) (Bucket.lastReset B)
       = reading 1 σ - Bucket.lastReset B) ∧
    (int.fits64 (customRateLimit.requests RL - 1) →
       int.sub (customRateLimit.requests RL) 1
       = customRateLimit.requests RL - 1) ∧
    rules σ' = rules σ ∧ cells σ' = cells σ ∧
    (Bucket.remaining B' < 1 →
       Bucket.reset B' = clock σ' + customRateLimit.reset RL) ∧
    (customRateLimit.reset RL ≤ time.Sub (reading 1 σ) (Bucket.lastReset B) →
       clock σ' = if Bucket.remaining B' <? 1 then reading 3 σ
                  else reading 2 σ) ∧
    (time.Sub (reading 1 σ) (Bucket.lastReset B) < customRateLimit.reset RL →
       clock σ' = if Bucket.remaining B' <? 1 then reading 2 σ
                  else reading 1 σ).
Proof.
  intros Hb Hc Hrl Hm Hl.
  assert (∀ hs, wp (Release ParseTime b hs) σ (λ r σ',
    r = None ∧ ∃ B', σ' = set_bucket_heap (<[b := B']> (bucket_heap σ))
                            (Nat.iter
                               (if customRateLimit.reset RL
                                   <=? time.Sub (reading 1 σ)
                                                (Bucket.lastReset B)
                                then if int.sub (customRateLimit.requests RL) 1 <? 1
                                     then 3%nat else 2%nat
                                else if Bucket.remaining B <? 1
                                     then 2%nat else 1%nat) elapse σ) ∧
    B' = (let B1 :=
            if customRateLimit.reset RL
               <=? time.Sub (reading 1 σ) (Bucket.lastReset B)
            then Bucket.set_lastReset (reading 2 σ)
                   (Bucket.set_remaining
                      (int.sub (customRateLimit.requests RL) 1) B)
            else B in
          Bucket.set_mu false
            (if Bucket.remaining B1 <? 1
             then Bucket.set_reset
                    (time.Add
                       (reading
                          (if customRateLimit.reset RL
                              <=? time.Sub (reading 1 σ)
                                           (Bucket.lastReset B)
                           then 3 else 2) σ)
                       (customRateLimit.reset RL)) B1
             else B1)))) as Hrun.
  { intros hs. unfold Release. go. rewrite Hc. go.
    rewrite crlmut_round_trip by done. unfold reading. simpl.
    destruct (customRateLimit.reset RL
              <=? time.Sub (clock σ + Z.of_N (hd 0%N (pending σ)))
                           (Bucket.lastReset B)) eqn:Edue.
    - go.
      destruct (int.sub (customRateLimit.requests RL) 1 <? 1) eqn:Elow;
        go; (split; [done |]); eexists; (split; [| reflexivity]);
        unfold set_bucket_heap; simpl; rewrite !insert_insert_eq;
        rewrite ?Hm; done.
    - go.
      destruct (Bucket.remaining B <? 1) eqn:Elow;
        go; (split; [done |]); eexists; (split; [| reflexivity]);
        unfold set_bucket_heap; simpl; rewrite !insert_insert_eq;
        rewrite ?Hm; done. }
  destruct (proj1 (wp_returns _ _ _) (Hrun headers))
    as (r & σ' & E & -> & B' & Hσ' & HB').
  exists σ', B'. split; [exact E |]. split.
  { intros hs. destruct (proj1 (wp_returns _ _ _) (Hrun hs))
      as (r & σ'' & E' & -> & B'' & Hσ'' & HB'').
    rewrite E'. congruence. }
  assert (bucket_heap σ' !! b = Some B') as Hb'.
  { rewrite Hσ'. simpl. apply lookup_insert_eq. }
  split; [exact Hb' |].
  destruct (Z.leb_spec (customRateLimit.reset RL)
              (time.Sub (reading 1 σ) (Bucket.lastReset B))) as [Hdue|Hdue];
    simpl in HB'.
  - destruct (Z.ltb_spec (int.sub (customRateLimit.requests RL) 1) 1)
      as [Hlow|Hlow]; subst B'; simpl; repeat split; try done; try lia;
      try (intros; apply wrap64_fits; done);
      try (intros; apply clamp64_fits; done);
      try (rewrite Hσ'; simpl; done);
      try (destruct (Z.ltb_spec (int.sub (customRateLimit.requests RL) 1) 1);
           [| lia]; rewrite Hσ'; reflexivity);
      try (destruct (Z.ltb_spec (int.sub (customRateLimit.requests RL) 1) 1);
           [lia |]; rewrite Hσ'; reflexivity).
  - destruct (Z.ltb_spec (Bucket.remaining B) 1)
      as [Hlow|Hlow]; subst B'; simpl; repeat split; try done; try lia;
      try (intros; apply wrap64_fits; done);
      try (intros; apply clamp64_fits; done);
      try (rewrite Hσ'; simpl; done);
      try (destruct (Z.ltb_spec (Bucket.remaining B) 1);
           [| lia]; rewrite Hσ'; reflexivity);
      try (destruct (Z.ltb_spec (Bucket.remaining B) 1);
           [lia |]; rewrite Hσ'; reflexivity).
Qed.

Lemma remaining_after_frame s B :
  Bucket.mu (remaining_after s B) = Bucket.mu B ∧
  Bucket.reset (remaining_after s B) = Bucket.reset B ∧
  Bucket.lastReset (remaining_after s B) = Bucket.lastReset B.
Proof.
  unfold remaining_after. destruct (nonempty s); [| done].
  by destruct (strconv.ParseInt s 32).
Qed.

Lemma remaining_after_set_reset s t B :
  Bucket.remaining (remaining_after s (Bucket.set_reset t B))
  = Bucket.remaining (remaining_after s B).
Proof.
  unfold remaining_after. destruct (nonempty s); [| done].
  by destruct (strconv.ParseInt s 32).
Qed.

(** What a [Release] with headers leaves, by the decision taken on the
    reset headers. *)
Lemma Release_headers_effect σ b B g h :
  bucket_heap σ !! b = Some B →
  Bucket.customRateLimit B = None →
  Bucket.mu B = true →
  Bucket.crlmut B = false →
  cells σ !! Bucket.global B = Some g →
  let remaining := http.Get h "X-RateLimit-Remaining" in
  let step :=
    reset_step_of ParseTime (reading 1 σ) (http.Get h "X-RateLimit-Reset")
      (http.Get h "X-RateLimit-Global") (http.Get h "Retry-After")
      (http.Get h "Date") in
  ∃ σ' B' g',
    Release ParseTime b (Some h) σ
    = Returns (match step with
               | ResetFails e => Some e
               | _ => remaining_error remaining
               end) σ' ∧
    bucket_heap σ' !! b = Some B' ∧
    cells σ' !! Bucket.global B = Some g' ∧
    Bucket.mu B' = false ∧
    Bucket.lastReset B' = Bucket.lastReset B ∧
    Bucket.remaining B'
    = match step with
      | ResetFails _ => Bucket.remaining B
      | _ => Bucket.remaining (remaining_after remaining B)
      end ∧
    match step with
    | ResetFails _ => σ' = slot_freed b B σ
    | SetGlobal t =>
        g' = time.UnixNano t ∧ Bucket.reset B' = Bucket.reset B
    | SetReset t => Bucket.reset B' = t ∧ g' = g
    | NoReset => Bucket.reset B' = Bucket.reset B ∧ g' = g
    end.
Proof.
  intros Hb Hc Hm Hl Hg remaining step.
  rewrite (Release_headers_run σ b B g h) by done.
  fold remaining step.
  pose proof (remaining_after_frame remaining B) as (_ & Hr & Hlr).
  pose proof (remaining_after_frame remaining) as Hfr.
  destruct step as [e|t|t|].
  - eexists _, _, _. split; [reflexivity |].
    split; [apply lookup_insert_eq |]. split; [exact Hg |]. done.
  - eexists _, _, _. split; [reflexivity |].
    split; [apply lookup_insert_eq |].
    split; [apply lookup_insert_eq |]. done.
  - eexists _, _, _. split; [reflexivity |].
    split; [apply lookup_insert_eq |]. split; [exact Hg |].
    store_simpl. rewrite remaining_after_set_reset.
    destruct (Hfr (Bucket.set_reset t B)) as (_ & -> & ->). done.
  - eexists _, _, _. split; [reflexivity |].
    split; [apply lookup_insert_eq |]. split; [exact Hg |]. done.
Qed.

(** When the reset headers make [Release] fail. *)
Lemma reset_step_fails now reset global retryAfter date :
  (∃ e, reset_step_of ParseTime now reset global retryAfter date
        = ResetFails e)
  ↔ (retryAfter ≠ "" ∧ ∃ e, strconv.ParseInt retryAfter 64 = inr e)
    ∨ (retryAfter = "" ∧ reset ≠ "" ∧
       (ParseTime date = None ∨ ∃ e, strconv.ParseInt reset 64 = inr e)).
Proof.
  unfold reset_step_of.
  destruct (nonempty retryAfter) eqn:ERA;
    [apply nonempty_true in ERA | apply nonempty_false in ERA].
  - destruct (strconv.ParseInt retryAfter 64) as [n|e].
    + destruct (nonempty global); split;
        [ intros [? ?]; done | intros [(_ & ? & ?)|(? & _)]; done
        | intros [? ?]; done | intros [(_ & ? & ?)|(? & _)]; done ].
    + split; [intros _; left; eauto | eauto].
  - destruct (nonempty reset) eqn:ER;
      [apply nonempty_true in ER | apply nonempty_false in ER].
    + destruct (ParseTime date) as [d|].
      * destruct (strconv.ParseInt reset 64) as [n|e].
        -- split; [intros [? ?]; done |].
           intros [(? & _)|(_ & _ & [?|[? ?]])]; done.
        -- split; [intros _; right; eauto | eauto].
      * split; [intros _; right; eauto | eauto].
    + split; [intros [? ?]; done |].
      intros [(? & _)|(_ & ? & _)]; done.
Qed.


(** C4 (amended). [Release] with headers on a bucket without a custom
    rule returns a parse error as soon as a header value that it parses
    is malformed: Retry-After when it is present; with Retry-After
    absent, the Date or the epoch reset when the reset header is
    present; and the remaining count when it is present.  The admission
    slot is given back.  When the failing value is one of the reset
    headers nothing but the slot has changed; when it is the remaining
    count, what the reset headers had set before (the bucket's [reset]
    or the shared cell) is still set, and [remaining] and [lastReset]
    are as before. *)
Theorem Release_parse_error σ b B g h :
  bucket_heap σ !! b = Some B →
  Bucket.customRateLimit B = None →
  Bucket.mu B = true →
  Bucket.crlmut B = false →
  cells σ !! Bucket.global B = Some g →
  let retryAfter := http.Get h "Retry-After" in
  let reset := http.Get h "X-RateLimit-Reset" in
  let global := http.Get h "X-RateLimit-Global" in
  let date := http.Get h "Date" in
  let remaining := http.Get h "X-RateLimit-Remaining" in
  let now := reading 1 σ in
  let reset_headers_fail :=
    (retryAfter ≠ "" ∧ ∃ e, strconv.ParseInt retryAfter 64 = inr e)
    ∨ (retryAfter = "" ∧ reset ≠ "" ∧
       (ParseTime date = None ∨ ∃ e, strconv.ParseInt reset 64 = inr e)) in
  reset_headers_fail
  ∨ (remaining ≠ "" ∧ ∃ e, strconv.ParseInt remaining 32 = inr e) →
  ∃ err σ' B' g',
    Release ParseTime b (Some h) σ = Returns (Some err) σ' ∧
    bucket_heap σ' !! b = Some B' ∧
    cells σ' !! Bucket.global B = Some g' ∧
    Bucket.mu B' = false ∧
    Bucket.remaining B' = Bucket.remaining B ∧
    Bucket.lastReset B' = Bucket.lastReset B ∧
    (reset_headers_fail → σ' = slot_freed b B σ) ∧
    (∀ n, retryAfter ≠ "" → strconv.ParseInt retryAfter 64 = inl n →
       let resetAt := time.Add now (int.mul n time.Millisecond) in
       (global ≠ "" →
          g' = time.UnixNano resetAt ∧ Bucket.reset B' = Bucket.reset B) ∧
       (global = "" → Bucket.reset B' = resetAt ∧ g' = g)) ∧
    (∀ unix d, retryAfter = "" → reset ≠ "" →
       ParseTime date = Some d → strconv.ParseInt reset 64 = inl unix →
       Bucket.reset B'
       = time.Add now (int.add (time.Sub (time.Unix unix 0) d)
                               (int.mul time.Millisecond 250)) ∧
       g' = g) ∧
    (retryAfter = "" → reset = "" →
       Bucket.reset B' = Bucket.reset B ∧ g' = g).
Proof.
  intros Hb Hc Hm Hl Hg retryAfter reset global date remaining now
    reset_headers_fail Hbad.
  destruct (Release_headers_effect σ b B g h Hb Hc Hm Hl Hg)
    as (σ' & B' & g' & Hrun & Hb' & Hg' & Hmu & Hlr & Hrem & Hstep).
  pose proof (reset_step_fails now reset global retryAfter date) as Hfails.
  fold retryAfter reset global date remaining now in Hrun, Hrem, Hstep.
  fold reset_headers_fail in Hfails.
  assert (∃ err,
    match reset_step_of ParseTime now reset global retryAfter date with
    | ResetFails e => Some e
    | _ => remaining_error remaining
    end = Some err ∧
    match reset_step_of ParseTime now reset global retryAfter date with
    | ResetFails _ => Bucket.remaining B
    | _ => Bucket.remaining (remaining_after remaining B)
    end = Bucket.remaining B) as (err & Herr & Hsame).
  { destruct Hbad as [Hbad | (Hne & e & EP)].
    - apply Hfails in Hbad as [e ->]. eauto.
    - apply nonempty_true in Hne.
      unfold remaining_error, remaining_after. rewrite Hne, EP.
      destruct (reset_step_of _ _ _ _ _ _); eauto. }
  rewrite Herr in Hrun. rewrite Hsame in Hrem.
  exists err, σ', B', g'.
  split; [exact Hrun |]. split; [exact Hb' |]. split; [exact Hg' |].
  split; [exact Hmu |]. split; [exact Hrem |]. split; [exact Hlr |].
  clear Hrun Herr Hsame Hrem. split.
  { intros Hf. apply Hfails in Hf as [e Hf]. by rewrite Hf in Hstep. }
  clear Hfails Hbad. unfold reset_step_of in Hstep.
  destruct (nonempty retryAfter) eqn:ERA;
    [apply nonempty_true in ERA | apply nonempty_false in ERA].
  - split; [| split; intros; congruence].
    intros n _ EP. rewrite EP in Hstep. intros resetAt.
    fold resetAt in Hstep. split.
    + intros EG. apply nonempty_true in EG. by rewrite EG in Hstep.
    + intros EG. apply nonempty_false in EG. by rewrite EG in Hstep.
  - split; [intros; congruence |].
    destruct (nonempty reset) eqn:ER;
      [apply nonempty_true in ER | apply nonempty_false in ER].
    + split; [| intros; congruence].
      intros u d _ _ ED EU. rewrite ED, EU in Hstep. exact Hstep.
    + split; [intros; congruence |]. intros _ _. exact Hstep.
Qed.

(** C5 (amended). [Release] with headers on a bucket without a custom
    rule: when the remaining-count header is present and a valid 32-bit
    integer, and the reset headers parsed before it do not fail
    (Retry-After, if present, is a number; with Retry-After absent and
    the reset header present, the Date and the epoch parse), [Release]
    returns no error and the bucket's [remaining] is the parsed
    value. *)
Theorem Release_remaining_header σ b B g h n :
  bucket_heap σ !! b = Some B →
  Bucket.customRateLimit B = None →
  Bucket.mu B = true →
  Bucket.crlmut B = false →
  cells σ !! Bucket.global B = Some g →
  let retryAfter := http.Get h "Retry-After" in
  let reset := http.Get h "X-RateLimit-Reset" in
  let date := http.Get h "Date" in
  let remaining := http.Get h "X-RateLimit-Remaining" in
  remaining ≠ "" →
  strconv.ParseInt remaining 32 = inl n →
  (retryAfter ≠ "" → ∃ m, strconv.ParseInt retryAfter 64 = inl m) →
  (retryAfter = "" → reset ≠ "" →
     (∃ d, ParseTime date = Some d) ∧
     (∃ u, strconv.ParseInt reset 64 = inl u)) →
  ∃ σ' B',
    Release ParseTime b (Some h) σ = Returns None σ' ∧
    bucket_heap σ' !! b = Some B' ∧
    Bucket.remaining B' = n.
Proof.
  intros Hb Hc Hm Hl Hg retryAfter reset date remaining Hne EP HRA HR.
  destruct (Release_headers_effect σ b B g h Hb Hc Hm Hl Hg)
    as (σ' & B' & g' & Hrun & Hb' & _ & _ & _ & Hrem & _).
  pose proof (reset_step_fails (reading 1 σ) reset
                (http.Get h "X-RateLimit-Global") retryAfter date)
    as Hfails.
  fold retryAfter reset date remaining in Hrun, Hrem.
  assert (¬ ∃ e, reset_step_of ParseTime (reading 1 σ) reset
                   (http.Get h "X-RateLimit-Global") retryAfter date
                 = ResetFails e) as Hok.
  { intros Hf. apply Hfails in Hf
      as [(HneRA & e & E) | (HRA0 & HneR & [E | (e & E)])].
    - destruct (HRA HneRA) as [m E']. congruence.
    - destruct (HR HRA0 HneR) as [[d E'] _]. congruence.
    - destruct (HR HRA0 HneR) as [_ [u E']]. congruence. }
  apply nonempty_true in Hne.
  unfold remaining_error, remaining_after in Hrun, Hrem.
  rewrite Hne, EP in Hrun, Hrem.
  exists σ', B'. split; [| split; [exact Hb' |]].
  - rewrite Hrun. destruct (reset_step_of _ _ _ _ _ _); try done.
    exfalso. apply Hok. eauto.
  - rewrite Hrem. destruct (reset_step_of _ _ _ _ _ _); try done.
    exfalso. apply Hok. eauto.
Qed.

End ReleaseFacts.

(** ** [getBucket] *)

Lemma limiter_unlock_round_trip R :
  RateLimiter.mu R = false →
  RateLimiter.set_mu false (RateLimiter.set_mu true R) = R.
Proof. destruct R; simpl; intros ->; done. Qed.

Lemma set_limiters_id σ r R :
  limiters σ !! r = Some R →
  set_limiters (<[r := R]> (limiters σ)) σ = σ.
Proof. intros H. destruct σ; simpl in *. by rewrite insert_id. Qed.

Lemma set_limiters_twice σ v v' :
  set_limiters v (set_limiters v' σ) = set_limiters v σ.
Proof. done. Qed.

(** A key that is registered resolves to its bucket, and the store is
    left as it was. *)
Lemma getBucket_registered σ r R key b :
  limiters σ !! r = Some R →
  RateLimiter.mu R = false →
  RateLimiter.buckets R !! key = Some b →
  getBucket r key σ = Returns b σ.
Proof.
  intros Hr Hmu Hk.
  cut (wp (getBucket r key) σ (λ a σ', a = b ∧ σ' = σ)).
  { intros Hw. apply wp_returns in Hw as (a & σ' & E & -> & ->). exact E. }
  unfold getBucket. go. rewrite Hk. go. split; [done |].
  rewrite set_limiters_twice, insert_insert_eq.
  rewrite limiter_unlock_round_trip by done. by apply set_limiters_id.
Qed.

Lemma set_customRateLimit_None B :
  Bucket.customRateLimit B = None → Bucket.set_customRateLimit None B = B.
Proof. destruct B; simpl; intros ->; done. Qed.

(** The scan of the rules for a bucket that has none attached yet. *)
Lemma wp_attach_scan rls : ∀ i σ b B,
  bucket_heap σ !! b = Some B →
  Bucket.customRateLimit B = None →
  Forall (λ rl, is_Some (rules σ !! rl)) rls →
  wp (range_until i rls (λ _ rl,
        let* B := load_bucket b in
        let* RL := load_rule rl in
        if strings.HasSuffix (Bucket.Key B) (customRateLimit.suffix RL) then
          update_bucket b (Bucket.set_customRateLimit (Some rl)) ;;
          ret (Some tt)
        else ret None)) σ
     (λ _ σ',
        σ' = set_bucket_heap
               (<[b := Bucket.set_customRateLimit
                         (first_match (rules σ) (Bucket.Key B) rls) B]>
                  (bucket_heap σ)) σ).
Proof.
  induction rls as [|rl rest IH]; intros i σ b B Hb Hc Hall.
  - simpl. go. rewrite set_customRateLimit_None by done.
    by rewrite set_bucket_heap_id.
  - apply Forall_cons in Hall as [[RL HRL] Hrest].
    cbn [range_until first_match]. unfold rule_matches. rewrite HRL. go.
    destruct (strings.HasSuffix (Bucket.Key B) (customRateLimit.suffix RL)).
    + go. done.
    + apply IH; done.
Qed.

(** A key that is not registered yet gets a new bucket. *)
Lemma getBucket_unregistered σ r R key :
  limiters σ !! r = Some R →
  RateLimiter.mu R = false →
  RateLimiter.buckets R !! key = None →
  Forall (λ rl, is_Some (rules σ !! rl)) (RateLimiter.customRateLimits R) →
  let b := fresh (dom (bucket_heap σ)) in
  getBucket r key σ
  = Returns b
      (set_limiters
         (<[r := RateLimiter.set_buckets (<[key := b]> (RateLimiter.buckets R))
                   R]> (limiters σ))
         (set_bucket_heap
            (<[b := Bucket.mk false key 1 0 time.zero (RateLimiter.global R)
                      false time.zero
                      (first_match (rules σ) key
                                   (RateLimiter.customRateLimits R))]>
               (bucket_heap σ)) σ)).
Proof.
  intros Hr Hmu Hk Hall b.
  match goal with
  | |- _ = Returns _ ?s =>
      cut (wp (getBucket r key) σ (λ a σ', a = b ∧ σ' = s))
  end.
  { intros Hw. apply wp_returns in Hw as (a & σ' & E & -> & ->). exact E. }
  unfold getBucket. go. rewrite Hk. go.
  unfold new_bucket at 1. unfold wp at 1. store_simpl. fold b. go.
  eapply wp_mono.
  { eapply wp_attach_scan; [heap_lookup | done | store_simpl; done]. }
  intros _ σ' ->. go. split; [done |].
  unfold set_limiters, set_bucket_heap. simpl.
  rewrite !insert_insert_eq. destruct R; simpl in *. subst. done.
Qed.

(** ** Suffixes *)

Lemma string_length_app (p s : string) :
  String.length (String.append p s) = (String.length p + String.length s)%nat.
Proof. induction p as [|c p IH]; simpl; [done | by rewrite IH]. Qed.

Lemma drop_app (p s : string) :
  strings.drop (String.length p) (String.append p s) = s.
Proof. induction p as [|c p IH]; simpl; [by destruct s | exact IH]. Qed.

Lemma drop_is_suffix n : ∀ s, ∃ p, s = String.append p (strings.drop n s).
Proof.
  induction n as [|n IH]; intros s.
  - exists EmptyString. done.
  - destruct s as [|c s]; simpl.
    + exists EmptyString. done.
    + destruct (IH s) as [p Hp]. exists (String c p).
      change (String c s = String c (String.append p (strings.drop n s))).
      by f_equal.
Qed.

(** [strings.HasSuffix s suffix] holds exactly when [s] ends with
    [suffix]. *)
Lemma HasSuffix_spec s suffix :
  strings.HasSuffix s suffix = true ↔ ∃ p, s = String.append p suffix.
Proof.
  unfold strings.HasSuffix. rewrite andb_true_iff, Nat.leb_le, String.eqb_eq.
  split.
  - intros [_ Hd].
    destruct (drop_is_suffix (String.length s - String.length suffix) s)
      as [p Hp].
    exists p. by rewrite Hd in Hp.
  - intros [p ->]. rewrite string_length_app. split; [lia |].
    replace (String.length p + String.length suffix - String.length suffix)%nat
      with (String.length p) by lia.
    apply drop_app.
Qed.

Lemma rule_matches_spec rs key rl :
  rule_matches rs key rl = true
  ↔ ∃ RL, rs !! rl = Some RL ∧
          ∃ p, key = String.append p (customRateLimit.suffix RL).
Proof.
  unfold rule_matches. destruct (rs !! rl) as [RL|].
  - rewrite HasSuffix_spec. split; [eauto |]. by intros (? & [= <-] & ?).
  - split; [done | by intros (? & ? & _)].
Qed.

(** [first_match] finds the matching rule of least index. *)
Lemma first_match_Some rs key rls rl :
  first_match rs key rls = Some rl
  ↔ ∃ i, rls !! i = Some rl ∧ rule_matches rs key rl = true ∧
         ∀ j rl', (j < i)%nat → rls !! j = Some rl' →
                  rule_matches rs key rl' = false.
Proof.
  induction rls as [|x rest IH]; simpl.
  - split; [done | by intros (i & ? & _)].
  - destruct (rule_matches rs key x) eqn:Ex.
    + split.
      * intros [= <-]. exists 0%nat. split; [done |]. split; [done |].
        intros j rl' Hj. lia.
      * intros (i & Hi & Hm & Hmin). destruct i as [|i].
        -- by simplify_eq/=.
        -- specialize (Hmin 0%nat x ltac:(lia) eq_refl). congruence.
    + rewrite IH. split.
      * intros (i & Hi & Hm & Hmin). exists (S i). split; [done |].
        split; [done |]. intros [|j] rl' Hj Hl; simplify_eq/=; [done |].
        apply (Hmin j); [lia | done].
      * intros (i & Hi & Hm & Hmin). destruct i as [|i].
        -- simplify_eq/=. congruence.
        -- exists i. split; [done |]. split; [done |].
           intros j rl' Hj Hl. apply (Hmin (S j)); [lia | done].
Qed.

Lemma first_match_None rs key rls :
  first_match rs key rls = None
  ↔ ∀ rl, rl ∈ rls → rule_matches rs key rl = false.
Proof.
  induction rls as [|x rest IH]; simpl.
  - split; [| done]. intros _ rl Hin. by apply elem_of_nil in Hin.
  - destruct (rule_matches rs key x) eqn:Ex.
    + split; [done |]. intros H. specialize (H x ltac:(left)). congruence.
    + rewrite IH. split.
      * intros H rl Hin. apply elem_of_cons in Hin as [-> | Hin]; auto.
      * intros H rl Hin. apply H. by right.
Qed.

(** C9. [getBucket] returns (it is total on a limiter whose lock is free
    and whose rules are allocated).  A registered key resolves to its
    bucket and the store stays as it is.  A key that is not registered
    gets a bucket that did not exist before, with [remaining = 1], zero
    [reset] and [lastReset], the limiter's global cell, and the key is
    registered for it; the rule attached is the first one of the rule
    list whose suffix ends the key, and none when no rule's suffix does.
    In both cases looking the key up again returns the same bucket and
    changes nothing. *)
Theorem getBucket_one_instance_per_key σ r R key :
  limiters σ !! r = Some R →
  RateLimiter.mu R = false →
  Forall (λ rl, is_Some (rules σ !! rl)) (RateLimiter.customRateLimits R) →
  let ends_key (rl : loc) :=
    ∃ RL, rules σ !! rl = Some RL ∧
          ∃ p, key = String.append p (customRateLimit.suffix RL) in
  ∃ b σ1,
    getBucket r key σ = Returns b σ1 ∧
    getBucket r key σ1 = Returns b σ1 ∧
    (∀ b0, RateLimiter.buckets R !! key = Some b0 → b = b0 ∧ σ1 = σ) ∧
    (RateLimiter.buckets R !! key = None →
     bucket_heap σ !! b = None ∧
     ∃ B R1,
       bucket_heap σ1 !! b = Some B ∧
       limiters σ1 !! r = Some R1 ∧
       RateLimiter.buckets R1 = <[key := b]> (RateLimiter.buckets R) ∧
       RateLimiter.customRateLimits R1 = RateLimiter.customRateLimits R ∧
       RateLimiter.global R1 = RateLimiter.global R ∧
       RateLimiter.mu R1 = false ∧
       (∀ b', b' ≠ b → bucket_heap σ1 !! b' = bucket_heap σ !! b') ∧
       rules σ1 = rules σ ∧ cells σ1 = cells σ ∧
       clock σ1 = clock σ ∧ pending σ1 = pending σ ∧ slept σ1 = slept σ ∧
       Bucket.Key B = key ∧
       Bucket.remaining B = 1 ∧
       Bucket.reset B = time.zero ∧
       Bucket.lastReset B = time.zero ∧
       Bucket.global B = RateLimiter.global R ∧
       Bucket.mu B = false ∧ Bucket.crlmut B = false ∧
       (∀ rl, Bucket.customRateLimit B = Some rl
              ↔ ∃ i, RateLimiter.customRateLimits R !! i = Some rl ∧
                     ends_key rl ∧
                     ∀ j rl', (j < i)%nat →
                       RateLimiter.customRateLimits R !! j = Some rl' →
                       ¬ ends_key rl') ∧
       (Bucket.customRateLimit B = None
        ↔ ∀ rl, rl ∈ RateLimiter.customRateLimits R → ¬ ends_key rl)).
Proof.
  intros Hr Hmu Hall ends_key.
  assert (∀ rl, rule_matches (rules σ) key rl = true ↔ ends_key rl) as Hm.
  { intros rl. apply rule_matches_spec. }
  assert (∀ rl, rule_matches (rules σ) key rl = false ↔ ¬ ends_key rl) as Hn.
  { intros rl. rewrite <- Hm. by destruct (rule_matches _ _ _). }
  destruct (RateLimiter.buckets R !! key) as [b0|] eqn:Hk.
  - exists b0, σ. rewrite (getBucket_registered σ r R key b0) by done.
    split; [done |]. split; [done |]. split; [| done].
    by intros ? [= <-].
  - pose proof (getBucket_unregistered σ r R key Hr Hmu Hk Hall) as Hrun.
    cbv zeta in Hrun. set (b := fresh (dom (bucket_heap σ))) in *.
    eexists b, _. split; [exact Hrun |]. split.
    { eapply getBucket_registered.
      - store_simpl. apply lookup_insert_eq.
      - done.
      - store_simpl. apply lookup_insert_eq. }
    split; [done |]. intros _.
    assert (bucket_heap σ !! b = None) as Hfresh.
    { apply not_elem_of_dom. apply is_fresh. }
    split; [exact Hfresh |].
    eexists _, _. split; [store_simpl; apply lookup_insert_eq |].
    split; [store_simpl; apply lookup_insert_eq |]. store_simpl.
    repeat (split; [done |]).
    split. { intros b' Hne. by rewrite lookup_insert_ne. }
    repeat (split; [done |]). split.
    + intros rl. rewrite first_match_Some.
      split; intros (i & Hi & Hmatch & Hmin); exists i;
        (split; [done |]); (split; [by apply Hm |]);
        intros j rl' Hj Hl; apply Hn; eauto.
    + rewrite first_match_None. split; intros H rl Hin; apply Hn; auto.
Qed.

(** ** [LockBucket] *)

Lemma asleep_set_bucket_heap d v σ :
  asleep d (set_bucket_heap v σ) = set_bucket_heap v (asleep d σ).
Proof. unfold asleep. by destruct (0 <? d). Qed.

Lemma bucket_wait_set_bucket_heap B v σ :
  bucket_wait B (set_bucket_heap v σ) = set_bucket_heap v (bucket_wait B σ).
Proof.
  unfold bucket_wait. destruct (Bucket.remaining B <? 1); [| done].
  cbn [clock elapse set_bucket_heap pending].
  destruct (time.After _ _); [| done].
  apply (asleep_set_bucket_heap _ v (elapse (elapse σ))).
Qed.

Lemma global_wait_set_bucket_heap g v σ :
  global_wait g (set_bucket_heap v σ) = set_bucket_heap v (global_wait g σ).
Proof.
  unfold global_wait. cbn [clock elapse set_bucket_heap pending].
  destruct (time.Before _ _); [| done].
  apply (asleep_set_bucket_heap _ v (elapse σ)).
Qed.

Lemma bucket_wait_frame B σ :
  cells (bucket_wait B σ) = cells σ ∧ rules (bucket_wait B σ) = rules σ ∧
  bucket_heap (bucket_wait B σ) = bucket_heap σ ∧
  limiters (bucket_wait B σ) = limiters σ.
Proof.
  unfold bucket_wait. destruct (Bucket.remaining B <? 1); [| done].
  cbv zeta. destruct (time.After _ _); [| done].
  by autorewrite with store.
Qed.

Lemma global_wait_frame g σ :
  cells (global_wait g σ) = cells σ ∧ rules (global_wait g σ) = rules σ ∧
  bucket_heap (global_wait g σ) = bucket_heap σ ∧
  limiters (global_wait g σ) = limiters σ.
Proof.
  unfold global_wait. cbv zeta. destruct (time.Before _ _); [| done].
  by autorewrite with store.
Qed.

(** The global check and the decrement that end [LockBucket]. *)
Lemma wp_global_check σ r R g b B Q :
  limiters σ !! r = Some R →
  cells σ !! RateLimiter.global R = Some g →
  bucket_heap σ !! b = Some B →
  Q b (set_bucket_heap
         (<[b := Bucket.set_remaining (int.sub (Bucket.remaining B) 1) B]>
            (bucket_heap σ))
         (global_wait g σ)) →
  wp (let* R := load_limiter r in
      let* g := atomic.LoadInt64 (RateLimiter.global R) in
      let* now := Now in
      when (time.Before now (time.Unix 0 g))
           (Sleep (time.Sub (time.Unix 0 g) now)) ;;
      let* B := load_bucket b in
      update_bucket b
        (Bucket.set_remaining (int.sub (Bucket.remaining B) 1)) ;;
      ret b) σ Q.
Proof.
  intros Hr Hg Hb HQ. go.
  match goal with
  | |- wp (when ?c _) _ _ => destruct c eqn:EB
  end.
  - go. unfold global_wait in HQ. cbv zeta in HQ. store_simpl.
    rewrite EB in HQ. exact HQ.
  - go. unfold global_wait in HQ. cbv zeta in HQ. store_simpl.
    rewrite EB in HQ. exact HQ.
Qed.

(** The bucket's own check at the head of [LockBucket]. *)
Lemma wp_bucket_check {A} σ b B (rest : M A) Q :
  bucket_heap σ !! b = Some B →
  wp rest (bucket_wait B σ) Q →
  wp (let* B := load_bucket b in
      (if Bucket.remaining B <? 1 then
         let* now := Now in
         when (time.After (Bucket.reset B) now) (
           let* B := load_bucket b in
           let* now := Now in
           Sleep (time.Sub (Bucket.reset B) now))
       else ret tt) ;;
      rest) σ Q.
Proof.
  intros Hb HQ. unfold bucket_wait in HQ. go.
  destruct (Bucket.remaining B <? 1) eqn:Elow.
  - cbv zeta in HQ. go.
    match goal with
    | |- wp (when ?c _) _ _ => destruct c eqn:EA
    end.
    + go. exact HQ.
    + go. exact HQ.
  - go. exact HQ.
Qed.

(** [LockBucket] as one equation, from the store [σ1] that the lookup of
    the key leaves and the record [B] of the bucket [b] found there. *)
Lemma LockBucket_run σ r key b σ1 R1 B g :
  getBucket r key σ = Returns b σ1 →
  limiters σ1 !! r = Some R1 →
  cells σ1 !! RateLimiter.global R1 = Some g →
  bucket_heap σ1 !! b = Some B →
  Bucket.mu B = false →
  LockBucket r key σ
  = Returns b
      (set_bucket_heap
         (<[b := Bucket.set_remaining (int.sub (Bucket.remaining B) 1)
                   (Bucket.set_mu true B)]> (bucket_heap σ1))
         (global_wait g (bucket_wait B σ1))).
Proof.
  intros Hget Hr Hg Hb Hmu.
  match goal with
  | |- _ = Returns _ ?s =>
      cut (wp (LockBucket r key) σ (λ a σ', a = b ∧ σ' = s))
  end.
  { intros Hw. apply wp_returns in Hw as (a & σ' & E & -> & ->). exact E. }
  unfold LockBucket. apply wp_bind. unfold wp at 1. rewrite Hget.
  go_step. go_step.
  set (σ2 := set_bucket_heap (<[b:=Bucket.set_mu true B]> (bucket_heap σ1)) σ1).
  apply wp_bucket_check with (Bucket.set_mu true B);
    [apply lookup_insert_eq |].
  change (bucket_wait (Bucket.set_mu true B) σ2) with (bucket_wait B σ2).
  destruct (bucket_wait_frame B σ2) as (Hc & _ & Hh & Hl).
  apply wp_global_check with R1 g (Bucket.set_mu true B).
  - by rewrite Hl.
  - by rewrite Hc.
  - rewrite Hh. apply lookup_insert_eq.
  - split; [done |]. rewrite Hh. unfold σ2.
    rewrite bucket_wait_set_bucket_heap, global_wait_set_bucket_heap.
    store_simpl. rewrite set_bucket_heap_twice. by rewrite insert_insert_eq.
Qed.

(** *** What the two waits do to the clock and to the sleep log *)

Lemma clock_elapse σ : clock σ ≤ clock (elapse σ).
Proof. simpl. lia. Qed.

Lemma clock_asleep d σ : clock σ + Z.max 0 d ≤ clock (asleep d σ).
Proof. unfold asleep. destruct (0 <? d); simpl; lia. Qed.

Lemma bucket_wait_slept B σ :
  slept (bucket_wait B σ)
  = ((if (Bucket.remaining B <? 1)
         && time.After (Bucket.reset B) (reading 1 σ)
      then [time.Sub (Bucket.reset B) (reading 2 σ)] else [])
     ++ slept σ)%list.
Proof.
  unfold bucket_wait, reading. destruct (Bucket.remaining B <? 1); [| done].
  cbv [Nat.iter nat_rect]. cbv zeta. cbn [andb].
  destruct (time.After _ _); [| done].
  by rewrite slept_asleep.
Qed.

Lemma bucket_wait_clock B σ :
  clock σ ≤ clock (bucket_wait B σ) ∧
  (Bucket.remaining B < 1 →
   Bucket.reset B - clock σ ≤ time.maxDuration →
   Bucket.reset B ≤ clock (bucket_wait B σ)).
Proof.
  unfold bucket_wait, time.maxDuration.
  destruct (Z.ltb_spec (Bucket.remaining B) 1) as [Hlow|Hlow]; [| lia].
  cbv zeta. unfold time.After.
  pose proof (clock_elapse σ) as H1.
  pose proof (clock_elapse (elapse σ)) as H2.
  destruct (Z.ltb_spec (clock (elapse σ)) (Bucket.reset B)) as [Hahead|Hpast];
    [| lia].
  pose proof (clock_asleep (time.Sub (Bucket.reset B) (clock (elapse (elapse σ))))
                (elapse (elapse σ))) as H3.
  split; [lia |]. intros _ Hfit.
  assert (Bucket.reset B - clock (elapse (elapse σ)) ≤ int.MaxInt64) as Hle
    by lia.
  pose proof (clamp64_le _ Hle) as H4.
  unfold time.Sub in *. lia.
Qed.

Lemma global_wait_slept g σ :
  slept (global_wait g σ)
  = ((if time.Before (reading 1 σ) (time.Unix 0 g)
      then [time.Sub (time.Unix 0 g) (reading 1 σ)] else [])
     ++ slept σ)%list.
Proof.
  unfold global_wait, reading. cbv [Nat.iter nat_rect]. cbv zeta.
  destruct (time.Before _ _); [| done]. by rewrite slept_asleep.
Qed.

Lemma global_wait_clock g σ :
  reading 1 σ ≤ clock (global_wait g σ) ∧
  (time.Unix 0 g - clock σ ≤ time.maxDuration →
   time.Unix 0 g ≤ clock (global_wait g σ)).
Proof.
  unfold global_wait, reading, time.maxDuration.
  cbv [Nat.iter nat_rect]. cbv zeta. unfold time.Before.
  pose proof (clock_elapse σ) as H1.
  destruct (Z.ltb_spec (clock (elapse σ)) (time.Unix 0 g)) as [Hahead|Hpast];
    [| lia].
  pose proof (clock_asleep (time.Sub (time.Unix 0 g) (clock (elapse σ)))
                (elapse σ)) as H3.
  split; [lia |]. intros Hfit.
  assert (time.Unix 0 g - clock (elapse σ) ≤ int.MaxInt64) as Hle by lia.
  pose proof (clamp64_le _ Hle) as H4.
  unfold time.Sub in *. lia.
Qed.

(** The lookup of a key, in a limiter whose lock is free: the bucket it
    resolves to, provided the slot of a registered bucket is allocated. *)
Lemma getBucket_resolves σ r R key :
  limiters σ !! r = Some R →
  RateLimiter.mu R = false →
  Forall (λ rl, is_Some (rules σ !! rl)) (RateLimiter.customRateLimits R) →
  (∀ b, RateLimiter.buckets R !! key = Some b → is_Some (bucket_heap σ !! b)) →
  ∃ b σ1 B R1,
    getBucket r key σ = Returns b σ1 ∧
    bucket_heap σ1 !! b = Some B ∧
    limiters σ1 !! r = Some R1 ∧
    RateLimiter.global R1 = RateLimiter.global R ∧
    cells σ1 = cells σ ∧ clock σ1 = clock σ ∧ pending σ1 = pending σ ∧
    slept σ1 = slept σ ∧
    (∀ b0, RateLimiter.buckets R !! key = Some b0 →
           b = b0 ∧ σ1 = σ) ∧
    (RateLimiter.buckets R !! key = None →
       Bucket.mu B = false ∧ Bucket.remaining B = 1 ∧
       Bucket.reset B = time.zero).
Proof.
  intros Hr Hmu Hall Halloc.
  destruct (RateLimiter.buckets R !! key) as [b0|] eqn:Hk.
  - destruct (Halloc b0 eq_refl) as [B HB].
    exists b0, σ, B, R. rewrite (getBucket_registered σ r R key b0) by done.
    repeat (split; [done |]). split; [| done]. by intros ? [= <-].
  - pose proof (getBucket_unregistered σ r R key Hr Hmu Hk Hall) as Hrun.
    cbv zeta in Hrun. eexists _, _, _, _. split; [exact Hrun |].
    split; [store_simpl; apply lookup_insert_eq |].
    split; [store_simpl; apply lookup_insert_eq |]. done.
Qed.

(** C1. [LockBucket] returns the bucket [b] the key resolves to.  With
    [B] the bucket as the lookup finds it:
    - if [remaining < 1] and [reset] is after the first clock reading,
      [time.Sleep(reset.Sub(now))] is called (with the second reading),
      and not otherwise;
    - then, at a reading [now] of the clock, [time.Sleep(sleepTo.Sub(now))]
      is called if [now] is before the instant [sleepTo] in the shared
      cell, and not otherwise;
    - the bucket comes back with [remaining - 1] (in [int] arithmetic)
      and the slot held, nothing else in it changed.
    Consequently, unless the wait is longer than a Duration can hold,
    the clock has passed [reset] at [now] when [remaining < 1], and has
    passed [sleepTo] on return.
    The bucket is the one registered under the key, found as it is in
    the store, or a new one with [remaining = 1] and the zero [reset].
    [sleepTo] is the instant [g] nanoseconds after the epoch, for a cell
    holding the [int64] [g]; where the differences fit a Duration the
    two sleeps last [reset - now'] and [g - now], [now'] being the second
    clock reading of the first [if]. *)
Theorem LockBucket_waits_then_decrements σ r R key g :
  limiters σ !! r = Some R →
  RateLimiter.mu R = false →
  cells σ !! RateLimiter.global R = Some g →
  Forall (λ rl, is_Some (rules σ !! rl)) (RateLimiter.customRateLimits R) →
  (∀ b, RateLimiter.buckets R !! key = Some b →
        ∃ B, bucket_heap σ !! b = Some B ∧ Bucket.mu B = false) →
  ∃ b σ1 B σ' B' now,
    getBucket r key σ = Returns b σ1 ∧
    bucket_heap σ1 !! b = Some B ∧
    LockBucket r key σ = Returns b σ' ∧
    bucket_heap σ' !! b = Some B' ∧
    let sleepTo := time.Unix 0 g in
    let own :=
      if (Bucket.remaining B <? 1)
         && time.After (Bucket.reset B) (reading 1 σ1)
      then [time.Sub (Bucket.reset B) (reading 2 σ1)] else [] in
    let shared :=
      if time.Before now sleepTo then [time.Sub sleepTo now] else [] in
    slept σ' = (shared ++ own ++ slept σ)%list ∧
    clock σ ≤ now ∧ now ≤ clock σ' ∧
    (Bucket.remaining B < 1 →
     Bucket.reset B - clock σ ≤ time.maxDuration →
     Bucket.reset B ≤ now) ∧
    (sleepTo - clock σ ≤ time.maxDuration → sleepTo ≤ clock σ') ∧
    B' = Bucket.set_remaining (int.sub (Bucket.remaining B) 1)
           (Bucket.set_mu true B) ∧
    (int.fits64 (Bucket.remaining B - 1) →
     Bucket.remaining B' = Bucket.remaining B - 1) ∧
    (∀ b0, RateLimiter.buckets R !! key = Some b0 → b = b0 ∧ σ1 = σ) ∧
    (RateLimiter.buckets R !! key = None →
     Bucket.remaining B = 1 ∧ Bucket.reset B = time.zero) ∧
    now = reading 1 (bucket_wait B σ1) ∧
    (int.fits64 (Bucket.reset B - reading 2 σ1) →
     own = if (Bucket.remaining B <? 1) && (reading 1 σ1 <? Bucket.reset B)
           then [Bucket.reset B - reading 2 σ1] else []) ∧
    (int.fits64 g → sleepTo = g) ∧
    (int.fits64 g → g - now ≤ time.maxDuration →
     shared = if now <? g then [g - now] else []) ∧
    (int.fits64 g → g - clock σ ≤ time.maxDuration → g ≤ clock σ').
Proof.
  intros Hr Hmu Hg Hall Hslot.
  destruct (getBucket_resolves σ r R key Hr Hmu Hall)
    as (b & σ1 & B & R1 & Hget & Hb & Hr1 & Hg1 & Hc1 & Hclk & Hpend & Hsl
        & Hreg & Hnew).
  { intros b0 Hk. destruct (Hslot b0 Hk) as (B0 & -> & _). eauto. }
  assert (Bucket.mu B = false) as HmuB.
  { destruct (RateLimiter.buckets R !! key) as [b0|] eqn:Hk.
    - destruct (Hreg b0 eq_refl) as [-> ->].
      destruct (Hslot b0 eq_refl) as (B0 & HB0 & HmuB0). congruence.
    - by apply Hnew. }
  assert (cells σ1 !! RateLimiter.global R1 = Some g) as Hg'
    by (by rewrite Hg1, Hc1).
  pose proof (LockBucket_run σ r key b σ1 R1 B g Hget Hr1 Hg' Hb HmuB) as Hrun.
  eexists b, σ1, B, _, _, (reading 1 (bucket_wait B σ1)).
  split; [exact Hget |]. split; [exact Hb |]. split; [exact Hrun |].
  split; [store_simpl; apply lookup_insert_eq |].
  cbv zeta. store_simpl.
  pose proof (bucket_wait_clock B σ1) as [Hw1 Hw2].
  pose proof (global_wait_clock g (bucket_wait B σ1)) as [Hw3 Hw4].
  pose proof (clock_elapse (bucket_wait B σ1)) as Hw5.
  change (clock (elapse (bucket_wait B σ1)))
    with (reading 1 (bucket_wait B σ1)) in Hw5.
  rewrite Hclk in *.
  split. { by rewrite global_wait_slept, bucket_wait_slept, Hsl. }
  split; [lia |]. split; [lia |]. split; [intros; lia |].
  split; [intros; apply Hw4; lia |]. split; [done |].
  split; [intros Hfit; by apply wrap64_fits |].
  split; [exact Hreg |].
  split; [intros Hk; by destruct (Hnew Hk) as (_ & ? & ?) |].
  split; [done |].
  split.
  { intros Hfit. unfold time.After, time.Sub.
    by rewrite (clamp64_fits _ Hfit). }
  split; [apply Unix_nano |].
  split.
  { intros Hfit Hnear. rewrite (Unix_nano g Hfit). unfold time.Before.
    destruct (Z.ltb_spec (reading 1 (bucket_wait B σ1)) g); [| done].
    unfold time.Sub. rewrite clamp64_fits; [done |].
    unfold int.fits64, time.maxDuration, int.MinInt64, int.MaxInt64 in *.
    lia. }
  intros Hfit Hnear. rewrite (Unix_nano g Hfit) in Hw4. apply Hw4. lia.
Qed.

(** C10. In a limiter whose global throttle is not ahead of the clock,
    the bucket made for a key that was not registered starts with
    [remaining = 1] and the zero [reset]; the [LockBucket] that makes it
    calls [time.Sleep] not once and leaves [remaining = 0]; the key then
    resolves to this same bucket, found with [remaining = 0]; and when
    the slot has been given back by [Release(nil)] (no custom rule
    attached), the next [LockBucket] on the key returns the bucket
    without a sleep and leaves [remaining = -1]. *)
Theorem new_bucket_first_calls σ r R key g :
  limiters σ !! r = Some R →
  RateLimiter.mu R = false →
  cells σ !! RateLimiter.global R = Some g →
  Forall (λ rl, is_Some (rules σ !! rl)) (RateLimiter.customRateLimits R) →
  RateLimiter.buckets R !! key = None →
  time.Unix 0 g ≤ clock σ →
  time.zero ≤ clock σ →
  ∃ b σ1 B1 σ2 B2,
    getBucket r key σ = Returns b σ1 ∧
    bucket_heap σ1 !! b = Some B1 ∧
    Bucket.remaining B1 = 1 ∧
    Bucket.reset B1 = time.zero ∧
    LockBucket r key σ = Returns b σ2 ∧
    slept σ2 = slept σ ∧
    bucket_heap σ2 !! b = Some B2 ∧
    Bucket.remaining B2 = 0 ∧
    Bucket.reset B2 = time.zero ∧
    Bucket.mu B2 = true ∧
    getBucket r key σ2 = Returns b σ2 ∧
    (Bucket.customRateLimit B2 = None →
     ∀ ParseTime,
       Release ParseTime b None σ2 = Returns None (slot_freed b B2 σ2) ∧
       ∃ σ4 B4,
         LockBucket r key (slot_freed b B2 σ2) = Returns b σ4 ∧
         bucket_heap σ4 !! b = Some B4 ∧
         Bucket.remaining B4 = -1 ∧
         slept σ4 = slept σ).
Proof.
  intros Hr Hmu Hg Hall Hk Hnow Hzero.
  pose proof (getBucket_unregistered σ r R key Hr Hmu Hk Hall) as Hget.
  cbv zeta in Hget. set (b := fresh (dom (bucket_heap σ))) in *.
  set (B1 := Bucket.mk false key 1 0 time.zero (RateLimiter.global R) false
               time.zero
               (first_match (rules σ) key (RateLimiter.customRateLimits R)))
    in *.
  set (R1 := RateLimiter.set_buckets (<[key:=b]> (RateLimiter.buckets R)) R)
    in *.
  set (σ1 := set_limiters (<[r:=R1]> (limiters σ))
               (set_bucket_heap (<[b:=B1]> (bucket_heap σ)) σ)) in *.
  assert (bucket_heap σ1 !! b = Some B1) as Hb1 by apply lookup_insert_eq.
  assert (limiters σ1 !! r = Some R1) as Hr1 by apply lookup_insert_eq.
  pose proof (LockBucket_run σ r key b σ1 R1 B1 g Hget Hr1 Hg Hb1 eq_refl)
    as Hrun.
  set (B2 := Bucket.set_remaining (int.sub (Bucket.remaining B1) 1)
               (Bucket.set_mu true B1)) in *.
  assert (bucket_wait B1 σ1 = σ1) as Hbw by done.
  assert (∀ s, time.Unix 0 g ≤ clock s → global_wait g s = elapse s) as Hgw.
  { intros s Hs. unfold global_wait, time.Before. cbv zeta.
    pose proof (clock_elapse s).
    destruct (Z.ltb_spec (clock (elapse s)) (time.Unix 0 g)); [lia | done]. }
  rewrite Hbw, Hgw in Hrun by done.
  set (σ2 := set_bucket_heap (<[b:=B2]> (bucket_heap σ1)) (elapse σ1)) in *.
  assert (bucket_heap σ2 !! b = Some B2) as Hb2 by apply lookup_insert_eq.
  assert (getBucket r key σ2 = Returns b σ2) as Hget2.
  { apply getBucket_registered with R1; [exact Hr1 | done |].
    apply lookup_insert_eq. }
  exists b, σ1, B1, σ2, B2.
  repeat (split; [done |]). intros Hnone ParseTime.
  split. { by apply Release_nil_run. }
  set (σ3 := slot_freed b B2 σ2).
  assert (bucket_heap σ3 !! b = Some (Bucket.set_mu false B2)) as Hb3
    by apply lookup_insert_eq.
  assert (getBucket r key σ3 = Returns b σ3) as Hget3.
  { apply getBucket_registered with R1; [exact Hr1 | done |].
    apply lookup_insert_eq. }
  pose proof (LockBucket_run σ3 r key b σ3 R1 (Bucket.set_mu false B2) g
                Hget3 Hr1 Hg Hb3 eq_refl) as Hrun3.
  assert (bucket_wait (Bucket.set_mu false B2) σ3 = elapse σ3) as Hbw3.
  { unfold bucket_wait, time.After. cbn -[time.zero].
    destruct (Z.ltb_spec (clock σ + Z.of_N (hd 0%N (pending σ))
                          + Z.of_N (hd 0%N (tl (pending σ)))) time.zero);
      [lia | done]. }
  rewrite Hbw3, Hgw in Hrun3 by (simpl; lia).
  eexists _, _. split; [exact Hrun3 |].
  split; [store_simpl; apply lookup_insert_eq |]. done.
Qed.

(** ** The configuration methods *)

Lemma find_from_Some {A} (p : A → bool) l : ∀ i k x,
  find_from p i l = Some (k, x)
  ↔ ∃ j, k = (i + j)%nat ∧ l !! j = Some x ∧ p x = true ∧
         ∀ j' y, (j' < j)%nat → l !! j' = Some y → p y = false.
Proof.
  induction l as [|a l IH]; intros i k x; simpl.
  - split; [done | by intros (j & _ & ? & _)].
  - destruct (p a) eqn:Ea.
    + split.
      * intros [= <- <-]. exists 0%nat. split; [lia |]. split; [done |].
        split; [done |]. intros j' y Hj. lia.
      * intros (j & -> & Hj & Hp & Hmin). destruct j as [|j].
        -- simplify_eq/=. f_equal. f_equal. lia.
        -- specialize (Hmin 0%nat a ltac:(lia) eq_refl). congruence.
    + rewrite IH. split.
      * intros (j & -> & Hj & Hp & Hmin). exists (S j). split; [lia |].
        split; [done |]. split; [done |].
        intros [|j'] y Hlt Hl; simplify_eq/=; [done |].
        apply (Hmin j'); [lia | done].
      * intros (j & -> & Hj & Hp & Hmin). destruct j as [|j].
        -- simplify_eq/=. congruence.
        -- exists j. split; [lia |]. split; [done |]. split; [done |].
           intros j' y Hlt Hl. apply (Hmin (S j')); [lia | done].
Qed.

Lemma find_from_None {A} (p : A → bool) l : ∀ i,
  find_from p i l = None ↔ ∀ x, x ∈ l → p x = false.
Proof.
  induction l as [|a l IH]; intros i; simpl.
  - split; [| done]. intros _ x Hin. by apply elem_of_nil in Hin.
  - destruct (p a) eqn:Ea.
    + split; [done |]. intros H. specialize (H a ltac:(left)). congruence.
    + rewrite IH. split.
      * intros H x Hin. apply elem_of_cons in Hin as [-> | Hin]; auto.
      * intros H x Hin. apply H. by right.
Qed.

Lemma has_suffix_spec rs s rl :
  has_suffix rs s rl = true
  ↔ ∃ RL, rs !! rl = Some RL ∧ customRateLimit.suffix RL = s.
Proof.
  unfold has_suffix. destruct (rs !! rl) as [RL|].
  - rewrite String.eqb_eq. split; [eauto |]. by intros (? & [= <-] & ?).
  - split; [done | by intros (? & ? & _)].
Qed.

(** A loop over buckets whose body rewrites the bucket it visits by [f]
    and touches nothing else. *)
Lemma wp_range_buckets rs (body : string * loc → M unit)
    (f : Bucket.t → Bucket.t) (P : Bucket.t → Prop) :
  (∀ B, P B → P (f B)) →
  (∀ B, P B → f (f B) = f B) →
  (∀ σ kv B, rules σ = rs → bucket_heap σ !! kv.2 = Some B → P B →
     wp (body kv) σ
        (λ _ σ', σ' = set_bucket_heap (<[kv.2 := f B]> (bucket_heap σ)) σ)) →
  ∀ l σ,
    rules σ = rs →
    Forall (λ kv, ∃ B, bucket_heap σ !! kv.2 = Some B ∧ P B) l →
    wp (range l body) σ
       (λ _ σ',
          σ' = set_bucket_heap (bucket_heap σ') σ ∧
          ∀ b, bucket_heap σ' !! b
               = if decide (b ∈ l.*2) then f <$> bucket_heap σ !! b
                 else bucket_heap σ !! b).
Proof.
  intros HP Hidem Hbody.
  induction l as [|kv l IH]; intros σ Hrs Hall.
  - cbn [range]. go. split; [by destruct σ |]. intros b.
    rewrite decide_False; [done |]. rewrite fmap_nil. apply not_elem_of_nil.
  - apply Forall_cons in Hall as [(B & HB & HPB) Hall].
    cbn [range]. apply wp_bind.
    eapply wp_mono; [apply (Hbody σ kv B Hrs HB HPB) |].
    intros _ σ1 ->.
    eapply wp_mono.
    { apply IH; [done |]. store_simpl.
      eapply Forall_impl; [exact Hall |].
      intros kv' (B' & HB' & HPB'). simpl.
      destruct (decide (kv.2 = kv'.2)) as [E|E].
      - rewrite E, lookup_insert_eq. rewrite E in HB. simplify_eq. eauto.
      - rewrite lookup_insert_ne by done. eauto. }
    intros _ σ' [Hσ' Hlook]. store_simpl. split.
    { rewrite Hσ' at 1. done. }
    intros b. rewrite Hlook. rewrite fmap_cons.
    destruct (decide (b = kv.2)) as [->|Hne].
    + rewrite lookup_insert_eq, HB. simpl.
      rewrite (decide_True (P := kv.2 ∈ kv.2 :: l.*2)) by left.
      destruct (decide (kv.2 ∈ l.*2)); [by rewrite Hidem | done].
    + rewrite lookup_insert_ne by done.
      destruct (decide (b ∈ l.*2)) as [Hin|Hin].
      * by rewrite decide_True by (by right).
      * rewrite decide_False; [done |].
        intros Hin'. apply elem_of_cons in Hin' as [?|?]; done.
Qed.

(** The buckets a registry can reach are the values of its map. *)
Lemma elem_of_registry (m : gmap string loc) b :
  b ∈ (map_to_list m).*2 ↔ ∃ key, m !! key = Some b.
Proof.
  rewrite list_elem_of_fmap. split.
  - intros ([key b'] & -> & Hin). exists key. by apply elem_of_map_to_list.
  - intros [key Hk]. exists (key, b). split; [done |].
    by apply elem_of_map_to_list.
Qed.

(** The scan of [SetCustomRateLimit] for a rule with the suffix. *)
Lemma wp_update_scan s n d rls : ∀ i σ,
  Forall (λ rl, is_Some (rules σ !! rl)) rls →
  wp (range_until i rls (λ _ v,
        let* V := load_rule v in
        if String.eqb (customRateLimit.suffix V) s then
          update_rule v (customRateLimit.set_requests n) ;;
          update_rule v (customRateLimit.set_reset d) ;;
          ret (Some v)
        else ret None)) σ
     (λ res σ',
        res = snd <$> find_from (has_suffix (rules σ) s) i rls ∧
        σ' = match res with
             | Some v =>
                 set_rules (<[v := customRateLimit.mk s n d]> (rules σ)) σ
             | None => σ
             end).
Proof.
  induction rls as [|v rest IH]; intros i σ Hall.
  - cbn [range_until find_from]. go. done.
  - apply Forall_cons in Hall as [[RL HRL] Hrest].
    cbn [range_until find_from]. unfold has_suffix at 1. rewrite HRL. go.
    destruct (String.eqb_spec (customRateLimit.suffix RL) s) as [E|E].
    + go. split; [done |]. cbn [fmap option_fmap option_map snd].
      unfold set_rules. simpl. rewrite insert_insert_eq.
      destruct RL; simpl in *; by subst.
    + apply IH. exact Hrest.
Qed.

(** The scan of [RemoveCustomRateLimit] for a rule with the suffix. *)
Lemma wp_remove_scan r R s rls : ∀ i σ,
  limiters σ !! r = Some R →
  Forall (λ rl, is_Some (rules σ !! rl)) rls →
  wp (range_until i rls (λ i v,
        let* V := load_rule v in
        if String.eqb (customRateLimit.suffix V) s then
          update_limiter r (λ R,
            RateLimiter.set_customRateLimits
              (take i (RateLimiter.customRateLimits R)
               ++ drop (S i) (RateLimiter.customRateLimits R)) R) ;;
          ret (Some tt)
        else ret None)) σ
     (λ res σ',
        match find_from (has_suffix (rules σ) s) i rls with
        | Some (k, _) =>
            res = Some tt ∧
            σ' = set_limiters
                   (<[r := RateLimiter.set_customRateLimits
                             (take k (RateLimiter.customRateLimits R)
                              ++ drop (S k) (RateLimiter.customRateLimits R))
                             R]> (limiters σ)) σ
        | None => res = None ∧ σ' = σ
        end).
Proof.
  induction rls as [|v rest IH]; intros i σ Hr Hall.
  - cbn [range_until find_from]. go. done.
  - apply Forall_cons in Hall as [[RL HRL] Hrest].
    cbn [range_until find_from]. unfold has_suffix at 1. rewrite HRL. go.
    destruct (String.eqb_spec (customRateLimit.suffix RL) s) as [E|E].
    + go. done.
    + apply IH; done.
Qed.

Lemma attach_frame rl s B :
  Bucket.crlmut (attach rl s B) = Bucket.crlmut B ∧
  attach rl s (attach rl s B) = attach rl s B.
Proof.
  unfold attach. destruct (strings.HasSuffix (Bucket.Key B) s) eqn:E; [| by rewrite E].
  cbn [Bucket.Key Bucket.set_customRateLimit Bucket.crlmut]. by rewrite E.
Qed.

Lemma detach_frame rs s B :
  Bucket.crlmut (detach rs s B) = Bucket.crlmut B ∧
  (∀ rl, Bucket.customRateLimit (detach rs s B) = Some rl →
         Bucket.customRateLimit B = Some rl) ∧
  detach rs s (detach rs s B) = detach rs s B.
Proof.
  unfold detach. destruct (Bucket.customRateLimit B) as [rl|] eqn:E.
  - destruct (has_suffix rs s rl) eqn:Es.
    + done.
    + rewrite E, Es. done.
  - by rewrite E.
Qed.

Lemma set_crlmut_attach rl B :
  Bucket.crlmut B = false →
  Bucket.set_crlmut false
    (Bucket.set_customRateLimit (Some rl) (Bucket.set_crlmut true B))
  = Bucket.set_customRateLimit (Some rl) B.
Proof. destruct B; simpl; intros ->; done. Qed.

Lemma set_crlmut_detach B :
  Bucket.crlmut B = false →
  Bucket.set_crlmut false
    (Bucket.set_customRateLimit None (Bucket.set_crlmut true B))
  = Bucket.set_customRateLimit None B.
Proof. destruct B; simpl; intros ->; done. Qed.

(** [SetCustomRateLimit] as one run: the rule [rl] that ends up holding
    the settings is the first of the list with the suffix, or a new one
    put at the end of the list. *)
Lemma SetCustomRateLimit_run σ r R s n d :
  limiters σ !! r = Some R →
  RateLimiter.mu R = false →
  Forall (λ rl, is_Some (rules σ !! rl)) (RateLimiter.customRateLimits R) →
  (∀ key b, RateLimiter.buckets R !! key = Some b →
     ∃ B, bucket_heap σ !! b = Some B ∧ Bucket.crlmut B = false) →
  let found :=
    find_from (has_suffix (rules σ) s) 0 (RateLimiter.customRateLimits R) in
  let rl := match found with
            | Some (_, v) => v
            | None => fresh (dom (rules σ))
            end in
  let L' := match found with
            | Some _ => RateLimiter.customRateLimits R
            | None => (RateLimiter.customRateLimits R ++ [rl])%list
            end in
  ∃ σ',
    SetCustomRateLimit r s n d σ = Returns tt σ' ∧
    σ' = set_bucket_heap (bucket_heap σ')
           (set_limiters
              (<[r := RateLimiter.set_customRateLimits L' R]> (limiters σ))
              (set_rules (<[rl := customRateLimit.mk s n d]> (rules σ)) σ)) ∧
    ∀ b, bucket_heap σ' !! b
         = if decide (b ∈ (map_to_list (RateLimiter.buckets R)).*2)
           then attach rl s <$> bucket_heap σ !! b
           else bucket_heap σ !! b.
Proof.
  intros Hr Hmu Hall Hbk found rl L'.
  match goal with
  | |- ∃ σ', _ = Returns tt σ' ∧ @?Q σ' =>
      cut (wp (SetCustomRateLimit r s n d) σ (λ _ σ', Q σ'))
  end.
  { intros Hw. apply wp_returns in Hw as ([] & σ' & E & HQ). eauto. }
  cbv beta.
  (* the loop over the buckets, for any store it starts from *)
  assert (∀ σ1 R1,
    rules σ1 = <[rl := customRateLimit.mk s n d]> (rules σ) →
    bucket_heap σ1 = bucket_heap σ →
    limiters σ1 !! r = Some R1 → RateLimiter.mu R1 = true →
    wp (range (map_to_list (RateLimiter.buckets R)) (λ kv,
          let v := kv.2 in
          let* V := load_bucket v in
          let* RL := load_rule rl in
          when (strings.HasSuffix (Bucket.Key V) (customRateLimit.suffix RL)) (
            crlmut_Lock v ;;
            update_bucket v (Bucket.set_customRateLimit (Some rl)) ;;
            crlmut_Unlock v))) σ1
       (λ _ σ2,
          wp (RateLimiter_Unlock r) σ2
             (λ _ σ',
                σ' = set_bucket_heap (bucket_heap σ')
                       (set_limiters
                          (<[r := RateLimiter.set_mu false R1]> (limiters σ1))
                          σ1) ∧
                ∀ b, bucket_heap σ' !! b
                     = if decide (b ∈ (map_to_list (RateLimiter.buckets R)).*2)
                       then attach rl s <$> bucket_heap σ !! b
                       else bucket_heap σ !! b))) as Hloop.
  { intros σ1 R1 Hrs Hheap Hr1 Hmu1.
    eapply wp_mono.
    { apply (wp_range_buckets (rules σ1) _ (attach rl s)
               (λ B, Bucket.crlmut B = false)).
      - intros B HB. by rewrite (proj1 (attach_frame rl s B)).
      - intros B _. apply attach_frame.
      - intros σ2 kv B Hrs2 HB Hcrl. cbv zeta. go.
        eapply wp_load_rule;
          [rewrite Hrs2, Hrs; apply lookup_insert_eq |].
        store_simpl. unfold attach.
        destruct (strings.HasSuffix (Bucket.Key B) s).
        + go. rewrite set_bucket_heap_twice, !insert_insert_eq.
          by rewrite set_crlmut_attach.
        + go. by rewrite set_bucket_heap_id.
      - done.
      - rewrite Hheap. apply Forall_forall. intros [key b] Hin.
        apply elem_of_map_to_list in Hin. simpl. eauto. }
    intros _ σ2 [Hσ2 Hlook].
    assert (limiters σ2 !! r = Some R1) as Hr2 by (by rewrite Hσ2).
    go. split.
    - clear -Hσ2. destruct σ1, σ2. unfold set_bucket_heap, set_limiters in *.
      simpl in *. congruence.
    - intros b. rewrite Hlook, Hheap. done. }
  unfold SetCustomRateLimit. go.
  eapply wp_mono.
  { apply wp_update_scan. store_simpl. exact Hall. }
  intros res σ1 [-> ->]. store_simpl. fold found.
  assert (RateLimiter.set_mu false (RateLimiter.set_mu true R) = R) as Hunlock
    by (by apply limiter_unlock_round_trip).
  destruct found as [[k v]|] eqn:Efound;
    cbn [fmap option_fmap option_map snd].
  - go. eapply wp_mono.
    { apply (Hloop _ (RateLimiter.set_mu true R)); try done.
      store_simpl. apply lookup_insert_eq. }
    intros x σ2 Hu. eapply wp_mono; [exact Hu |].
    intros y σ' [Hσ' Hlook]. split; [| exact Hlook].
    rewrite Hσ' at 1. unfold set_bucket_heap, set_limiters, set_rules. simpl.
    rewrite insert_insert_eq, Hunlock. subst L'.
    destruct R; done.
  - go. unfold new_rule at 1. unfold wp at 1. store_simpl. fold rl. go.
    eapply wp_mono.
    { apply (Hloop _ (RateLimiter.set_customRateLimits
                        (RateLimiter.customRateLimits R ++ [rl])
                        (RateLimiter.set_mu true R))); try done.
      store_simpl. apply lookup_insert_eq. }
    intros x σ2 Hu. eapply wp_mono; [exact Hu |].
    intros y σ' [Hσ' Hlook]. split; [| exact Hlook].
    rewrite Hσ' at 1. unfold set_bucket_heap, set_limiters, set_rules. simpl.
    rewrite !insert_insert_eq. subst L'. destruct R; simpl in *; subst; done.
Qed.

(** C8. [SetCustomRateLimit(suffix, requests, reset)] returns; [rl] is
    the rule that holds the settings afterwards.  If the rule list has a
    rule with that suffix, [rl] is the first such rule, the same object
    as before with its fields overwritten (any bucket that points to it
    reads the new values through its pointer), and the list is unchanged;
    if it has none, [rl] is a new object, put at the end of the list.
    Every registered bucket whose [Key] ends with the suffix is attached
    to [rl], whatever it was attached to before; the other buckets and
    all other fields are unchanged. *)
Theorem SetCustomRateLimit_upserts_and_attaches σ r R s n d :
  limiters σ !! r = Some R →
  RateLimiter.mu R = false →
  Forall (λ rl, is_Some (rules σ !! rl)) (RateLimiter.customRateLimits R) →
  (∀ key b, RateLimiter.buckets R !! key = Some b →
     ∃ B, bucket_heap σ !! b = Some B ∧ Bucket.crlmut B = false) →
  let L := RateLimiter.customRateLimits R in
  let named (v : loc) :=
    ∃ RL, rules σ !! v = Some RL ∧ customRateLimit.suffix RL = s in
  ∃ rl σ' R',
    SetCustomRateLimit r s n d σ = Returns tt σ' ∧
    limiters σ' !! r = Some R' ∧
    rules σ' = <[rl := customRateLimit.mk s n d]> (rules σ) ∧
    rules σ' !! rl = Some (customRateLimit.mk s n d) ∧
    (∀ i v, L !! i = Some v → named v →
            (∀ j v', (j < i)%nat → L !! j = Some v' → ¬ named v') →
            rl = v ∧ RateLimiter.customRateLimits R' = L) ∧
    ((∀ v, v ∈ L → ¬ named v) →
     rules σ !! rl = None ∧
     RateLimiter.customRateLimits R' = (L ++ [rl])%list) ∧
    (∀ key b B,
       RateLimiter.buckets R !! key = Some b →
       bucket_heap σ !! b = Some B →
       ∃ B', bucket_heap σ' !! b = Some B' ∧
             ((∃ p, Bucket.Key B = String.append p s) →
              B' = Bucket.set_customRateLimit (Some rl) B) ∧
             ((¬ ∃ p, Bucket.Key B = String.append p s) → B' = B)) ∧
    (∀ b, (∀ key, RateLimiter.buckets R !! key ≠ Some b) →
          bucket_heap σ' !! b = bucket_heap σ !! b) ∧
    RateLimiter.buckets R' = RateLimiter.buckets R ∧
    RateLimiter.global R' = RateLimiter.global R ∧
    RateLimiter.mu R' = false ∧
    cells σ' = cells σ ∧ clock σ' = clock σ ∧ slept σ' = slept σ.
Proof.
  intros Hr Hmu Hall Hbk L named.
  destruct (SetCustomRateLimit_run σ r R s n d Hr Hmu Hall Hbk)
    as (σ' & Hrun & Hσ' & Hlook).
  fold L in Hσ', Hlook.
  assert (∀ v, has_suffix (rules σ) s v = true ↔ named v) as Hnamed.
  { intros v. apply has_suffix_spec. }
  assert (∀ v, has_suffix (rules σ) s v = false ↔ ¬ named v) as Hunnamed.
  { intros v. rewrite <- Hnamed. by destruct (has_suffix _ _ _). }
  set (found := find_from (has_suffix (rules σ) s) 0 L) in *.
  set (rl := match found with
             | Some (_, v) => v
             | None => fresh (dom (rules σ))
             end) in *.
  eexists rl, σ', _. split; [exact Hrun |].
  split; [rewrite Hσ'; store_simpl; apply lookup_insert_eq |].
  assert (rules σ' = <[rl:=customRateLimit.mk s n d]> (rules σ)) as Hrules
    by (by rewrite Hσ').
  split; [exact Hrules |].
  split; [rewrite Hrules; apply lookup_insert_eq |].
  store_simpl. split; [| split; [| split; [| split]]].
  - intros i v Hi Hv Hmin.
    assert (found = Some (i, v)) as E.
    { apply find_from_Some. exists i. split; [done |]. split; [done |].
      split; [by apply Hnamed |]. intros j y Hj Hy. apply Hunnamed. eauto. }
    subst rl. rewrite E. done.
  - intros Hnone.
    assert (found = None) as E.
    { apply find_from_None. intros v Hv. apply Hunnamed. auto. }
    subst rl. rewrite E. split; [| done].
    apply not_elem_of_dom. apply is_fresh.
  - intros key b B Hk HB. rewrite Hlook, HB.
    rewrite decide_True by (apply elem_of_registry; eauto).
    eexists. split; [reflexivity |]. unfold attach.
    destruct (strings.HasSuffix (Bucket.Key B) s) eqn:E.
    + split; [done |]. intros Hno. apply HasSuffix_spec in E. done.
    + split; [| done]. intros Hyes. apply HasSuffix_spec in Hyes. congruence.
  - intros b Hb. rewrite Hlook. rewrite decide_False; [done |].
    intros Hin. apply elem_of_registry in Hin as [key Hk]. by apply (Hb key).
  - rewrite Hσ'. done.
Qed.

Lemma State_eq σ σ' :
  clock σ = clock σ' → pending σ = pending σ' → slept σ = slept σ' →
  cells σ = cells σ' → rules σ = rules σ' →
  bucket_heap σ = bucket_heap σ' → limiters σ = limiters σ' → σ = σ'.
Proof. destruct σ, σ'; simpl; intros; subst; done. Qed.

Lemma bucket_loop_frame σ1 σ2 :
  σ2 = set_bucket_heap (bucket_heap σ2) σ1 →
  clock σ2 = clock σ1 ∧ pending σ2 = pending σ1 ∧ slept σ2 = slept σ1 ∧
  cells σ2 = cells σ1 ∧ rules σ2 = rules σ1 ∧ limiters σ2 = limiters σ1.
Proof. intros H. rewrite H. done. Qed.

(** [RemoveCustomRateLimit] as one run. *)
Lemma RemoveCustomRateLimit_run σ r R s :
  limiters σ !! r = Some R →
  RateLimiter.mu R = false →
  Forall (λ rl, is_Some (rules σ !! rl)) (RateLimiter.customRateLimits R) →
  (∀ key b, RateLimiter.buckets R !! key = Some b →
     ∃ B, bucket_heap σ !! b = Some B ∧ Bucket.crlmut B = false ∧
          ∀ rl, Bucket.customRateLimit B = Some rl → is_Some (rules σ !! rl)) →
  let L := RateLimiter.customRateLimits R in
  match find_from (has_suffix (rules σ) s) 0 L with
  | None =>
      RemoveCustomRateLimit r s σ
      = Returns (Some (errorString "err: custom rate limit not found")) σ
  | Some (k, _) =>
      ∃ σ',
        RemoveCustomRateLimit r s σ = Returns None σ' ∧
        σ' = set_bucket_heap (bucket_heap σ')
               (set_limiters
                  (<[r := RateLimiter.set_customRateLimits
                            (take k L ++ drop (S k) L) R]> (limiters σ)) σ) ∧
        ∀ b, bucket_heap σ' !! b
             = if decide (b ∈ (map_to_list (RateLimiter.buckets R)).*2)
               then detach (rules σ) s <$> bucket_heap σ !! b
               else bucket_heap σ !! b
  end.
Proof.
  intros Hr Hmu Hall Hbk L.
  assert (RateLimiter.set_mu false (RateLimiter.set_mu true R) = R) as Hunlock
    by (by apply limiter_unlock_round_trip).
  destruct (find_from (has_suffix (rules σ) s) 0 L) as [[k v]|] eqn:Efound.
  - match goal with
    | |- ∃ σ', _ = Returns None σ' ∧ @?Q σ' =>
        cut (wp (RemoveCustomRateLimit r s) σ (λ a σ', a = None ∧ Q σ'))
    end.
    { intros Hw. apply wp_returns in Hw as (a & σ' & E & -> & HQ). eauto. }
    cbv beta. unfold RemoveCustomRateLimit. go.
    eapply wp_mono.
    { apply (wp_remove_scan r (RateLimiter.set_mu true R) s);
        [store_simpl; apply lookup_insert_eq | store_simpl; exact Hall]. }
    intros res σ1 Hscan. store_simpl. fold L in Hscan.
    rewrite Efound in Hscan. destruct Hscan as [-> ->]. go.
    eapply wp_mono.
    { apply (wp_range_buckets (rules σ) _ (detach (rules σ) s)
               (λ B, Bucket.crlmut B = false ∧
                     ∀ rl, Bucket.customRateLimit B = Some rl →
                           is_Some (rules σ !! rl))).
      - intros B [HB1 HB2].
        destruct (detach_frame (rules σ) s B) as (E1 & E2 & _).
        split; [congruence | eauto].
      - intros B _. apply detach_frame.
      - intros σ2 kv B Hrs2 HB [Hcrl Hrl]. cbv zeta. go. unfold detach.
        destruct (Bucket.customRateLimit B) as [rl|] eqn:Ec.
        + destruct (Hrl rl eq_refl) as [RL HRL].
          apply wp_bind.
          eapply wp_load_rule; [store_simpl; rewrite Hrs2; exact HRL |].
          unfold has_suffix. rewrite HRL.
          destruct (String.eqb (customRateLimit.suffix RL) s).
          * go. rewrite !set_bucket_heap_twice, !insert_insert_eq.
            by rewrite set_crlmut_detach.
          * go. rewrite !set_bucket_heap_twice, !insert_insert_eq.
            rewrite crlmut_round_trip by done. done.
        + go. rewrite !set_bucket_heap_twice, !insert_insert_eq.
          rewrite crlmut_round_trip by done. done.
      - done.
      - store_simpl. apply Forall_forall. intros [key b] Hin.
        apply elem_of_map_to_list in Hin. simpl. eauto. }
    intros x σ2 [Hσ2 Hlook].
    apply bucket_loop_frame in Hσ2 as (Hclk & Hpend & Hsl & Hce & Hru & Hli).
    store_simpl.
    assert (limiters σ2 !! r
            = Some (RateLimiter.set_customRateLimits
                      (take k L ++ drop (S k) L) (RateLimiter.set_mu true R)))
      as Hr2.
    { rewrite Hli. apply lookup_insert_eq. }
    go. split; [done |]. split; [| exact Hlook].
    apply State_eq; store_simpl; try done.
    rewrite Hli, !insert_insert_eq. destruct R; simpl in *; subst; done.
  - match goal with
    | |- _ = Returns ?a ?s' =>
        cut (wp (RemoveCustomRateLimit r s) σ (λ a' σ', a' = a ∧ σ' = s'))
    end.
    { intros Hw. apply wp_returns in Hw as (a & σ' & E & -> & ->). exact E. }
    unfold RemoveCustomRateLimit. go.
    eapply wp_mono.
    { apply (wp_remove_scan r (RateLimiter.set_mu true R) s);
        [store_simpl; apply lookup_insert_eq | store_simpl; exact Hall]. }
    intros res σ1 Hscan. store_simpl. fold L in Hscan.
    rewrite Efound in Hscan. destruct Hscan as [-> ->]. go.
    split; [done |]. rewrite set_limiters_twice, insert_insert_eq, Hunlock.
    by apply set_limiters_id.
Qed.

(** C7. [RemoveCustomRateLimit(suffix)] returns.  It returns the error
    "err: custom rate limit not found" exactly when no rule of the list
    has that suffix, and then the store is left as it was.  Otherwise it
    returns no error: the first rule of the list with the suffix is taken
    out of the list (the rules before and after it stay, in order), and
    every registered bucket whose attached rule has exactly that suffix
    is detached; buckets attached to a rule with another suffix, buckets
    with no rule, and everything else stay as they were. *)
Theorem RemoveCustomRateLimit_detaches σ r R s :
  limiters σ !! r = Some R →
  RateLimiter.mu R = false →
  Forall (λ rl, is_Some (rules σ !! rl)) (RateLimiter.customRateLimits R) →
  (∀ key b, RateLimiter.buckets R !! key = Some b →
     ∃ B, bucket_heap σ !! b = Some B ∧ Bucket.crlmut B = false ∧
          ∀ rl, Bucket.customRateLimit B = Some rl → is_Some (rules σ !! rl)) →
  let L := RateLimiter.customRateLimits R in
  let named (v : loc) :=
    ∃ RL, rules σ !! v = Some RL ∧ customRateLimit.suffix RL = s in
  ∃ res σ',
    RemoveCustomRateLimit r s σ = Returns res σ' ∧
    (res = Some (errorString "err: custom rate limit not found")
     ↔ ∀ v, v ∈ L → ¬ named v) ∧
    (res = None ↔ ∃ v, v ∈ L ∧ named v) ∧
    (res ≠ None → σ' = σ) ∧
    (res = None →
     ∃ l1 v l2 R',
       L = (l1 ++ v :: l2)%list ∧ named v ∧ (∀ v', v' ∈ l1 → ¬ named v') ∧
       limiters σ' !! r = Some R' ∧
       RateLimiter.customRateLimits R' = (l1 ++ l2)%list ∧
       RateLimiter.buckets R' = RateLimiter.buckets R ∧
       RateLimiter.global R' = RateLimiter.global R ∧
       RateLimiter.mu R' = false ∧
       rules σ' = rules σ ∧ cells σ' = cells σ ∧
       clock σ' = clock σ ∧ slept σ' = slept σ ∧
       (∀ key b B,
          RateLimiter.buckets R !! key = Some b →
          bucket_heap σ !! b = Some B →
          ∃ B', bucket_heap σ' !! b = Some B' ∧
                (∀ rl, Bucket.customRateLimit B = Some rl → named rl →
                       B' = Bucket.set_customRateLimit None B) ∧
                (∀ rl, Bucket.customRateLimit B = Some rl → ¬ named rl →
                       B' = B) ∧
                (Bucket.customRateLimit B = None → B' = B)) ∧
       (∀ b, (∀ key, RateLimiter.buckets R !! key ≠ Some b) →
             bucket_heap σ' !! b = bucket_heap σ !! b)).
Proof.
  intros Hr Hmu Hall Hbk L named.
  pose proof (RemoveCustomRateLimit_run σ r R s Hr Hmu Hall Hbk) as Hrun.
  cbv zeta in Hrun. fold L in Hrun.
  assert (∀ v, has_suffix (rules σ) s v = true ↔ named v) as Hnamed.
  { intros v. apply has_suffix_spec. }
  assert (∀ v, has_suffix (rules σ) s v = false ↔ ¬ named v) as Hunnamed.
  { intros v. rewrite <- Hnamed. by destruct (has_suffix _ _ _). }
  destruct (find_from (has_suffix (rules σ) s) 0 L) as [[k v]|] eqn:Efound.
  - destruct Hrun as (σ' & Hrun & Hσ' & Hlook).
    apply find_from_Some in Efound as (j & -> & Hj & Hv & Hmin).
    cbn [Nat.add] in *.
    assert (v ∈ L) as Hin by (apply list_elem_of_lookup; eauto).
    exists None, σ'. split; [exact Hrun |]. split.
    { split; [done |]. intros Hnone. exfalso.
      apply (Hnone v Hin). by apply Hnamed. }
    split. { split; [| done]. intros _. exists v. split; [done |].
             by apply Hnamed. }
    split; [done |]. intros _.
    apply bucket_loop_frame in Hσ' as (Hclk & Hpend & Hsl & Hce & Hru & Hli).
    store_simpl.
    eexists (take j L), v, (drop (S j) L), _.
    split; [by rewrite take_drop_middle |].
    split; [by apply Hnamed |]. split.
    { intros v' Hv'. apply list_elem_of_lookup in Hv' as [i Hi].
      apply Hunnamed. apply (Hmin i).
      - apply lookup_lt_Some in Hi. rewrite length_take in Hi. lia.
      - rewrite lookup_take_Some in Hi. tauto. }
    split; [rewrite Hli; apply lookup_insert_eq |]. store_simpl.
    repeat (split; [done |]). split.
    + intros key b B Hk HB. rewrite Hlook, HB.
      rewrite decide_True by (apply elem_of_registry; eauto).
      eexists. split; [reflexivity |]. unfold detach.
      destruct (Bucket.customRateLimit B) as [rl|] eqn:Ec.
      * destruct (has_suffix (rules σ) s rl) eqn:Es.
        -- split; [done |]. split; [| done].
           intros rl' [= <-] Hno. apply Hnamed in Es. done.
        -- split; [| done]. intros rl' [= <-] Hyes.
           apply Hnamed in Hyes. congruence.
      * done.
    + intros b Hb. rewrite Hlook. rewrite decide_False; [done |].
      intros Hin'. apply elem_of_registry in Hin' as [key Hk].
      by apply (Hb key).
  - exists (Some (errorString "err: custom rate limit not found")), σ.
    split; [exact Hrun |].
    pose proof (proj1 (find_from_None _ _ _) Efound) as Hnone.
    split. { split; [| done]. intros _ v Hin. apply Hunnamed. auto. }
    split. { split; [done |]. intros (v & Hin & Hv).
             apply Hnamed in Hv. rewrite Hnone in Hv; done. }
    done.
Qed.

(** ** The reset instant stays within reach

    [LockBucket] passes [reset] when the wait fits a Duration.  It always
    does for a [reset] that [Release] has set: [reset] is a clock reading
    plus an [int64] Duration, and the clock only moves on. *)

Lemma Release_headers_reset_in_reach ParseTime σ b B g h :
  bucket_heap σ !! b = Some B →
  Bucket.customRateLimit B = None →
  Bucket.mu B = true →
  Bucket.crlmut B = false →
  cells σ !! Bucket.global B = Some g →
  Bucket.reset B - clock σ ≤ time.maxDuration →
  ∃ err σ' B',
    Release ParseTime b (Some h) σ = Returns err σ' ∧
    bucket_heap σ' !! b = Some B' ∧
    Bucket.reset B' - clock σ' ≤ time.maxDuration.
Proof.
  intros Hb Hc Hm Hl Hg Hreach.
  rewrite (Release_headers_run ParseTime σ b B g h) by done.
  pose proof (clock_elapse σ) as Hclk.
  assert (∀ B0, Bucket.reset
                  (remaining_after (http.Get h "X-RateLimit-Remaining") B0)
                = Bucket.reset B0) as Hkeep.
  { intros B0. apply remaining_after_frame. }
  assert (∀ z, int.wrap64 z ≤ time.maxDuration) as Hwrap.
  { intros z. apply wrap64_range. }
  unfold reset_step_of, reading. cbv [Nat.iter nat_rect].
  repeat match goal with
         | |- context [if ?c then _ else _] => destruct c
         | |- context [match ?x with inl _ => _ | inr _ => _ end] =>
             destruct x
         | |- context [match ?x with Some _ => _ | None => _ end] =>
             destruct x
         end.
  all: eexists _, _, _; split; [reflexivity |];
    split; [apply lookup_insert_eq |];
    store_simpl; rewrite ?Hkeep; store_simpl;
    unfold time.Add, int.mul, int.add;
    try match goal with
        | |- context [int.wrap64 ?z] => specialize (Hwrap z)
        end;
    simpl in *; lia.
Qed.

Lemma Release_custom_reset_in_reach ParseTime σ b B rl RL headers :
  bucket_heap σ !! b = Some B →
  Bucket.customRateLimit B = Some rl →
  rules σ !! rl = Some RL →
  Bucket.mu B = true →
  Bucket.crlmut B = false →
  int.fits64 (customRateLimit.reset RL) →
  Bucket.reset B - clock σ ≤ time.maxDuration →
  ∃ σ' B',
    Release ParseTime b headers σ = Returns None σ' ∧
    bucket_heap σ' !! b = Some B' ∧
    Bucket.reset B' - clock σ' ≤ time.maxDuration.
Proof.
  intros Hb Hc Hrl Hm Hl [_ Hfit] Hreach.
  cut (wp (Release ParseTime b headers) σ (λ r σ',
         r = None ∧ ∃ B', bucket_heap σ' !! b = Some B' ∧
                          Bucket.reset B' - clock σ' ≤ time.maxDuration)).
  { intros Hw. apply wp_returns in Hw as (a & σ' & E & -> & B' & ? & ?).
    eauto. }
  unfold time.maxDuration in *. unfold Release. go. rewrite Hc. go.
  match goal with |- wp (when ?c _) _ _ => destruct c end; go.
  all: match goal with |- wp (when ?c _) _ _ => destruct c end; go.
  all: split; [done |]; eexists; split; [apply lookup_insert_eq |];
    unfold time.Add; simpl; lia.
Qed.

(** A registry with one key. *)
Lemma singleton_registry (key0 : string) (b0 : loc) key b :
  ({[key0 := b0]} : gmap string loc) !! key = Some b → key = key0 ∧ b = b0.
Proof.
  intros H. destruct (decide (key = key0)) as [-> | Hne].
  - rewrite lookup_singleton_eq in H. by injection H as <-.
  - by rewrite lookup_singleton_ne in H.
Qed.

(** * The sample stores, run *)

Example started_reached : NewRatelimiter boot = Returns 1%positive started.
Proof. vm_compute. reflexivity. Qed.

Example held_reached : LockBucket 1 "xyz" started = Returns 1%positive held.
Proof. vm_compute. reflexivity. Qed.

Example held_ruled_reached :
  (SetCustomRateLimit 1 "//reactions//" 2 (200 * time.Millisecond) ;;
   LockBucket 1 "emoji//reactions//") started
  = Returns 1%positive held_ruled.
Proof. vm_compute. reflexivity. Qed.

(** A second [LockBucket] while the slot is checked out does not return. *)
Example held_blocks : LockBucket 1 "xyz" held = Blocks.
Proof. vm_compute. reflexivity. Qed.

(** [Release] of a slot that is not checked out is the runtime's fatal
    error. *)
Example double_release_is_fatal :
  (Release sample_ParseTime 1 None ;; Release sample_ParseTime 1 None) held
  = Fatal "sync: unlock of unlocked mutex".
Proof. vm_compute. reflexivity. Qed.

(** After Retry-After: 2000 the next [LockBucket] on the key sleeps until
    the two seconds are over: 2 s less the 24 ns that passed between the
    clock reading of [Release] and the one before the sleep. *)
Example retry_after_makes_next_call_sleep :
  ∃ σ', (Release sample_ParseTime 1 (Some retry_2s) ;;
         LockBucket 1 "xyz") held = Returns 1%positive σ' ∧
        slept σ' = [1999999976] ∧
        clock σ' = clock held + 7 + 2000 * time.Millisecond + 17 + 19 ∧
        bucket_heap σ' !! 1%positive
        = Some (Bucket.mk true "xyz" (-1) 0
                  (clock held + 7 + 2000 * time.Millisecond) 1 false
                  time.zero None).
Proof. eexists. vm_compute. repeat split. Qed.

(** A remaining count one above the largest [int32] is a range error,
    and [remaining] stays as it was. *)
Example remaining_beyond_int32_is_an_error :
  Release sample_ParseTime 1
    (Some {["X-Ratelimit-Remaining" := ["2147483648"]]}) held
  = Returns (Some (NumError "2147483648" strconv.ErrRange))
            (slot_freed 1 xyz_held held).
Proof. vm_compute. reflexivity. Qed.

(** [strconv.ParseInt] stops at the first digit that takes the value out
    of range, before it sees a byte that is no digit. *)
Example range_error_comes_first :
  strconv.ParseInt "4294967296x" 32 = inr strconv.ErrRange ∧
  strconv.ParseInt "42x" 32 = inr strconv.ErrSyntax ∧
  strconv.ParseInt "-2147483648" 32 = inl (-2147483648) ∧
  strconv.ParseInt "18446744073709551616" 64 = inr strconv.ErrRange.
Proof. vm_compute. repeat split. Qed.

(** [time.Unix] keeps its seconds in an [int64] counted from year 1. *)
Example Unix_wraps_near_MaxInt64 :
  time.Unix 1700000000 0 = 1700000000 * time.Second ∧
  time.Unix 0 (-1) = -1 ∧
  time.Unix 9223371974719179008 0 < 0.
Proof. vm_compute. repeat split. Qed.

(** * The theorems at the sample stores *)

(** C6 at [held]: [Release(nil)] gives the slot of bucket 1 back. *)
Lemma Release_nil_witness :
  (bucket_heap held !! 1%positive = Some xyz_held ∧
   Bucket.customRateLimit xyz_held = None ∧
   Bucket.mu xyz_held = true ∧ Bucket.crlmut xyz_held = false) ∧
  ∃ σ', Release sample_ParseTime 1 None held = Returns None σ' ∧
        bucket_heap σ' !! 1%positive = Some (Bucket.set_mu false xyz_held).
Proof.
  split; [repeat split |].
  destruct (Release_nil_only_frees_slot sample_ParseTime held 1 xyz_held
              eq_refl eq_refl eq_refl eq_refl)
    as (σ' & B' & E & -> & -> & _).
  eexists. split; [exact E | apply lookup_insert_eq].
Defined.

(** C3 at [held_ruled] and [held_strict]: the first [Release] of a
    bucket under the rule "2 per 200 ms" starts a cycle, leaves
    [remaining = 1] and does not touch [reset]; under the rule "1 per
    200 ms" it leaves [remaining = 0] and sets [reset] 200 ms after the
    third clock reading.  The Retry-After header is not looked at. *)
Lemma Release_custom_rule_witness :
  ((bucket_heap held_ruled !! 1%positive = Some emoji_held ∧
    Bucket.customRateLimit emoji_held = Some 1%positive ∧
    rules held_ruled !! 1%positive = Some reactions_rule ∧
    Bucket.mu emoji_held = true ∧ Bucket.crlmut emoji_held = false) ∧
   ∃ σ' B',
     Release sample_ParseTime 1 (Some retry_2s) held_ruled
     = Returns None σ' ∧
     bucket_heap σ' !! 1%positive = Some B' ∧
     Bucket.remaining B' = 1 ∧
     Bucket.lastReset B' = clock held_ruled + 7 + 11 ∧
     Bucket.reset B' = Bucket.reset emoji_held) ∧
  ((bucket_heap held_strict !! 1%positive = Some emoji_held ∧
    Bucket.customRateLimit emoji_held = Some 1%positive ∧
    rules held_strict !! 1%positive = Some strict_rule ∧
    Bucket.mu emoji_held = true ∧ Bucket.crlmut emoji_held = false) ∧
   ∃ σ' B',
     Release sample_ParseTime 1 (Some retry_2s) held_strict
     = Returns None σ' ∧
     bucket_heap σ' !! 1%positive = Some B' ∧
     Bucket.mu B' = false ∧
     Bucket.remaining B' = 0 ∧
     Bucket.lastReset B' = clock held_strict + 7 + 11 ∧
     Bucket.reset B' = clock held_strict + 7 + 11 + 13 + 200000000).
Proof.
  split.
  - split; [repeat split |].
    destruct (Release_custom_rule sample_ParseTime held_ruled 1 emoji_held 1
                reactions_rule (Some retry_2s) eq_refl eq_refl eq_refl
                eq_refl eq_refl)
      as (σ' & B' & E & _ & Hb & _ & Hdue & _ & _ & Hkeep & _).
    destruct Hdue as [Hrem Hlast]; [vm_compute; discriminate |].
    exists σ', B'. split; [exact E |]. split; [exact Hb |].
    split; [exact Hrem |]. split; [exact Hlast |].
    apply Hkeep. rewrite Hrem. vm_compute. discriminate.
  - split; [repeat split |].
    destruct (Release_custom_rule sample_ParseTime held_strict 1 emoji_held 1
                strict_rule (Some retry_2s) eq_refl eq_refl eq_refl
                eq_refl eq_refl)
      as (σ' & B' & E & _ & Hb & Hmu & Hdue & _ & _ & _ & _ & _ & _ & _
          & Hreset & Hclk & _).
    destruct Hdue as [Hrem Hlast]; [vm_compute; discriminate |].
    exists σ', B'. split; [exact E |]. split; [exact Hb |].
    split; [exact Hmu |]. split; [exact Hrem |]. split; [exact Hlast |].
    rewrite Hreset by (rewrite Hrem; vm_compute; reflexivity).
    rewrite Hclk by (vm_compute; discriminate). rewrite Hrem.
    vm_compute. reflexivity.
Defined.



(** C4 as stated fails at [held]: the reset header is malformed, but with
    Retry-After present it is never parsed, and [Release] returns no
    error. *)
Lemma Release_skips_unread_reset_header :
  http.Get retry_with_bad_reset "X-RateLimit-Reset" = "abc" ∧
  strconv.ParseInt "abc" 64 = inr strconv.ErrSyntax ∧
  Release sample_ParseTime 1 (Some retry_with_bad_reset) held
  = Returns None
      (slot_freed 1
         (Bucket.set_reset (clock held + 7 + 1000 * 1000000) xyz_held)
         (elapse held)).
Proof. vm_compute. repeat split. Qed.

(** C4 (amended) at [held]: Retry-After parses and sets [reset]; the
    remaining count does not parse; the error comes back, the slot is
    free, and [reset] has kept the new value. *)
Lemma Release_parse_error_witness :
  (bucket_heap held !! 1%positive = Some xyz_held ∧
   Bucket.customRateLimit xyz_held = None ∧
   Bucket.mu xyz_held = true ∧ Bucket.crlmut xyz_held = false ∧
   cells held !! Bucket.global xyz_held = Some 0 ∧
   http.Get retry_with_bad_remaining "X-RateLimit-Remaining" = "many" ∧
   strconv.ParseInt "many" 32 = inr strconv.ErrSyntax) ∧
  ∃ err σ' B',
    Release sample_ParseTime 1 (Some retry_with_bad_remaining) held
    = Returns (Some err) σ' ∧
    bucket_heap σ' !! 1%positive = Some B' ∧
    Bucket.mu B' = false ∧
    Bucket.remaining B' = 0 ∧
    Bucket.reset B' = clock held + 7 + 1000 * 1000000.
Proof.
  split; [repeat split |].
  destruct (Release_parse_error sample_ParseTime held 1 xyz_held 0
              retry_with_bad_remaining eq_refl eq_refl eq_refl eq_refl
              eq_refl)
    as (err & σ' & B' & g' & E & Hb & _ & Hmu & Hrem & _ & _ & Hretry & _).
  { right. split; [vm_compute; discriminate |].
    exists strconv.ErrSyntax. vm_compute. reflexivity. }
  destruct (Hretry 1000 ltac:(vm_compute; discriminate)
              ltac:(vm_compute; reflexivity)) as (_ & Hown).
  destruct (Hown ltac:(vm_compute; reflexivity)) as [Hreset _].
  exists err, σ', B'. split; [exact E |]. split; [exact Hb |].
  split; [exact Hmu |]. split; [exact Hrem | exact Hreset].
Defined.

(** C5 as stated fails at [held]: the remaining-count header is the valid
    "5", but Retry-After is malformed, [Release] returns its parse error
    first, and [remaining] stays 0. *)
Lemma Release_leaves_remaining_on_earlier_error :
  http.Get bad_retry_with_remaining "X-RateLimit-Remaining" = "5" ∧
  strconv.ParseInt "5" 32 = inl 5 ∧
  Release sample_ParseTime 1 (Some bad_retry_with_remaining) held
  = Returns (Some (NumError "soon" strconv.ErrSyntax))
            (slot_freed 1 xyz_held held) ∧
  bucket_heap (slot_freed 1 xyz_held held) !! 1%positive
  = Some (Bucket.set_mu false xyz_held) ∧
  Bucket.remaining (Bucket.set_mu false xyz_held) = 0.
Proof. vm_compute. repeat split. Qed.

(** C5 (amended) at [held]: the remaining count alone is taken over. *)
Lemma Release_remaining_header_witness :
  (bucket_heap held !! 1%positive = Some xyz_held ∧
   Bucket.customRateLimit xyz_held = None ∧
   Bucket.mu xyz_held = true ∧ Bucket.crlmut xyz_held = false ∧
   cells held !! Bucket.global xyz_held = Some 0 ∧
   http.Get remaining_5 "X-RateLimit-Remaining" = "5" ∧
   strconv.ParseInt "5" 32 = inl 5 ∧
   http.Get remaining_5 "Retry-After" = "" ∧
   http.Get remaining_5 "X-RateLimit-Reset" = "") ∧
  ∃ σ' B',
    Release sample_ParseTime 1 (Some remaining_5) held = Returns None σ' ∧
    bucket_heap σ' !! 1%positive = Some B' ∧
    Bucket.remaining B' = 5.
Proof.
  split; [repeat split |].
  apply (Release_remaining_header sample_ParseTime held 1 xyz_held 0
           remaining_5 5 eq_refl eq_refl eq_refl eq_refl eq_refl).
  - vm_compute. discriminate.
  - vm_compute. reflexivity.
  - intros H. exfalso. apply H. vm_compute. reflexivity.
  - intros _ H. exfalso. apply H. vm_compute. reflexivity.
Defined.

(** C1 at [throttled]: bucket "xyz" has nothing left until one second
    after the start and the global throttle ends three seconds after it.
    The call sleeps until the bucket's [reset] (1 s less the 23 ns gone
    by), then until the global instant (2 s less the 30 ns it woke up
    and read the clock after [reset]), and returns the registered bucket
    with [remaining = -1]. *)
Lemma LockBucket_witness :
  (limiters throttled !! 1%positive = Some xyz_limiter ∧
   RateLimiter.mu xyz_limiter = false ∧
   cells throttled !! RateLimiter.global xyz_limiter
   = Some (clock boot + 3000000000) ∧
   RateLimiter.buckets xyz_limiter !! "xyz" = Some 1%positive ∧
   bucket_heap throttled !! 1%positive = Some xyz_spent ∧
   Bucket.mu xyz_spent = false ∧ Bucket.remaining xyz_spent = 0 ∧
   Bucket.reset xyz_spent = clock boot + 1000000000) ∧
  ∃ σ' B',
    LockBucket 1 "xyz" throttled = Returns 1%positive σ' ∧
    bucket_heap σ' !! 1%positive = Some B' ∧
    slept σ' = [2000000000 - 30; 1000000000 - 23] ∧
    clock boot + 3000000000 ≤ clock σ' ∧
    Bucket.remaining B' = -1 ∧
    Bucket.mu B' = true ∧
    Bucket.reset B' = clock boot + 1000000000.
Proof.
  split; [vm_compute; repeat split |].
  assert (int.fits64 (clock boot + 3 * time.Second)) as Hg
    by (vm_compute; split; discriminate).
  destruct (LockBucket_waits_then_decrements throttled 1 xyz_limiter "xyz"
              (clock boot + 3 * time.Second) eq_refl eq_refl eq_refl
              (Forall_nil_2 _))
    as (b & σ1 & B & σ' & B' & now & _ & HB & Hrun & HB' & Hsl & _ & _ & _
        & _ & -> & _ & Hreg & _ & -> & Hown & _ & Hshared & Hpast).
  { intros b Hb. apply singleton_registry in Hb as [_ ->].
    exists xyz_spent. split; reflexivity. }
  destruct (Hreg 1%positive ltac:(vm_compute; reflexivity)) as [-> ->].
  assert (B = xyz_spent) as ->.
  { vm_compute in HB. injection HB as <-. reflexivity. }
  rewrite Hown in Hsl by (vm_compute; split; discriminate).
  rewrite (Hshared Hg) in Hsl by (vm_compute; discriminate).
  exists σ'. eexists. split; [exact Hrun |]. split; [exact HB' |].
  split; [rewrite Hsl; vm_compute; reflexivity |].
  split; [apply (Hpast Hg); vm_compute; discriminate |].
  repeat split.
Defined.

(** C9 at [started]: the lookup of "xyz", and the lookup again. *)
Lemma getBucket_witness :
  (limiters started !! 1%positive = Some new_limiter_record ∧
   RateLimiter.mu new_limiter_record = false) ∧
  ∃ b σ1 B,
    getBucket 1 "xyz" started = Returns b σ1 ∧
    getBucket 1 "xyz" σ1 = Returns b σ1 ∧
    bucket_heap started !! b = None ∧
    bucket_heap σ1 !! b = Some B ∧
    Bucket.customRateLimit B = None.
Proof.
  split; [repeat split |].
  destruct (getBucket_one_instance_per_key started 1 new_limiter_record "xyz"
              eq_refl eq_refl (Forall_nil_2 _))
    as (b & σ1 & Hget & Hagain & _ & Hnew).
  destruct (Hnew eq_refl) as (Hfresh & B & R1 & HB & Hrest).
  exists b, σ1, B. split; [exact Hget |]. split; [exact Hagain |].
  split; [exact Hfresh |]. split; [exact HB |].
  apply Hrest. intros rl Hin. apply elem_of_nil in Hin. destruct Hin.
Defined.

(** C10 at [started]: the first two calls on "xyz". *)
Lemma new_bucket_witness :
  (limiters started !! 1%positive = Some new_limiter_record ∧
   RateLimiter.mu new_limiter_record = false ∧
   cells started !! RateLimiter.global new_limiter_record = Some 0 ∧
   RateLimiter.buckets new_limiter_record !! "xyz" = None ∧
   time.Unix 0 0 ≤ clock started ∧ time.zero ≤ clock started) ∧
  ∃ b σ2 B2,
    LockBucket 1 "xyz" started = Returns b σ2 ∧
    slept σ2 = [] ∧
    bucket_heap σ2 !! b = Some B2 ∧
    Bucket.remaining B2 = 0 ∧
    getBucket 1 "xyz" σ2 = Returns b σ2.
Proof.
  assert (time.Unix 0 0 ≤ clock started) as H1 by (vm_compute; discriminate).
  assert (time.zero ≤ clock started) as H2 by (vm_compute; discriminate).
  split; [repeat split; assumption |].
  destruct (new_bucket_first_calls started 1 new_limiter_record "xyz" 0
              eq_refl eq_refl eq_refl (Forall_nil_2 _) eq_refl H1 H2)
    as (b & σ1 & B1 & σ2 & B2 & _ & _ & _ & _ & Hrun & Hsl & Hb2 & Hrem & _
        & _ & Hget & _).
  exists b, σ2, B2. repeat (split; [assumption |]). exact Hget.
Defined.

(** C8 at [held]: a rule for the suffix "yz" is new, and bucket "xyz",
    checked out or not, is attached to it. *)
Lemma SetCustomRateLimit_witness :
  (limiters held !! 1%positive = Some xyz_limiter ∧
   RateLimiter.mu xyz_limiter = false ∧
   RateLimiter.buckets xyz_limiter !! "xyz" = Some 1%positive ∧
   bucket_heap held !! 1%positive = Some xyz_held ∧
   Bucket.crlmut xyz_held = false) ∧
  ∃ rl σ',
    SetCustomRateLimit 1 "yz" 3 (100 * time.Millisecond) held
    = Returns tt σ' ∧
    rules held !! rl = None ∧
    rules σ' !! rl
    = Some (customRateLimit.mk "yz" 3 (100 * time.Millisecond)) ∧
    bucket_heap σ' !! 1%positive
    = Some (Bucket.set_customRateLimit (Some rl) xyz_held).
Proof.
  split; [repeat split |].
  destruct (SetCustomRateLimit_upserts_and_attaches held 1 xyz_limiter "yz" 3
              (100 * time.Millisecond) eq_refl eq_refl (Forall_nil_2 _))
    as (rl & σ' & R' & Hrun & _ & _ & Hrl & _ & Hnew & Hattach & _).
  { intros key b Hk. exists xyz_held.
    destruct (decide (key = "xyz")) as [-> | Hne].
    - vm_compute in Hk. injection Hk as <-. split; reflexivity.
    - unfold xyz_limiter in Hk. cbn [RateLimiter.buckets] in Hk.
      rewrite lookup_singleton_ne in Hk by congruence. discriminate. }
  destruct Hnew as [Hfresh _].
  { intros v Hin. apply elem_of_nil in Hin. destruct Hin. }
  destruct (Hattach "xyz" 1%positive xyz_held eq_refl eq_refl)
    as (B' & HB' & Hends & _).
  rewrite (Hends (ex_intro _ "x" eq_refl)) in HB'.
  exists rl, σ'. split; [exact Hrun |]. split; [exact Hfresh |].
  split; [exact Hrl | exact HB'].
Defined.

(** C7 at [held_ruled]: the rule "//reactions//" is removed and the
    bucket that carried it is detached. *)
Lemma RemoveCustomRateLimit_witness :
  (limiters held_ruled !! 1%positive = Some emoji_limiter ∧
   RateLimiter.mu emoji_limiter = false ∧
   RateLimiter.customRateLimits emoji_limiter = [1%positive] ∧
   rules held_ruled !! 1%positive = Some reactions_rule ∧
   RateLimiter.buckets emoji_limiter !! "emoji//reactions//"
   = Some 1%positive ∧
   bucket_heap held_ruled !! 1%positive = Some emoji_held) ∧
  ∃ σ' R',
    RemoveCustomRateLimit 1 "//reactions//" held_ruled = Returns None σ' ∧
    limiters σ' !! 1%positive = Some R' ∧
    RateLimiter.customRateLimits R' = [] ∧
    bucket_heap σ' !! 1%positive
    = Some (Bucket.set_customRateLimit None emoji_held).
Proof.
  split; [vm_compute; repeat split |].
  assert (∃ RL, rules held_ruled !! 1%positive = Some RL ∧
                customRateLimit.suffix RL = "//reactions//") as Hnamed.
  { exists reactions_rule. vm_compute. split; reflexivity. }
  destruct (RemoveCustomRateLimit_detaches held_ruled 1 emoji_limiter
              "//reactions//" ltac:(vm_compute; reflexivity) eq_refl)
    as (res & σ' & Hrun & _ & Hsome & _ & Hok).
  { apply Forall_cons. split; [| apply Forall_nil_2].
    exists reactions_rule. vm_compute. reflexivity. }
  { intros key b Hk. exists emoji_held.
    destruct (decide (key = "emoji//reactions//")) as [-> | Hne].
    - vm_compute in Hk. injection Hk as <-.
      split; [vm_compute; reflexivity |]. split; [reflexivity |].
      intros rl [= <-]. exists reactions_rule. vm_compute. reflexivity.
    - unfold emoji_limiter in Hk. cbn [RateLimiter.buckets] in Hk.
      rewrite lookup_singleton_ne in Hk by congruence. discriminate. }
  assert (res = None) as ->.
  { apply Hsome. exists 1%positive. split; [| exact Hnamed].
    apply list_elem_of_singleton. reflexivity. }
  destruct (Hok eq_refl)
    as (l1 & v & l2 & R' & HL & _ & _ & HR' & HL' & _ & _ & _ & _ & _ & _ & _
        & Hdetach & _).
  destruct (Hdetach "emoji//reactions//" 1%positive emoji_held
              ltac:(vm_compute; reflexivity) ltac:(vm_compute; reflexivity))
    as (B' & HB' & Hyes & _).
  rewrite (Hyes 1%positive eq_refl Hnamed) in HB'.
  assert (l1 = [] ∧ l2 = []) as [-> ->].
  { clear -HL. cbn [RateLimiter.customRateLimits emoji_limiter] in HL.
    destruct l1 as [|x l1]; simpl in HL.
    - injection HL as _ <-. done.
    - injection HL as _ HL. destruct l1; discriminate. }
  exists σ', R'. split; [exact Hrun |]. split; [exact HR' |].
  split; [exact HL' | exact HB'].
Defined.


(** * Further properties of the limiter *)

(** ** Well-formedness is established and kept *)

(** X1. [NewRatelimiter] returns a limiter that did not exist, with a global
    cell that did not exist and holds 0, no bucket and no rule; the new
    limiter is well formed, and nothing that existed is touched. *)
Theorem NewRatelimiter_well_formed σ :
  ∃ r R σ',
    NewRatelimiter σ = Returns r σ' ∧
    limiters σ !! r = None ∧
    cells σ !! RateLimiter.global R = None ∧
    well_formed σ' r R ∧
    RateLimiter.buckets R = ∅ ∧
    RateLimiter.customRateLimits R = [] ∧
    cells σ' !! RateLimiter.global R = Some 0 ∧
    (∀ r', r' ≠ r → limiters σ' !! r' = limiters σ !! r') ∧
    (∀ p, p ≠ RateLimiter.global R → cells σ' !! p = cells σ !! p) ∧
    rules σ' = rules σ ∧ bucket_heap σ' = bucket_heap σ ∧
    clock σ' = clock σ ∧ pending σ' = pending σ ∧ slept σ' = slept σ.
Proof.
  set (g := fresh (dom (cells σ))). set (r := fresh (dom (limiters σ))).
  exists r, (RateLimiter.mk false g ∅ 0 []).
  eexists. split; [reflexivity |].
  assert (limiters σ !! r = None) as Hr
    by (apply not_elem_of_dom, is_fresh).
  assert (cells σ !! g = None) as Hg by (apply not_elem_of_dom, is_fresh).
  split; [exact Hr |]. split; [exact Hg |]. store_simpl. split.
  { split; store_simpl.
    - apply lookup_insert_eq.
    - done.
    - rewrite lookup_insert_eq. eauto.
    - constructor.
    - constructor.
    - intros key b Hk. by rewrite lookup_empty in Hk. }
  split; [done |]. split; [done |].
  split; [apply lookup_insert_eq |].
  split. { intros r' Hne. by rewrite lookup_insert_ne. }
  split. { intros p Hne. by rewrite lookup_insert_ne. }
  done.
Qed.

Lemma bucket_ok_rules σ σ' R key B :
  rules σ' = rules σ → bucket_ok σ R key B → bucket_ok σ' R key B.
Proof. unfold bucket_ok. intros ->. done. Qed.

(** The lookup of a key keeps the store well formed. *)
Lemma getBucket_well_formed σ r R key :
  well_formed σ r R →
  ∃ b σ1 R1 B,
    getBucket r key σ = Returns b σ1 ∧
    well_formed σ1 r R1 ∧
    RateLimiter.buckets R1 !! key = Some b ∧
    bucket_heap σ1 !! b = Some B ∧
    (∀ b0, RateLimiter.buckets R !! key = Some b0 → b0 = b ∧ σ1 = σ) ∧
    (RateLimiter.buckets R !! key = None →
     bucket_heap σ !! b = None ∧ Bucket.mu B = false ∧
     Bucket.remaining B = 1 ∧ Bucket.reset B = time.zero ∧
     Bucket.lastReset B = time.zero) ∧
    (∀ key', key' ≠ key →
       RateLimiter.buckets R1 !! key' = RateLimiter.buckets R !! key') ∧
    RateLimiter.customRateLimits R1 = RateLimiter.customRateLimits R ∧
    RateLimiter.global R1 = RateLimiter.global R ∧
    (∀ b', b' ≠ b → bucket_heap σ1 !! b' = bucket_heap σ !! b') ∧
    rules σ1 = rules σ ∧ cells σ1 = cells σ ∧
    clock σ1 = clock σ ∧ pending σ1 = pending σ ∧ slept σ1 = slept σ.
Proof.
  intros [Hr Hmu Hg Hall Huniq Hbk].
  destruct (RateLimiter.buckets R !! key) as [b0|] eqn:Hk.
  - destruct (Hbk key b0 Hk) as (B & HB & Hok).
    exists b0, σ, R, B.
    rewrite (getBucket_registered σ r R key b0) by done.
    split; [done |]. split; [by split |]. split; [done |]. split; [done |].
    split; [by intros ? [= <-] |]. done.
  - pose proof (getBucket_unregistered σ r R key Hr Hmu Hk Hall) as Hrun.
    cbv zeta in Hrun. set (b := fresh (dom (bucket_heap σ))) in *.
    assert (bucket_heap σ !! b = None) as Hfresh
      by (apply not_elem_of_dom, is_fresh).
    eexists b, _, _, _. split; [exact Hrun |]. split.
    { split; store_simpl.
      - apply lookup_insert_eq.
      - done.
      - done.
      - done.
      - done.
      - intros key' b' Hk'. store_simpl.
        destruct (decide (key' = key)) as [-> | Hne].
        + rewrite lookup_insert_eq in Hk'. injection Hk' as <-.
          rewrite lookup_insert_eq. eexists. split; [reflexivity |].
          split; [done |]. split; [done |]. split; [done |].
          intros rl Hrl. cbn [Bucket.customRateLimit] in Hrl.
          apply first_match_Some in Hrl as (i & Hi & Hm & _).
          split; [apply list_elem_of_lookup; eauto |].
          unfold rule_matches in Hm. store_simpl.
          destruct (rules σ !! rl) as [RL|]; [eauto | done].
        + rewrite lookup_insert_ne in Hk' by done.
          destruct (Hbk key' b' Hk') as (B' & HB' & Hok).
          assert (b' ≠ b) by congruence.
          rewrite lookup_insert_ne by done. eauto. }
    split; [store_simpl; apply lookup_insert_eq |].
    split; [store_simpl; apply lookup_insert_eq |].
    split; [done |]. split; [done |]. store_simpl.
    split. { intros key' Hne. by rewrite lookup_insert_ne. }
    split; [done |]. split; [done |].
    split. { intros b' Hne. by rewrite lookup_insert_ne. }
    done.
Qed.

(** Changing [mu], [remaining], [reset] or [lastReset] of a registered
    bucket, moving the clock and writing the global cell keep the store
    well formed. *)
Lemma well_formed_update σ σ' r R b B B' :
  well_formed σ r R →
  bucket_heap σ !! b = Some B →
  bucket_heap σ' = <[b := B']> (bucket_heap σ) →
  Bucket.Key B' = Bucket.Key B →
  Bucket.global B' = Bucket.global B →
  Bucket.crlmut B' = Bucket.crlmut B →
  Bucket.customRateLimit B' = Bucket.customRateLimit B →
  rules σ' = rules σ →
  limiters σ' = limiters σ →
  dom (cells σ') = dom (cells σ) →
  well_formed σ' r R.
Proof.
  intros [Hr Hmu Hg Hall Huniq Hbk] HB Hheap HK HG HC HR Hrules Hlim Hdom.
  split.
  - by rewrite Hlim.
  - done.
  - apply elem_of_dom. rewrite Hdom. by apply elem_of_dom.
  - by rewrite Hrules.
  - unfold suffix_of in *. by rewrite Hrules.
  - intros key b0 Hk. destruct (Hbk key b0 Hk) as (B0 & HB0 & Hok).
    rewrite Hheap. destruct (decide (b0 = b)) as [-> | Hne].
    + rewrite lookup_insert_eq. eexists. split; [reflexivity |].
      rewrite HB in HB0. injection HB0 as <-.
      apply (bucket_ok_rules σ); [done |].
      unfold bucket_ok in *. rewrite HK, HG, HC, HR. done.
    + rewrite lookup_insert_ne by done. exists B0. split; [done |].
      by apply (bucket_ok_rules σ).
Qed.

(** X2. [LockBucket] on a key whose slot is free returns the bucket of the
    key with the slot held, keeps the store well formed, registers
    nothing but this key, and touches no other bucket, no rule and no
    cell; the clock does not go back. *)
Theorem LockBucket_keeps_well_formed σ r R key :
  well_formed σ r R →
  (∀ b B, RateLimiter.buckets R !! key = Some b →
          bucket_heap σ !! b = Some B → Bucket.mu B = false) →
  ∃ b σ' R' B',
    LockBucket r key σ = Returns b σ' ∧
    well_formed σ' r R' ∧
    RateLimiter.buckets R' !! key = Some b ∧
    bucket_heap σ' !! b = Some B' ∧
    Bucket.mu B' = true ∧
    (∀ key', key' ≠ key →
       RateLimiter.buckets R' !! key' = RateLimiter.buckets R !! key') ∧
    RateLimiter.customRateLimits R' = RateLimiter.customRateLimits R ∧
    RateLimiter.global R' = RateLimiter.global R ∧
    (∀ b', b' ≠ b → bucket_heap σ' !! b' = bucket_heap σ !! b') ∧
    rules σ' = rules σ ∧ cells σ' = cells σ ∧ clock σ ≤ clock σ'.
Proof.
  intros Hwf Hfree.
  destruct (getBucket_well_formed σ r R key Hwf)
    as (b & σ1 & R1 & B & Hget & Hwf1 & Hk1 & HB & Hreg & Hnew & Hkeys & HL
        & HG & Hothers & Hrules & Hcells & Hclk & _ & _).
  assert (Bucket.mu B = false) as HmuB.
  { destruct (RateLimiter.buckets R !! key) as [b0|] eqn:Hk.
    - destruct (Hreg b0 eq_refl) as [-> ->]. by apply (Hfree b B).
    - by apply Hnew. }
  destruct (wf_global _ _ _ Hwf1) as [g Hg].
  pose proof (LockBucket_run σ r key b σ1 R1 B g Hget
                (wf_limiter _ _ _ Hwf1) Hg HB HmuB) as Hrun.
  destruct (bucket_wait_frame B σ1) as (Hc1 & Hr1 & Hh1 & Hl1).
  destruct (global_wait_frame g (bucket_wait B σ1)) as (Hc2 & Hr2 & Hh2 & Hl2).
  exists b. eexists. exists R1.
  exists (Bucket.set_remaining (int.sub (Bucket.remaining B) 1)
            (Bucket.set_mu true B)).
  split; [exact Hrun |]. split.
  { eapply (well_formed_update σ1 _ r R1 b B _ Hwf1 HB); store_simpl;
      try done.
    - by rewrite Hr2, Hr1.
    - by rewrite Hl2, Hl1.
    - by rewrite Hc2, Hc1. }
  split; [exact Hk1 |]. store_simpl.
  split; [apply lookup_insert_eq |]. split; [done |].
  split; [exact Hkeys |]. split; [exact HL |]. split; [exact HG |].
  split. { intros b' Hne. rewrite lookup_insert_ne by done. auto. }
  split; [by rewrite Hr2, Hr1 |]. split; [by rewrite Hc2, Hc1 |].
  pose proof (bucket_wait_clock B σ1) as [Hw1 _].
  pose proof (global_wait_clock g (bucket_wait B σ1)) as [Hw2 _].
  pose proof (clock_elapse (bucket_wait B σ1)) as Hw3.
  unfold reading in Hw2. cbv [Nat.iter nat_rect] in Hw2. lia.
Qed.

(** X3. [LockBucket] on a key whose slot is checked out does not return:
    at most one caller holds the slot of a key. *)
Theorem LockBucket_blocks_while_held σ r R key b B :
  well_formed σ r R →
  RateLimiter.buckets R !! key = Some b →
  bucket_heap σ !! b = Some B →
  Bucket.mu B = true →
  LockBucket r key σ = Blocks.
Proof.
  intros Hwf Hk HB Hmu. unfold LockBucket, bind.
  rewrite (getBucket_registered σ r R key b)
    by (first [apply Hwf | done]).
  unfold Bucket_Lock. by rewrite HB, Hmu.
Qed.

(** ** [Release], whether or not the slot is held *)

(** The body of [Release], before the deferred [Unlock]: it returns, and
    changes at most [remaining], [reset], [lastReset] of the bucket, the
    global cell and the clock. *)
Lemma Release_body ParseTime σ b B headers :
  bucket_heap σ !! b = Some B →
  Bucket.crlmut B = false →
  (∀ rl, Bucket.customRateLimit B = Some rl → is_Some (rules σ !! rl)) →
  is_Some (cells σ !! Bucket.global B) →
  ∃ body,
    Release ParseTime b headers = defer (Bucket_Unlock b) body ∧
    wp body σ (λ _ σ1,
      ∃ B1,
        bucket_heap σ1 = <[b := B1]> (bucket_heap σ) ∧
        Bucket.mu B1 = Bucket.mu B ∧
        Bucket.Key B1 = Bucket.Key B ∧
        Bucket.limit B1 = Bucket.limit B ∧
        Bucket.global B1 = Bucket.global B ∧
        Bucket.crlmut B1 = false ∧
        Bucket.customRateLimit B1 = Bucket.customRateLimit B ∧
        rules σ1 = rules σ ∧ limiters σ1 = limiters σ ∧
        slept σ1 = slept σ ∧ clock σ ≤ clock σ1 ∧
        dom (cells σ1) = dom (cells σ) ∧
        ∀ p, p ≠ Bucket.global B → cells σ1 !! p = cells σ !! p).
Proof.
  intros HB Hl Hrule [g Hg].
  eexists. split; [reflexivity |].
  assert (∀ s B0,
            Bucket.mu (remaining_after s B0) = Bucket.mu B0 ∧
            Bucket.Key (remaining_after s B0) = Bucket.Key B0 ∧
            Bucket.limit (remaining_after s B0) = Bucket.limit B0 ∧
            Bucket.global (remaining_after s B0) = Bucket.global B0 ∧
            Bucket.crlmut (remaining_after s B0) = Bucket.crlmut B0 ∧
            Bucket.customRateLimit (remaining_after s B0)
            = Bucket.customRateLimit B0) as Hrem.
  { intros s B0. unfold remaining_after.
    destruct (nonempty s); [| done]. by destruct (strconv.ParseInt s 32). }
  pose proof (clock_elapse σ) as Hclk1.
  go. destruct (Bucket.customRateLimit B) as [rl|] eqn:Hc.
  - destruct (Hrule rl eq_refl) as [RL HRL]. go.
    rewrite crlmut_round_trip by done.
    match goal with |- wp (when ?c _) _ _ => destruct c end; go.
    all: match goal with |- wp (when ?c _) _ _ => destruct c end; go.
    all: eexists; split; [by rewrite !insert_insert_eq |];
      store_simpl; rewrite ?Hc; repeat (split; [done || lia |]); done.
  - go. rewrite set_bucket_heap_twice, insert_insert_eq.
    rewrite crlmut_round_trip, set_bucket_heap_id by done.
    destruct headers as [h|].
    + apply wp_bind. unfold wp at 1.
      rewrite (update_reset_run ParseTime σ b B g) by done.
      destruct (reset_step_of ParseTime (reading 1 σ) _ _ _ _) as [e|t|t|].
      * go. exists B. rewrite insert_id by done. done.
      * unfold wp. rewrite (update_remaining_run _ b B) by done.
        destruct (Hrem (http.Get h "X-RateLimit-Remaining") B)
          as (? & ? & ? & ? & ? & ?).
        eexists. store_simpl. split; [reflexivity |].
        repeat (split; [congruence || done || lia |]).
        split; [by apply dom_insert_lookup_L |].
        intros p Hne. by rewrite lookup_insert_ne.
      * unfold wp.
        rewrite (update_remaining_run _ b (Bucket.set_reset t B))
          by (simpl; apply lookup_insert_eq).
        destruct (Hrem (http.Get h "X-RateLimit-Remaining")
                    (Bucket.set_reset t B))
          as (? & ? & ? & ? & ? & ?).
        eexists. store_simpl. rewrite insert_insert_eq.
        split; [reflexivity |].
        repeat (split; [congruence || done || lia |]). done.
      * unfold wp. rewrite (update_remaining_run _ b B) by done.
        destruct (Hrem (http.Get h "X-RateLimit-Remaining") B)
          as (? & ? & ? & ? & ? & ?).
        eexists. store_simpl. split; [reflexivity |].
        repeat (split; [congruence || done || lia |]). done.
    + go. exists B. rewrite insert_id by done. done.
Qed.

(** X4. [Release] of a checked-out bucket of a well-formed store returns
    whatever the headers are, with the slot free again and the store
    still well formed: the registry, the rules, the sleep log and every
    other bucket are as before, only the shared global cell can change,
    and the clock does not go back. *)
Theorem Release_keeps_well_formed ParseTime σ r R key b B headers :
  well_formed σ r R →
  RateLimiter.buckets R !! key = Some b →
  bucket_heap σ !! b = Some B →
  Bucket.mu B = true →
  ∃ err σ' B',
    Release ParseTime b headers σ = Returns err σ' ∧
    well_formed σ' r R ∧
    bucket_heap σ' !! b = Some B' ∧
    Bucket.mu B' = false ∧
    Bucket.limit B' = Bucket.limit B ∧
    Bucket.customRateLimit B' = Bucket.customRateLimit B ∧
    (∀ b', b' ≠ b → bucket_heap σ' !! b' = bucket_heap σ !! b') ∧
    (∀ p, p ≠ RateLimiter.global R → cells σ' !! p = cells σ !! p) ∧
    rules σ' = rules σ ∧ slept σ' = slept σ ∧ clock σ ≤ clock σ'.
Proof.
  intros Hwf Hk HB Hmu.
  destruct (wf_buckets _ _ _ Hwf key b Hk) as (B0 & HB0 & HK & HG & HL & HR).
  assert (B0 = B) as -> by congruence.
  destruct (Release_body ParseTime σ b B headers HB HL) as (body & -> & Hbody).
  { intros rl Hrl. destruct (HR rl Hrl) as (_ & RL & -> & _). by eexists. }
  { rewrite HG. apply Hwf. }
  apply wp_returns in Hbody
    as (err & σ1 & Hrun & B1 & Hh & Hm & HK1 & Hlim & HG1 & HL1 & HC1 & Hr
        & Hli & Hs & Hc & Hd & Hcells).
  exists err, (slot_freed b B1 σ1), (Bucket.set_mu false B1).
  assert (bucket_heap σ1 !! b = Some B1) as HB1.
  { rewrite Hh. apply lookup_insert_eq. }
  split.
  { unfold defer, bind. rewrite Hrun. unfold Bucket_Unlock.
    rewrite HB1, Hm, Hmu. unfold update_bucket. by rewrite HB1. }
  unfold slot_freed. store_simpl. split.
  { apply (well_formed_update σ _ r R b B (Bucket.set_mu false B1) Hwf HB);
      store_simpl; try done; try congruence.
    by rewrite Hh, insert_insert_eq. }
  split; [apply lookup_insert_eq |]. split; [done |].
  split; [done |]. split; [done |].
  split. { intros b' Hne. rewrite lookup_insert_ne by done.
           rewrite Hh. by apply lookup_insert_ne. }
  split. { intros p Hne. apply Hcells. congruence. }
  done.
Qed.

(** X5. [Release] of a bucket whose slot is not checked out is the runtime's
    fatal error for unlocking an unlocked mutex, whatever the headers
    are: a second [Release] after one [LockBucket] crashes the
    program. *)
Theorem Release_unheld_is_fatal ParseTime σ r R key b B headers :
  well_formed σ r R →
  RateLimiter.buckets R !! key = Some b →
  bucket_heap σ !! b = Some B →
  Bucket.mu B = false →
  Release ParseTime b headers σ = Fatal "sync: unlock of unlocked mutex".
Proof.
  intros Hwf Hk HB Hmu.
  destruct (wf_buckets _ _ _ Hwf key b Hk) as (B0 & HB0 & HK & HG & HL & HR).
  assert (B0 = B) as -> by congruence.
  destruct (Release_body ParseTime σ b B headers HB HL) as (body & -> & Hbody).
  { intros rl Hrl. destruct (HR rl Hrl) as (_ & RL & -> & _). by eexists. }
  { rewrite HG. apply Hwf. }
  apply wp_returns in Hbody
    as (err & σ1 & Hrun & B1 & Hh & Hm & _).
  unfold defer, bind. rewrite Hrun. unfold Bucket_Unlock.
  by rewrite Hh, lookup_insert_eq, Hm, Hmu.
Qed.

(** ** The configuration methods on a well-formed store *)

Lemma well_formed_crlmut σ r R key b :
  well_formed σ r R →
  RateLimiter.buckets R !! key = Some b →
  ∃ B, bucket_heap σ !! b = Some B ∧ Bucket.crlmut B = false ∧
       ∀ rl, Bucket.customRateLimit B = Some rl → is_Some (rules σ !! rl).
Proof.
  intros Hwf Hk.
  destruct (wf_buckets _ _ _ Hwf key b Hk) as (B & HB & _ & _ & HL & HR).
  exists B. split; [done |]. split; [done |].
  intros rl Hrl. destruct (HR rl Hrl) as (_ & RL & -> & _). by eexists.
Qed.

Lemma attach_fields rl s B :
  Bucket.Key (attach rl s B) = Bucket.Key B ∧
  Bucket.global (attach rl s B) = Bucket.global B ∧
  Bucket.mu (attach rl s B) = Bucket.mu B ∧
  Bucket.remaining (attach rl s B) = Bucket.remaining B ∧
  Bucket.reset (attach rl s B) = Bucket.reset B ∧
  Bucket.lastReset (attach rl s B) = Bucket.lastReset B ∧
  Bucket.customRateLimit (attach rl s B)
  = if strings.HasSuffix (Bucket.Key B) s then Some rl
    else Bucket.customRateLimit B.
Proof. unfold attach. by destruct (strings.HasSuffix (Bucket.Key B) s). Qed.

Lemma detach_fields rs s B :
  Bucket.Key (detach rs s B) = Bucket.Key B ∧
  Bucket.global (detach rs s B) = Bucket.global B ∧
  Bucket.mu (detach rs s B) = Bucket.mu B ∧
  Bucket.remaining (detach rs s B) = Bucket.remaining B ∧
  Bucket.reset (detach rs s B) = Bucket.reset B ∧
  Bucket.lastReset (detach rs s B) = Bucket.lastReset B ∧
  ∀ rl, Bucket.customRateLimit (detach rs s B) = Some rl →
        Bucket.customRateLimit B = Some rl ∧ has_suffix rs s rl = false.
Proof.
  unfold detach. destruct (Bucket.customRateLimit B) as [rl|] eqn:E.
  - destruct (has_suffix rs s rl) eqn:Es; simpl; rewrite ?E;
      do 6 (split; [done |]); intros rl' Hrl'; [done |].
    by injection Hrl' as <-.
  - rewrite E. do 6 (split; [done |]). done.
Qed.

(** What [SetCustomRateLimit] does to a well-formed store. *)
Lemma SetCustomRateLimit_effect σ r R s n d :
  well_formed σ r R →
  let found :=
    find_from (has_suffix (rules σ) s) 0 (RateLimiter.customRateLimits R) in
  let rl := match found with
            | Some (_, v) => v
            | None => fresh (dom (rules σ))
            end in
  let L' := match found with
            | Some _ => RateLimiter.customRateLimits R
            | None => (RateLimiter.customRateLimits R ++ [rl])%list
            end in
  ∃ σ',
    SetCustomRateLimit r s n d σ = Returns tt σ' ∧
    well_formed σ' r (RateLimiter.set_customRateLimits L' R) ∧
    rl ∈ L' ∧
    rules σ' = <[rl := customRateLimit.mk s n d]> (rules σ) ∧
    limiters σ'
    = <[r := RateLimiter.set_customRateLimits L' R]> (limiters σ) ∧
    cells σ' = cells σ ∧ clock σ' = clock σ ∧ pending σ' = pending σ ∧
    slept σ' = slept σ ∧
    ∀ b, bucket_heap σ' !! b
         = if decide (b ∈ (map_to_list (RateLimiter.buckets R)).*2)
           then attach rl s <$> bucket_heap σ !! b
           else bucket_heap σ !! b.
Proof.
  intros Hwf found rl L'.
  destruct (SetCustomRateLimit_run σ r R s n d) as (σ' & Hrun & Hσ' & Hheap).
  { apply Hwf. } { apply Hwf. } { apply Hwf. }
  { intros key b Hk.
    destruct (well_formed_crlmut σ r R key b Hwf Hk) as (B & ? & ? & _).
    eauto. }
  fold found rl L' in Hσ', Hheap.
  apply bucket_loop_frame in Hσ' as (Hclk & Hpend & Hsl & Hce & Hru & Hli).
  store_simpl.
  pose proof Hwf as [Hr Hmu Hg Hall Huniq Hbk].
  set (L := RateLimiter.customRateLimits R) in *.
  assert (rl ∈ L') as Hin.
  { subst rl L'. destruct found as [[k v]|] eqn:Ef.
    - apply find_from_Some in Ef as (j & _ & Hj & _).
      apply list_elem_of_lookup. eauto.
    - apply elem_of_app. right. apply list_elem_of_singleton. done. }
  assert (∀ x, is_Some (rules σ !! x) →
               customRateLimit.suffix
                 <$> <[rl := customRateLimit.mk s n d]> (rules σ) !! x
               = customRateLimit.suffix <$> rules σ !! x) as Hsuf.
  { intros x [RL HRL]. destruct (decide (x = rl)) as [-> | Hne].
    - rewrite lookup_insert_eq, HRL. simpl. f_equal.
      subst rl. destruct found as [[k v]|] eqn:Ef.
      + apply find_from_Some in Ef as (j & _ & _ & Hs & _).
        apply has_suffix_spec in Hs as (RL' & HRL' & <-). congruence.
      + exfalso. pose proof (is_fresh (dom (rules σ))) as Hf.
        apply not_elem_of_dom in Hf. congruence.
    - by rewrite lookup_insert_ne. }
  exists σ'. split; [exact Hrun |]. split.
  { split; store_simpl.
    - rewrite Hli. apply lookup_insert_eq.
    - done.
    - by rewrite Hce.
    - rewrite Hru. apply Forall_forall. intros x Hx.
      destruct (decide (x = rl)) as [-> | Hne].
      + rewrite lookup_insert_eq. by eexists.
      + rewrite lookup_insert_ne by done.
        rewrite Forall_forall in Hall. apply Hall.
        subst L'. destruct found; [done |].
        apply elem_of_app in Hx as [Hx | Hx]; [done |].
        apply list_elem_of_singleton in Hx. done.
    - unfold suffix_of in *. rewrite Hru.
      assert ((λ x, customRateLimit.suffix
                      <$> <[rl := customRateLimit.mk s n d]> (rules σ) !! x)
              <$> L
              = (λ x, customRateLimit.suffix <$> rules σ !! x) <$> L) as EL.
      { apply list_fmap_ext. intros i x Hi. apply Hsuf.
        rewrite Forall_forall in Hall. apply Hall.
        apply list_elem_of_lookup. eauto. }
      subst L'. destruct found as [[k v]|] eqn:Ef.
      + by rewrite EL.
      + rewrite fmap_app, EL. apply NoDup_app. split; [done |].
        split; [| apply NoDup_singleton].
        intros o Ho. simpl. rewrite lookup_insert_eq. simpl.
        intros Ho'. apply list_elem_of_singleton in Ho'. subst o.
        apply list_elem_of_fmap in Ho as (x & Hx & Hxin).
        pose proof (proj1 (find_from_None _ _ _) Ef x Hxin) as Hno.
        unfold has_suffix in Hno.
        destruct (rules σ !! x) as [RL|]; [| done].
        simpl in Hx. injection Hx as Hx. rewrite <- Hx in Hno.
        by rewrite String.eqb_refl in Hno.
    - intros key b Hk.
      destruct (Hbk key b Hk) as (B & HB & HK & HG & HC & HR).
      rewrite Hheap, decide_True by (apply elem_of_registry; eauto).
      rewrite HB. simpl. eexists. split; [reflexivity |]. unfold bucket_ok.
      destruct (attach_fields rl s B) as (-> & -> & _ & _ & _ & _ & Hatt).
      destruct (attach_frame rl s B) as (-> & _).
      split; [done |]. split; [done |]. split; [done |].
      intros x Hx. rewrite Hatt in Hx. rewrite Hru.
      destruct (strings.HasSuffix (Bucket.Key B) s) eqn:Es.
      + injection Hx as <-. split; [done |].
        rewrite lookup_insert_eq. eexists. split; [done |]. simpl. congruence.
      + destruct (HR x Hx) as (HxL & RL & HRL & Hm).
        split.
        { subst L'. destruct found; [done |]. apply elem_of_app. by left. }
        specialize (Hsuf x (mk_is_Some _ _ HRL)). rewrite HRL in Hsuf.
        destruct (<[rl:=customRateLimit.mk s n d]> (rules σ) !! x)
          as [RL'|]; [| done].
        simpl in Hsuf. injection Hsuf as Hsuf.
        exists RL'. split; [done |]. congruence. }
  split; [done |]. split; [done |]. split; [done |]. done.
Qed.

Lemma has_suffix_suffix_of σ s x :
  has_suffix (rules σ) s x = true ↔ suffix_of σ x = Some s.
Proof.
  unfold has_suffix, suffix_of. destruct (rules σ !! x) as [RL|]; simpl.
  - rewrite String.eqb_eq. split; congruence.
  - split; discriminate.
Qed.

(** Removing the one element that has a given image, from a list whose
    images are pairwise different. *)
Lemma elem_of_delete_unique {A B} (f : A → B) (L : list A) k v :
  NoDup (f <$> L) → L !! k = Some v →
  ∀ x, x ∈ delete k L ↔ x ∈ L ∧ f x ≠ f v.
Proof.
  intros Hnd Hk x. split.
  - intros Hx. split; [eapply elem_of_sublist, sublist_delete; exact Hx |].
    apply list_elem_of_lookup in Hx as [j Hj].
    rewrite list_lookup_delete in Hj. intros Hf.
    assert ((f <$> L) !! k = Some (f v)) as H1
      by (by rewrite list_lookup_fmap, Hk).
    destruct (decide (j < k)%nat) as [Hlt | Hge].
    + assert ((f <$> L) !! j = Some (f v)) as H2
        by (by rewrite list_lookup_fmap, Hj, <- Hf).
      pose proof (NoDup_lookup _ _ _ _ Hnd H1 H2). lia.
    + assert ((f <$> L) !! S j = Some (f v)) as H2
        by (by rewrite list_lookup_fmap, Hj, <- Hf).
      pose proof (NoDup_lookup _ _ _ _ Hnd H1 H2). lia.
  - intros [Hx Hf]. apply list_elem_of_lookup in Hx as [j Hj].
    assert (j ≠ k) as Hne by (intros ->; congruence).
    apply list_elem_of_lookup.
    destruct (decide (j < k)%nat) as [Hlt | Hge].
    + exists j. by rewrite list_lookup_delete_lt.
    + exists (pred j). rewrite list_lookup_delete_ge by lia.
      by replace (S (pred j)) with j by lia.
Qed.

(** What [RemoveCustomRateLimit] does to a well-formed store. *)
Lemma RemoveCustomRateLimit_effect σ r R s :
  well_formed σ r R →
  let L := RateLimiter.customRateLimits R in
  match find_from (has_suffix (rules σ) s) 0 L with
  | None =>
      RemoveCustomRateLimit r s σ
      = Returns (Some (errorString "err: custom rate limit not found")) σ
  | Some (k, v) =>
      ∃ σ',
        RemoveCustomRateLimit r s σ = Returns None σ' ∧
        well_formed σ' r (RateLimiter.set_customRateLimits (delete k L) R) ∧
        (∀ x, x ∈ delete k L ↔ x ∈ L ∧ suffix_of σ x ≠ Some s) ∧
        limiters σ'
        = <[r := RateLimiter.set_customRateLimits (delete k L) R]>
            (limiters σ) ∧
        rules σ' = rules σ ∧ cells σ' = cells σ ∧ clock σ' = clock σ ∧
        pending σ' = pending σ ∧ slept σ' = slept σ ∧
        ∀ b, bucket_heap σ' !! b
             = if decide (b ∈ (map_to_list (RateLimiter.buckets R)).*2)
               then detach (rules σ) s <$> bucket_heap σ !! b
               else bucket_heap σ !! b
  end.
Proof.
  intros Hwf L.
  pose proof (RemoveCustomRateLimit_run σ r R s) as Hrun.
  cbv zeta in Hrun. fold L in Hrun.
  pose proof Hwf as [Hr Hmu Hg Hall Huniq Hbk]. fold L in Hall, Huniq.
  destruct (find_from (has_suffix (rules σ) s) 0 L) as [[k v]|] eqn:Ef.
  - destruct Hrun as (σ' & Hrun & Hσ' & Hheap); try done.
    { intros key b Hk. by apply (well_formed_crlmut σ r R key b). }
    rewrite <- delete_take_drop in Hσ'.
    apply bucket_loop_frame in Hσ' as (Hclk & Hpend & Hsl & Hce & Hru & Hli).
    store_simpl.
    apply find_from_Some in Ef as (j & -> & Hj & Hs & _). simpl in *.
    apply has_suffix_suffix_of in Hs.
    assert (∀ x, x ∈ delete j L ↔ x ∈ L ∧ suffix_of σ x ≠ Some s) as Hdel.
    { intros x. rewrite <- Hs. by apply elem_of_delete_unique. }
    exists σ'. split; [exact Hrun |]. split.
    { split; store_simpl.
      - rewrite Hli. apply lookup_insert_eq.
      - done.
      - by rewrite Hce.
      - rewrite Hru. rewrite Forall_forall in *. intros x Hx.
        apply Hall. by apply Hdel.
      - unfold suffix_of in *. rewrite Hru.
        eapply sublist_NoDup; [exact Huniq |].
        apply fmap_sublist, sublist_delete.
      - intros key b Hk.
        destruct (Hbk key b Hk) as (B & HB & HK & HG & HC & HR).
        rewrite Hheap, decide_True by (apply elem_of_registry; eauto).
        rewrite HB. simpl. eexists. split; [reflexivity |].
        unfold bucket_ok.
        destruct (detach_fields (rules σ) s B)
          as (-> & -> & _ & _ & _ & _ & Hdet).
        destruct (detach_frame (rules σ) s B) as (-> & _).
        split; [done |]. split; [done |]. split; [done |].
        intros x Hx. destruct (Hdet x Hx) as [Hx' Hno]. rewrite Hru.
        destruct (HR x Hx') as (HxL & HRL). split; [| done].
        apply Hdel. split; [done |]. intros Hsx.
        apply has_suffix_suffix_of in Hsx. congruence. }
    done.
  - apply Hrun; try done.
    intros key b Hk. by apply (well_formed_crlmut σ r R key b).
Qed.

Lemma well_formed_one_rule_per_suffix σ r R x y :
  well_formed σ r R →
  x ∈ RateLimiter.customRateLimits R →
  y ∈ RateLimiter.customRateLimits R →
  suffix_of σ x = suffix_of σ y → x = y.
Proof.
  intros Hwf Hx Hy Hs.
  apply list_elem_of_lookup in Hx as [i Hi].
  apply list_elem_of_lookup in Hy as [j Hj].
  pose proof (wf_unique _ _ _ Hwf) as Hnd.
  assert (i = j) as ->.
  { apply (NoDup_lookup _ i j (suffix_of σ x) Hnd).
    - by rewrite list_lookup_fmap, Hi.
    - by rewrite list_lookup_fmap, Hj, Hs. }
  congruence.
Qed.

(** The same, with the rule and the new list named by what they are
    rather than by how the scan finds them. *)
Lemma SetCustomRateLimit_upsert σ r R s n d :
  well_formed σ r R →
  let L := RateLimiter.customRateLimits R in
  ∃ σ' rl L',
    SetCustomRateLimit r s n d σ = Returns tt σ' ∧
    well_formed σ' r (RateLimiter.set_customRateLimits L' R) ∧
    rules σ' = <[rl := customRateLimit.mk s n d]> (rules σ) ∧
    limiters σ'
    = <[r := RateLimiter.set_customRateLimits L' R]> (limiters σ) ∧
    cells σ' = cells σ ∧ clock σ' = clock σ ∧ pending σ' = pending σ ∧
    slept σ' = slept σ ∧
    (∀ b, bucket_heap σ' !! b
          = if decide (b ∈ (map_to_list (RateLimiter.buckets R)).*2)
            then attach rl s <$> bucket_heap σ !! b
            else bucket_heap σ !! b) ∧
    (L' = L ∧ rl ∈ L ∨ L' = (L ++ [rl])%list ∧ rules σ !! rl = None) ∧
    (∀ x, is_Some (rules σ !! x) → suffix_of σ' x = suffix_of σ x) ∧
    (∀ x, x ∈ L → suffix_of σ x = Some s → x = rl).
Proof.
  intros Hwf L.
  pose proof (SetCustomRateLimit_effect σ r R s n d Hwf) as H.
  cbv zeta in H. fold L in H.
  destruct (find_from (has_suffix (rules σ) s) 0 L) as [[k v]|] eqn:Ef.
  - destruct H as (σ' & Hrun & Hwf' & Hin & Hru & Hli & Hce & Hclk & Hpe & Hsl
                   & Hheap).
    exists σ', v, L. do 8 (split; [done |]). split; [exact Hheap |].
    apply find_from_Some in Ef as (j & _ & Hj & Hs & _).
    apply has_suffix_suffix_of in Hs.
    pose proof (wf_rules _ _ _ Hwf) as Hall. rewrite Forall_forall in Hall.
    split; [by left |]. split.
    + intros x [RL HRL]. unfold suffix_of in *. rewrite Hru.
      destruct (decide (x = v)) as [-> | Hne].
      * by rewrite lookup_insert_eq, Hs.
      * by rewrite lookup_insert_ne.
    + intros x Hx Hsx.
      apply (well_formed_one_rule_per_suffix σ r R); [done | done | done |].
      congruence.
  - destruct H as (σ' & Hrun & Hwf' & Hin & Hru & Hli & Hce & Hclk & Hpe & Hsl
                   & Hheap).
    set (rl := fresh (dom (rules σ))) in *.
    assert (rules σ !! rl = None) as Hfresh
      by (apply not_elem_of_dom, is_fresh).
    exists σ', rl, (L ++ [rl])%list. do 8 (split; [done |]).
    split; [exact Hheap |]. split; [by right |]. split.
    + intros x [RL HRL]. unfold suffix_of. rewrite Hru.
      rewrite lookup_insert_ne by congruence. done.
    + intros x Hx Hsx. apply has_suffix_suffix_of in Hsx.
      pose proof (proj1 (find_from_None _ _ _) Ef x Hx). congruence.
Qed.

(** X6. [SetCustomRateLimit] keeps the store well formed: afterwards the
    rule of the suffix is the only rule of the limiter with this suffix,
    it holds the given values, no other rule has changed and every rule
    that was registered still is; at most one rule is added. *)
Theorem SetCustomRateLimit_keeps_well_formed σ r R s n d :
  well_formed σ r R →
  ∃ σ' R' rl,
    SetCustomRateLimit r s n d σ = Returns tt σ' ∧
    well_formed σ' r R' ∧
    rl ∈ RateLimiter.customRateLimits R' ∧
    rules σ' !! rl = Some (customRateLimit.mk s n d) ∧
    (∀ x, x ∈ RateLimiter.customRateLimits R' →
          suffix_of σ' x = Some s → x = rl) ∧
    (∀ x, x ∈ RateLimiter.customRateLimits R →
          x ∈ RateLimiter.customRateLimits R') ∧
    (∀ x, x ≠ rl → rules σ' !! x = rules σ !! x) ∧
    (length (RateLimiter.customRateLimits R')
     ≤ S (length (RateLimiter.customRateLimits R)))%nat ∧
    RateLimiter.buckets R' = RateLimiter.buckets R ∧
    RateLimiter.global R' = RateLimiter.global R.
Proof.
  intros Hwf.
  destruct (SetCustomRateLimit_upsert σ r R s n d Hwf)
    as (σ' & rl & L' & Hrun & Hwf' & Hru & _ & _ & _ & _ & _ & _ & HL & _ & _).
  exists σ', (RateLimiter.set_customRateLimits L' R), rl.
  split; [exact Hrun |]. split; [exact Hwf' |]. store_simpl.
  assert (rl ∈ L') as Hin.
  { destruct HL as [[-> ?] | [-> _]]; [done |].
    apply elem_of_app. right. by apply list_elem_of_singleton. }
  assert (suffix_of σ' rl = Some s) as Hs.
  { unfold suffix_of. by rewrite Hru, lookup_insert_eq. }
  split; [exact Hin |].
  split; [rewrite Hru; apply lookup_insert_eq |].
  split.
  { intros x Hx Hsx.
    apply (well_formed_one_rule_per_suffix σ' r _ x rl Hwf');
      store_simpl; [done | done | congruence]. }
  split.
  { intros x Hx. destruct HL as [[-> ?] | [-> _]]; [done |].
    apply elem_of_app. by left. }
  split. { intros x Hne. rewrite Hru. by apply lookup_insert_ne. }
  split; [| done].
  destruct HL as [[-> ?] | [-> _]]; [lia |].
  rewrite length_app. simpl. lia.
Qed.

(** X7. A second [SetCustomRateLimit] with the same arguments changes
    nothing. *)
Theorem SetCustomRateLimit_idempotent σ r R s n d σ' :
  well_formed σ r R →
  SetCustomRateLimit r s n d σ = Returns tt σ' →
  SetCustomRateLimit r s n d σ' = Returns tt σ'.
Proof.
  intros Hwf Hrun.
  destruct (SetCustomRateLimit_upsert σ r R s n d Hwf)
    as (σ1 & rl & L' & Hrun1 & Hwf1 & Hru & Hli & Hce & Hclk & Hpe & Hsl
        & Hheap & HL & _ & _).
  assert (σ1 = σ') as -> by congruence.
  assert (rl ∈ L') as Hin.
  { destruct HL as [[-> ?] | [-> _]]; [done |].
    apply elem_of_app. right. by apply list_elem_of_singleton. }
  assert (suffix_of σ' rl = Some s) as Hs.
  { unfold suffix_of. by rewrite Hru, lookup_insert_eq. }
  destruct (SetCustomRateLimit_upsert σ' r _ s n d Hwf1)
    as (σ2 & rl2 & L2 & Hrun2 & _ & Hru2 & Hli2 & Hce2 & Hclk2 & Hpe2 & Hsl2
        & Hheap2 & HL2 & _ & Huniq2).
  store_simpl.
  assert (rl2 = rl) as -> by (symmetry; by apply Huniq2).
  assert (L2 = L') as ->.
  { destruct HL2 as [[-> _] | [_ Hnone]]; [done |].
    rewrite Hru, lookup_insert_eq in Hnone. discriminate. }
  rewrite Hrun2. f_equal. apply State_eq; try congruence.
  - by rewrite Hru2, Hru, insert_insert_eq.
  - apply map_eq. intros b. rewrite Hheap2, Hheap.
    destruct (decide (b ∈ (map_to_list (RateLimiter.buckets R)).*2));
      [| done].
    destruct (bucket_heap σ !! b) as [B|]; [| done]. simpl.
    by destruct (attach_frame rl s B) as [_ ->].
  - rewrite Hli2, Hli, insert_insert_eq. by destruct R.
Qed.

(** X8. [RemoveCustomRateLimit] keeps the store well formed: afterwards the
    limiter has the rules it had apart from the one with the suffix, and
    no registered bucket is attached to a rule that is not registered. *)
Theorem RemoveCustomRateLimit_keeps_well_formed σ r R s :
  well_formed σ r R →
  ∃ err σ' R',
    RemoveCustomRateLimit r s σ = Returns err σ' ∧
    well_formed σ' r R' ∧
    (∀ x, x ∈ RateLimiter.customRateLimits R'
          ↔ x ∈ RateLimiter.customRateLimits R ∧ suffix_of σ x ≠ Some s) ∧
    (∀ key b B rl,
       RateLimiter.buckets R' !! key = Some b →
       bucket_heap σ' !! b = Some B →
       Bucket.customRateLimit B = Some rl →
       rl ∈ RateLimiter.customRateLimits R' ∧ suffix_of σ' rl ≠ Some s) ∧
    RateLimiter.buckets R' = RateLimiter.buckets R ∧
    RateLimiter.global R' = RateLimiter.global R ∧
    rules σ' = rules σ ∧ cells σ' = cells σ.
Proof.
  intros Hwf.
  pose proof (RemoveCustomRateLimit_effect σ r R s Hwf) as H.
  cbv zeta in H.
  assert (∀ σ' R',
            well_formed σ' r R' → rules σ' = rules σ →
            (∀ x, x ∈ RateLimiter.customRateLimits R'
                  ↔ x ∈ RateLimiter.customRateLimits R
                    ∧ suffix_of σ x ≠ Some s) →
            ∀ key b B rl,
              RateLimiter.buckets R' !! key = Some b →
              bucket_heap σ' !! b = Some B →
              Bucket.customRateLimit B = Some rl →
              rl ∈ RateLimiter.customRateLimits R'
              ∧ suffix_of σ' rl ≠ Some s) as Hattached.
  { intros σ' R' Hwf' Hru Hmem key b B rl Hk HB Hrl.
    destruct (wf_buckets _ _ _ Hwf' key b Hk) as (B0 & HB0 & _ & _ & _ & HR).
    assert (B0 = B) as -> by congruence.
    destruct (HR rl Hrl) as [Hin _]. split; [done |].
    unfold suffix_of in *. rewrite Hru. by apply Hmem. }
  destruct (find_from (has_suffix (rules σ) s) 0
              (RateLimiter.customRateLimits R)) as [[k v]|] eqn:Ef.
  - destruct H as (σ' & Hrun & Hwf' & Hmem & _ & Hru & Hce & _).
    eexists _, σ', _. split; [exact Hrun |]. split; [exact Hwf' |].
    store_simpl. split; [exact Hmem |].
    split; [exact (Hattached σ' _ Hwf' Hru Hmem) |]. done.
  - eexists _, σ, R. split; [exact H |]. split; [exact Hwf |].
    assert (∀ x, x ∈ RateLimiter.customRateLimits R
                 ↔ x ∈ RateLimiter.customRateLimits R
                   ∧ suffix_of σ x ≠ Some s) as Hmem.
    { intros x. split; [| tauto]. intros Hx. split; [done |].
      intros Hs. apply has_suffix_suffix_of in Hs.
      pose proof (proj1 (find_from_None _ _ _) Ef x Hx). congruence. }
    split; [exact Hmem |].
    split; [exact (Hattached σ R Hwf eq_refl Hmem) |]. done.
Qed.

(** X9. After one [RemoveCustomRateLimit] of a suffix, whatever it returned,
    a second one returns the not-found error and changes nothing. *)
Theorem RemoveCustomRateLimit_second_is_not_found σ r R s err σ' :
  well_formed σ r R →
  RemoveCustomRateLimit r s σ = Returns err σ' →
  RemoveCustomRateLimit r s σ'
  = Returns (Some (errorString "err: custom rate limit not found")) σ'.
Proof.
  intros Hwf Hrun.
  pose proof (RemoveCustomRateLimit_effect σ r R s Hwf) as H.
  cbv zeta in H.
  destruct (find_from (has_suffix (rules σ) s) 0
              (RateLimiter.customRateLimits R)) as [[k v]|] eqn:Ef.
  - destruct H as (σ1 & Hrun1 & Hwf1 & Hmem & _ & Hru & _).
    assert (σ1 = σ') as -> by congruence.
    pose proof (RemoveCustomRateLimit_effect σ' r _ s Hwf1) as H2.
    cbv zeta in H2. store_simpl.
    replace (find_from (has_suffix (rules σ') s) 0
               (delete k (RateLimiter.customRateLimits R)))
      with (@None (nat * loc)) in H2; [exact H2 |].
    symmetry. apply find_from_None. intros x Hx.
    apply Hmem in Hx as [_ Hx].
    destruct (has_suffix (rules σ') s x) eqn:E; [| done].
    rewrite Hru in E. apply has_suffix_suffix_of in E. done.
  - assert (σ' = σ) as -> by congruence. exact H.
Qed.

(** X10. [SetCustomRateLimit] followed by [RemoveCustomRateLimit] of the same
    suffix: the removal succeeds, the limiter keeps the rules of other
    suffixes only, and every registered bucket whose key ends in the
    suffix is left without a rule, whatever rule it had before; the
    other buckets are as they were. *)
Theorem SetCustomRateLimit_then_Remove σ r R s n d :
  well_formed σ r R →
  ∃ σ1 σ2 R2,
    SetCustomRateLimit r s n d σ = Returns tt σ1 ∧
    RemoveCustomRateLimit r s σ1 = Returns None σ2 ∧
    well_formed σ2 r R2 ∧
    (∀ x, x ∈ RateLimiter.customRateLimits R2
          ↔ x ∈ RateLimiter.customRateLimits R ∧ suffix_of σ x ≠ Some s) ∧
    RateLimiter.buckets R2 = RateLimiter.buckets R ∧
    (∀ key b B,
       RateLimiter.buckets R !! key = Some b →
       bucket_heap σ !! b = Some B →
       bucket_heap σ2 !! b
       = Some (if strings.HasSuffix key s
               then Bucket.set_customRateLimit None B else B)).
Proof.
  intros Hwf.
  destruct (SetCustomRateLimit_upsert σ r R s n d Hwf)
    as (σ1 & rl & L' & Hrun1 & Hwf1 & Hru & _ & _ & _ & _ & _ & Hheap & HL
        & Hsuf & Huniq).
  assert (rl ∈ L') as Hin.
  { destruct HL as [[-> ?] | [-> _]]; [done |].
    apply elem_of_app. right. by apply list_elem_of_singleton. }
  assert (suffix_of σ1 rl = Some s) as Hs.
  { unfold suffix_of. by rewrite Hru, lookup_insert_eq. }
  pose proof (wf_rules _ _ _ Hwf) as Hall. rewrite Forall_forall in Hall.
  pose proof (RemoveCustomRateLimit_effect σ1 r _ s Hwf1) as H.
  cbv zeta in H. store_simpl.
  destruct (find_from (has_suffix (rules σ1) s) 0 L') as [[k v]|] eqn:Ef.
  2: { pose proof (proj1 (find_from_None _ _ _) Ef rl Hin) as Hno.
       apply has_suffix_suffix_of in Hs. congruence. }
  destruct H as (σ2 & Hrun2 & Hwf2 & Hmem & _ & Hru2 & _ & _ & _ & _ & Hheap2).
  eexists σ1, σ2, _. split; [exact Hrun1 |]. split; [exact Hrun2 |].
  split; [exact Hwf2 |]. store_simpl. split.
  { intros x. rewrite Hmem. split.
    - intros [Hx Hsx].
      assert (x ∈ RateLimiter.customRateLimits R) as HxL.
      { destruct HL as [[-> ?] | [-> _]]; [done |].
        apply elem_of_app in Hx as [Hx | Hx]; [done |].
        apply list_elem_of_singleton in Hx. congruence. }
      split; [done |]. rewrite <- (Hsuf x) by auto. done.
    - intros [Hx Hsx]. split.
      + destruct HL as [[-> ?] | [-> _]]; [done |].
        apply elem_of_app. by left.
      + rewrite (Hsuf x) by auto. done. }
  split; [done |].
  intros key b B Hk HB.
  destruct (wf_buckets _ _ _ Hwf key b Hk) as (B0 & HB0 & HK & _ & _ & HR).
  assert (B0 = B) as -> by congruence.
  rewrite Hheap2, decide_True by (apply elem_of_registry; eauto).
  rewrite Hheap, decide_True by (apply elem_of_registry; eauto).
  rewrite HB. simpl. f_equal. unfold attach. rewrite HK.
  destruct (strings.HasSuffix key s) eqn:Ekey.
  - unfold detach. simpl.
    apply has_suffix_suffix_of in Hs. rewrite Hs. by destruct B.
  - unfold detach. destruct (Bucket.customRateLimit B) as [x|] eqn:Ex;
      [| done].
    destruct (HR x eq_refl) as (HxL & RL & HRL & Hm).
    destruct (has_suffix (rules σ1) s x) eqn:E; [| done].
    apply has_suffix_suffix_of in E. rewrite (Hsuf x) in E by eauto.
    unfold suffix_of in E. rewrite HRL in E. simpl in E.
    injection E as E. congruence.
Qed.

(** ** Calls one after the other *)

Lemma remaining_after_fields s B :
  Bucket.mu (remaining_after s B) = Bucket.mu B ∧
  Bucket.Key (remaining_after s B) = Bucket.Key B ∧
  Bucket.limit (remaining_after s B) = Bucket.limit B ∧
  Bucket.reset (remaining_after s B) = Bucket.reset B ∧
  Bucket.global (remaining_after s B) = Bucket.global B ∧
  Bucket.crlmut (remaining_after s B) = Bucket.crlmut B ∧
  Bucket.lastReset (remaining_after s B) = Bucket.lastReset B ∧
  Bucket.customRateLimit (remaining_after s B) = Bucket.customRateLimit B.
Proof.
  unfold remaining_after.
  destruct (nonempty s); [| done]. by destruct (strconv.ParseInt s 32).
Qed.

(** X11. A throttle that one response declares global holds up the next call
    on every key: after [Release] with Retry-After and the global flag,
    [LockBucket] on any key with a free slot returns no earlier than the
    instant the response asked for. *)
Theorem global_throttle_reaches_every_key ParseTime σ r R key b B h n key' :
  well_formed σ r R →
  RateLimiter.buckets R !! key = Some b →
  bucket_heap σ !! b = Some B →
  Bucket.mu B = true →
  Bucket.customRateLimit B = None →
  http.Get h "Retry-After" ≠ "" →
  strconv.ParseInt (http.Get h "Retry-After") 64 = inl n →
  http.Get h "X-RateLimit-Global" ≠ "" →
  (∀ b' B', RateLimiter.buckets R !! key' = Some b' → b' ≠ b →
            bucket_heap σ !! b' = Some B' → Bucket.mu B' = false) →
  let resetAt := time.Add (reading 1 σ) (int.mul n time.Millisecond) in
  int.fits64 resetAt →
  resetAt - clock σ ≤ time.maxDuration →
  ∃ err σ1 b' σ2,
    Release ParseTime b (Some h) σ = Returns err σ1 ∧
    cells σ1 !! RateLimiter.global R = Some resetAt ∧
    LockBucket r key' σ1 = Returns b' σ2 ∧
    resetAt ≤ clock σ2.
Proof.
  intros Hwf Hk HB Hmu Hc Hra Hn Hgl Hfree resetAt Hfits Hnear.
  destruct (wf_buckets _ _ _ Hwf key b Hk) as (B0 & HB0 & HK & HG & HL & _).
  assert (B0 = B) as -> by congruence.
  destruct (wf_global _ _ _ Hwf) as [g Hg].
  pose proof (Release_headers_run ParseTime σ b B g h HB Hc Hmu HL) as Hrun.
  rewrite HG in Hrun. specialize (Hrun Hg). cbv zeta in Hrun.
  unfold reset_step_of in Hrun.
  rewrite (proj2 (nonempty_true _) Hra), Hn,
    (proj2 (nonempty_true _) Hgl) in Hrun.
  fold resetAt in Hrun.
  set (rem := http.Get h "X-RateLimit-Remaining") in *.
  destruct (remaining_after_fields rem B)
    as (Em & EK & _ & _ & EG & EL & _ & EC).
  set (σ1 := slot_freed b (remaining_after rem B)
               (set_cells (<[RateLimiter.global R:=time.UnixNano resetAt]>
                             (cells σ)) (elapse σ))) in *.
  assert (time.UnixNano resetAt = resetAt) as Hnano
    by (by apply wrap64_fits).
  assert (well_formed σ1 r R) as Hwf1.
  { apply (well_formed_update σ σ1 r R b B
             (Bucket.set_mu false (remaining_after rem B)) Hwf HB);
      subst σ1; unfold slot_freed; store_simpl; try done.
    apply dom_insert_lookup_L. by eexists. }
  assert (cells σ1 !! RateLimiter.global R = Some resetAt) as Hg1.
  { subst σ1. unfold slot_freed. store_simpl.
    by rewrite lookup_insert_eq, Hnano. }
  destruct (getBucket_well_formed σ1 r R key' Hwf1)
    as (b' & σ1' & R1 & B1 & Hget & Hwf1' & Hk1 & HB1 & Hreg & Hnew & _ & _
        & HG1 & _ & _ & Hcells & Hclk & _ & _).
  assert (Bucket.mu B1 = false) as HmuB1.
  { destruct (RateLimiter.buckets R !! key') as [b0|] eqn:Hk'.
    - destruct (Hreg b0 eq_refl) as [-> ->].
      subst σ1. unfold slot_freed in HB1. store_simpl.
      destruct (decide (b' = b)) as [-> | Hne].
      + rewrite lookup_insert_eq in HB1. by injection HB1 as <-.
      + rewrite lookup_insert_ne in HB1 by done. by apply (Hfree b' B1).
    - by apply Hnew. }
  assert (cells σ1' !! RateLimiter.global R1 = Some resetAt) as Hg1'
    by (by rewrite Hcells, HG1).
  pose proof (LockBucket_run σ1 r key' b' σ1' R1 B1 resetAt Hget
                (wf_limiter _ _ _ Hwf1') Hg1' HB1 HmuB1) as Hlock.
  eexists _, σ1, b', _. split; [exact Hrun |]. split; [exact Hg1 |].
  split; [exact Hlock |]. store_simpl.
  pose proof (bucket_wait_clock B1 σ1') as [Hw1 _].
  destruct (global_wait_clock resetAt (bucket_wait B1 σ1')) as [_ Hw2].
  assert (clock σ ≤ clock σ1') as Hw0.
  { rewrite Hclk. subst σ1. unfold slot_freed. store_simpl. lia. }
  rewrite (Unix_nano resetAt Hfits) in Hw2. apply Hw2. lia.
Qed.

(** X12. A request whose response never came: [LockBucket] then
    [Release(nil)] on a registered bucket without a rule whose slot is
    free gives the slot back and costs one unit of [remaining]; nothing
    else in the heaps has changed. *)
Theorem LockBucket_then_Release_nil ParseTime σ r R key b B :
  well_formed σ r R →
  RateLimiter.buckets R !! key = Some b →
  bucket_heap σ !! b = Some B →
  Bucket.mu B = false →
  Bucket.customRateLimit B = None →
  ∃ σ1 σ2,
    LockBucket r key σ = Returns b σ1 ∧
    Release ParseTime b None σ1 = Returns None σ2 ∧
    well_formed σ2 r R ∧
    bucket_heap σ2
    = <[b := Bucket.set_remaining (int.sub (Bucket.remaining B) 1) B]>
        (bucket_heap σ) ∧
    rules σ2 = rules σ ∧ cells σ2 = cells σ ∧ limiters σ2 = limiters σ ∧
    clock σ ≤ clock σ2.
Proof.
  intros Hwf Hk HB Hmu Hc.
  destruct (wf_buckets _ _ _ Hwf key b Hk) as (B0 & HB0 & HK & HG & HL & _).
  assert (B0 = B) as -> by congruence.
  destruct (wf_global _ _ _ Hwf) as [g Hg].
  pose proof (getBucket_registered σ r R key b (wf_limiter _ _ _ Hwf)
                (wf_unlocked _ _ _ Hwf) Hk) as Hget.
  pose proof (LockBucket_run σ r key b σ R B g Hget (wf_limiter _ _ _ Hwf)
                Hg HB Hmu) as Hlock.
  set (B1 := Bucket.set_remaining (int.sub (Bucket.remaining B) 1)
               (Bucket.set_mu true B)) in *.
  set (σ1 := set_bucket_heap (<[b:=B1]> (bucket_heap σ))
               (global_wait g (bucket_wait B σ))) in *.
  destruct (bucket_wait_frame B σ) as (Hc1 & Hr1 & Hh1 & Hl1).
  destruct (global_wait_frame g (bucket_wait B σ)) as (Hc2 & Hr2 & Hh2 & Hl2).
  assert (bucket_heap σ1 !! b = Some B1) as HB1
    by (subst σ1; store_simpl; apply lookup_insert_eq).
  pose proof (Release_nil_run ParseTime σ1 b B1 HB1 Hc eq_refl HL) as Hrel.
  exists σ1, (slot_freed b B1 σ1).
  split; [exact Hlock |]. split; [exact Hrel |].
  assert (Bucket.set_mu false B1
          = Bucket.set_remaining (int.sub (Bucket.remaining B) 1) B) as EB.
  { subst B1. destruct B. simpl in *. by subst. }
  assert (bucket_heap (slot_freed b B1 σ1)
          = <[b := Bucket.set_remaining (int.sub (Bucket.remaining B) 1) B]>
              (bucket_heap σ)) as Hheap.
  { subst σ1. unfold slot_freed. store_simpl.
    by rewrite insert_insert_eq, EB. }
  assert (rules (slot_freed b B1 σ1) = rules σ) as Hru
    by (subst σ1; unfold slot_freed; store_simpl; congruence).
  assert (cells (slot_freed b B1 σ1) = cells σ) as Hce
    by (subst σ1; unfold slot_freed; store_simpl; congruence).
  assert (limiters (slot_freed b B1 σ1) = limiters σ) as Hli
    by (subst σ1; unfold slot_freed; store_simpl; congruence).
  split.
  { apply (well_formed_update σ _ r R b B _ Hwf HB Hheap); try done.
    by rewrite Hce. }
  split; [exact Hheap |]. split; [exact Hru |]. split; [exact Hce |].
  split; [exact Hli |].
  subst σ1. unfold slot_freed. store_simpl.
  pose proof (bucket_wait_clock B σ) as [Hw1 _].
  pose proof (global_wait_clock g (bucket_wait B σ)) as [Hw2 _].
  pose proof (clock_elapse (bucket_wait B σ)) as Hw3.
  unfold reading in Hw2. cbv [Nat.iter nat_rect] in Hw2. lia.
Qed.

(** ** What the parsed headers can hold *)

(** X13. When [Release] takes a remaining count from the headers and returns
    no error, the count it leaves in the bucket is a 32-bit integer,
    however long the header's digits are. *)
Theorem Release_remaining_is_int32 ParseTime σ r R key b B h σ' :
  well_formed σ r R →
  RateLimiter.buckets R !! key = Some b →
  bucket_heap σ !! b = Some B →
  Bucket.mu B = true →
  Bucket.customRateLimit B = None →
  http.Get h "X-RateLimit-Remaining" ≠ "" →
  Release ParseTime b (Some h) σ = Returns None σ' →
  ∃ B', bucket_heap σ' !! b = Some B' ∧
        strconv.ParseInt (http.Get h "X-RateLimit-Remaining") 32
        = inl (Bucket.remaining B') ∧
        - 2 ^ 31 ≤ Bucket.remaining B' < 2 ^ 31.
Proof.
  intros Hwf Hk HB Hmu Hc Hrem Hrun.
  destruct (wf_buckets _ _ _ Hwf key b Hk) as (B0 & HB0 & HK & HG & HL & _).
  assert (B0 = B) as -> by congruence.
  destruct (wf_global _ _ _ Hwf) as [g Hg]. rewrite <- HG in Hg.
  pose proof (Release_headers_run ParseTime σ b B g h HB Hc Hmu HL Hg) as E.
  cbv zeta in E. rewrite Hrun in E.
  set (rem := http.Get h "X-RateLimit-Remaining") in *.
  apply nonempty_true in Hrem.
  assert (∀ B0, remaining_error rem = None →
                strconv.ParseInt rem 32
                = inl (Bucket.remaining
                         (Bucket.set_mu false (remaining_after rem B0))))
    as Hparsed.
  { intros B1. unfold remaining_error, remaining_after. rewrite Hrem.
    by destruct (strconv.ParseInt rem 32). }
  assert (∀ B0 σ0, Returns None σ' = Returns (remaining_error rem)
                                       (slot_freed b (remaining_after rem B0)
                                                   σ0) →
            ∃ B', bucket_heap σ' !! b = Some B' ∧
                  strconv.ParseInt rem 32 = inl (Bucket.remaining B') ∧
                  - 2 ^ 31 ≤ Bucket.remaining B' < 2 ^ 31) as Hcase.
  { intros B1 σ0 [= Herr ->].
    exists (Bucket.set_mu false (remaining_after rem B1)).
    split; [unfold slot_freed; store_simpl; apply lookup_insert_eq |].
    pose proof (Hparsed B1 (eq_sym Herr)) as Hp. split; [exact Hp |].
    apply (ParseInt_range rem 32) in Hp; [| lia]. exact Hp. }
  destruct (reset_step_of ParseTime (reading 1 σ) _ _ _ _) as [e|t|t|];
    [discriminate | eauto ..].
Qed.

(** X14. The first [Release] of a bucket created under a custom rule
    opens the rule's first window, whatever the rule's period: the
    bucket's [lastReset] is the zero time, and the time since then
    saturates to the longest duration.  [remaining] becomes
    [rule.requests - 1] and [lastReset] the second clock reading; when
    that leaves [remaining] below 1, [reset] becomes the third reading
    plus [rule.reset], and it keeps its value otherwise. *)
Theorem Release_custom_first_window ParseTime σ r R key b B rl RL headers :
  well_formed σ r R →
  RateLimiter.buckets R !! key = Some b →
  bucket_heap σ !! b = Some B →
  Bucket.mu B = true →
  Bucket.customRateLimit B = Some rl →
  rules σ !! rl = Some RL →
  Bucket.lastReset B = time.zero →
  0 ≤ clock σ →
  customRateLimit.reset RL ≤ time.maxDuration →
  ∃ σ' B',
    Release ParseTime b headers σ = Returns None σ' ∧
    bucket_heap σ' !! b = Some B' ∧
    Bucket.mu B' = false ∧
    Bucket.remaining B' = int.sub (customRateLimit.requests RL) 1 ∧
    Bucket.lastReset B' = reading 2 σ ∧
    (Bucket.remaining B' < 1 →
     Bucket.reset B' = reading 3 σ + customRateLimit.reset RL) ∧
    (1 ≤ Bucket.remaining B' → Bucket.reset B' = Bucket.reset B).
Proof.
  intros Hwf Hk HB Hmu Hc HRL Hzero Hclk Hper.
  destruct (wf_buckets _ _ _ Hwf key b Hk) as (B0 & HB0 & HK & HG & HL & _).
  assert (B0 = B) as -> by congruence.
  assert (time.Sub (reading 1 σ) (Bucket.lastReset B) = time.maxDuration)
    as Hsince.
  { rewrite Hzero. unfold reading, time.Sub, int.clamp64, time.zero,
      time.Second, time.Millisecond, time.Microsecond, time.Nanosecond,
      time.maxDuration, int.MinInt64, int.MaxInt64.
    cbv [Nat.iter nat_rect]. pose proof (clock_elapse σ).
    destruct (Z.ltb_spec (clock (elapse σ)
                          - -62135596800 * (1000 * (1000 * (1000 * 1))))
                (- 2 ^ 63)); [lia |].
    destruct (Z.ltb_spec (2 ^ 63 - 1)
                (clock (elapse σ)
                 - -62135596800 * (1000 * (1000 * (1000 * 1))))); lia. }
  match goal with
  | |- ∃ σ' B', _ = Returns None σ' ∧ @?Q σ' B' =>
      cut (wp (Release ParseTime b headers) σ
             (λ a σ', a = None ∧ ∃ B', Q σ' B'))
  end.
  { intros Hw. apply wp_returns in Hw as (a & σ' & E & -> & B' & HQ).
    eauto. }
  cbv beta. unfold Release. go. rewrite Hc. go.
  rewrite crlmut_round_trip by done.
  unfold reading in *. cbv [Nat.iter nat_rect] in *. simpl in Hsince.
  rewrite Hsince.
  destruct (Z.leb_spec (customRateLimit.reset RL) time.maxDuration);
    [| lia].
  go.
  destruct (Z.ltb_spec (int.sub (customRateLimit.requests RL) 1) 1);
    go; (split; [done |]); eexists;
    (split; [rewrite ?insert_insert_eq; apply lookup_insert_eq |]);
    store_simpl; repeat split; try done; lia.
Qed.

(** * The further properties at the sample stores *)

Lemma started_well_formed : well_formed started 1 new_limiter_record.
Proof.
  split.
  - reflexivity.
  - reflexivity.
  - exists 0. reflexivity.
  - constructor.
  - constructor.
  - intros key b Hk. cbn [RateLimiter.buckets new_limiter_record] in Hk.
    by rewrite lookup_empty in Hk.
Qed.

Lemma held_well_formed : well_formed held 1 xyz_limiter.
Proof.
  split.
  - reflexivity.
  - reflexivity.
  - exists 0. reflexivity.
  - constructor.
  - constructor.
  - intros key b Hk. apply singleton_registry in Hk as [-> ->].
    exists xyz_held. split; [reflexivity |].
    split; [reflexivity |]. split; [reflexivity |].
    split; [reflexivity |]. intros rl Hrl. discriminate.
Qed.

Lemma idle_well_formed : well_formed idle 1 xyz_limiter.
Proof.
  apply (well_formed_update held idle 1 xyz_limiter 1 xyz_held
           (Bucket.set_mu false xyz_held) held_well_formed); reflexivity.
Qed.

Lemma held_ruled_well_formed : well_formed held_ruled 1 emoji_limiter.
Proof.
  split.
  - reflexivity.
  - reflexivity.
  - exists 0. reflexivity.
  - apply Forall_cons. split; [| constructor].
    exists reactions_rule. reflexivity.
  - apply NoDup_singleton.
  - intros key b Hk. apply singleton_registry in Hk as [-> ->].
    exists emoji_held. split; [reflexivity |].
    split; [reflexivity |]. split; [reflexivity |].
    split; [reflexivity |]. intros rl [= <-].
    split; [apply list_elem_of_singleton; reflexivity |].
    exists reactions_rule. split; [reflexivity |]. vm_compute. reflexivity.
Qed.

Lemma held_strict_well_formed : well_formed held_strict 1 emoji_limiter.
Proof.
  split.
  - reflexivity.
  - reflexivity.
  - exists 0. reflexivity.
  - apply Forall_cons. split; [| constructor].
    exists strict_rule. reflexivity.
  - apply NoDup_singleton.
  - intros key b Hk. apply singleton_registry in Hk as [-> ->].
    exists emoji_held. split; [reflexivity |].
    split; [reflexivity |]. split; [reflexivity |].
    split; [reflexivity |]. intros rl [= <-].
    split; [apply list_elem_of_singleton; reflexivity |].
    exists strict_rule. split; [reflexivity |]. vm_compute. reflexivity.
Qed.

(** X2 at [started]: the first [LockBucket("xyz")] registers the key and
    leaves a well-formed store. *)
Lemma LockBucket_keeps_well_formed_witness :
  well_formed started 1 new_limiter_record ∧
  ∃ b σ' R',
    LockBucket 1 "xyz" started = Returns b σ' ∧
    well_formed σ' 1 R' ∧
    RateLimiter.buckets R' !! "xyz" = Some b.
Proof.
  split; [exact started_well_formed |].
  destruct (LockBucket_keeps_well_formed started 1 new_limiter_record "xyz"
              started_well_formed)
    as (b & σ' & R' & B' & Hrun & Hwf & Hk & _).
  { intros b B Hb. cbn [RateLimiter.buckets new_limiter_record] in Hb.
    rewrite lookup_empty in Hb. discriminate. }
  exists b, σ', R'. split; [exact Hrun |]. split; [exact Hwf | exact Hk].
Defined.

(** X3 at [held]: "xyz" is checked out. *)
Lemma LockBucket_blocks_while_held_witness :
  (well_formed held 1 xyz_limiter ∧
   RateLimiter.buckets xyz_limiter !! "xyz" = Some 1%positive ∧
   bucket_heap held !! 1%positive = Some xyz_held ∧
   Bucket.mu xyz_held = true) ∧
  LockBucket 1 "xyz" held = Blocks.
Proof.
  split; [split; [exact held_well_formed | repeat split] |].
  apply (LockBucket_blocks_while_held held 1 xyz_limiter "xyz" 1 xyz_held
           held_well_formed); reflexivity.
Defined.

(** X4 at [held]: [Release] with Retry-After: 2000. *)
Lemma Release_keeps_well_formed_witness :
  (well_formed held 1 xyz_limiter ∧
   RateLimiter.buckets xyz_limiter !! "xyz" = Some 1%positive ∧
   bucket_heap held !! 1%positive = Some xyz_held ∧
   Bucket.mu xyz_held = true) ∧
  ∃ err σ' B',
    Release sample_ParseTime 1 (Some retry_2s) held = Returns err σ' ∧
    well_formed σ' 1 xyz_limiter ∧
    bucket_heap σ' !! 1%positive = Some B' ∧
    Bucket.mu B' = false.
Proof.
  split; [split; [exact held_well_formed | repeat split] |].
  destruct (Release_keeps_well_formed sample_ParseTime held 1 xyz_limiter
              "xyz" 1 xyz_held (Some retry_2s) held_well_formed eq_refl
              eq_refl eq_refl)
    as (err & σ' & B' & Hrun & Hwf & HB' & Hmu & _).
  exists err, σ', B'. split; [exact Hrun |]. split; [exact Hwf |].
  split; [exact HB' | exact Hmu].
Defined.

(** X5 at [idle]: the slot of "xyz" is free. *)
Lemma Release_unheld_is_fatal_witness :
  (well_formed idle 1 xyz_limiter ∧
   RateLimiter.buckets xyz_limiter !! "xyz" = Some 1%positive ∧
   bucket_heap idle !! 1%positive = Some (Bucket.set_mu false xyz_held) ∧
   Bucket.mu (Bucket.set_mu false xyz_held) = false) ∧
  Release sample_ParseTime 1 (Some remaining_5) idle
  = Fatal "sync: unlock of unlocked mutex".
Proof.
  split; [split; [exact idle_well_formed | repeat split] |].
  apply (Release_unheld_is_fatal sample_ParseTime idle 1 xyz_limiter "xyz" 1
           (Bucket.set_mu false xyz_held) (Some remaining_5)
           idle_well_formed); reflexivity.
Defined.

(** X6 at [held]: a rule for the suffix "yz". *)
Lemma SetCustomRateLimit_keeps_well_formed_witness :
  well_formed held 1 xyz_limiter ∧
  ∃ σ' R' rl,
    SetCustomRateLimit 1 "yz" 3 (100 * time.Millisecond) held
    = Returns tt σ' ∧
    well_formed σ' 1 R' ∧
    rules σ' !! rl
    = Some (customRateLimit.mk "yz" 3 (100 * time.Millisecond)).
Proof.
  split; [exact held_well_formed |].
  destruct (SetCustomRateLimit_keeps_well_formed held 1 xyz_limiter "yz" 3
              (100 * time.Millisecond) held_well_formed)
    as (σ' & R' & rl & Hrun & Hwf & _ & Hrl & _).
  exists σ', R', rl. split; [exact Hrun |]. split; [exact Hwf | exact Hrl].
Defined.

(** X7 at [held]: the same rule set twice. *)
Lemma SetCustomRateLimit_idempotent_witness :
  ∃ σ',
    (well_formed held 1 xyz_limiter ∧
     SetCustomRateLimit 1 "yz" 3 (100 * time.Millisecond) held
     = Returns tt σ') ∧
    SetCustomRateLimit 1 "yz" 3 (100 * time.Millisecond) σ' = Returns tt σ'.
Proof.
  destruct (SetCustomRateLimit 1 "yz" 3 (100 * time.Millisecond) held)
    as [[] σ'| |] eqn:E;
    [| vm_compute in E; discriminate | vm_compute in E; discriminate].
  exists σ'. split; [split; [exact held_well_formed | reflexivity] |].
  exact (SetCustomRateLimit_idempotent held 1 xyz_limiter "yz" 3
           (100 * time.Millisecond) σ' held_well_formed E).
Defined.

(** X8 at [held_ruled]: the rule "//reactions//" is removed. *)
Lemma RemoveCustomRateLimit_keeps_well_formed_witness :
  well_formed held_ruled 1 emoji_limiter ∧
  ∃ err σ' R',
    RemoveCustomRateLimit 1 "//reactions//" held_ruled = Returns err σ' ∧
    well_formed σ' 1 R' ∧
    ¬ 1%positive ∈ RateLimiter.customRateLimits R'.
Proof.
  split; [exact held_ruled_well_formed |].
  destruct (RemoveCustomRateLimit_keeps_well_formed held_ruled 1
              emoji_limiter "//reactions//" held_ruled_well_formed)
    as (err & σ' & R' & Hrun & Hwf & Hmem & _).
  exists err, σ', R'. split; [exact Hrun |]. split; [exact Hwf |].
  intros Hin. apply Hmem in Hin as [_ Hne]. apply Hne.
  vm_compute. reflexivity.
Defined.

(** X9 at [held_ruled]: the rule "//reactions//" removed twice. *)
Lemma RemoveCustomRateLimit_second_is_not_found_witness :
  ∃ err σ',
    (well_formed held_ruled 1 emoji_limiter ∧
     RemoveCustomRateLimit 1 "//reactions//" held_ruled = Returns err σ') ∧
    RemoveCustomRateLimit 1 "//reactions//" σ'
    = Returns (Some (errorString "err: custom rate limit not found")) σ'.
Proof.
  destruct (RemoveCustomRateLimit 1 "//reactions//" held_ruled)
    as [err σ'| |] eqn:E;
    [| vm_compute in E; discriminate | vm_compute in E; discriminate].
  exists err, σ'.
  split; [split; [exact held_ruled_well_formed | reflexivity] |].
  exact (RemoveCustomRateLimit_second_is_not_found held_ruled 1
           emoji_limiter "//reactions//" err σ' held_ruled_well_formed E).
Defined.

(** X10 at [held]: a rule for "yz" set and removed again leaves bucket
    "xyz" without a rule. *)
Lemma SetCustomRateLimit_then_Remove_witness :
  well_formed held 1 xyz_limiter ∧
  ∃ σ1 σ2,
    SetCustomRateLimit 1 "yz" 3 (100 * time.Millisecond) held
    = Returns tt σ1 ∧
    RemoveCustomRateLimit 1 "yz" σ1 = Returns None σ2 ∧
    bucket_heap σ2 !! 1%positive = Some xyz_held.
Proof.
  split; [exact held_well_formed |].
  destruct (SetCustomRateLimit_then_Remove held 1 xyz_limiter "yz" 3
              (100 * time.Millisecond) held_well_formed)
    as (σ1 & σ2 & R2 & Hset & Hrem & _ & _ & _ & Hheap).
  exists σ1, σ2. split; [exact Hset |]. split; [exact Hrem |].
  exact (Hheap "xyz" 1%positive xyz_held eq_refl eq_refl).
Defined.

(** X11 at [held]: after Retry-After: 2000 with the global flag on
    "xyz", the first call on the new key "abc" returns two seconds
    later at the earliest. *)
Lemma global_throttle_reaches_every_key_witness :
  (well_formed held 1 xyz_limiter ∧
   RateLimiter.buckets xyz_limiter !! "xyz" = Some 1%positive ∧
   bucket_heap held !! 1%positive = Some xyz_held ∧
   Bucket.mu xyz_held = true ∧
   Bucket.customRateLimit xyz_held = None ∧
   http.Get retry_2s_global "Retry-After" = "2000" ∧
   strconv.ParseInt "2000" 64 = inl 2000 ∧
   http.Get retry_2s_global "X-RateLimit-Global" = "true" ∧
   RateLimiter.buckets xyz_limiter !! "abc" = None) ∧
  ∃ err σ1 b' σ2,
    Release sample_ParseTime 1 (Some retry_2s_global) held
    = Returns err σ1 ∧
    LockBucket 1 "abc" σ1 = Returns b' σ2 ∧
    clock held + 7 + 2000 * 1000000 ≤ clock σ2.
Proof.
  split; [split; [exact held_well_formed | vm_compute; repeat split] |].
  destruct (global_throttle_reaches_every_key sample_ParseTime held 1
              xyz_limiter "xyz" 1 xyz_held retry_2s_global 2000 "abc"
              held_well_formed eq_refl eq_refl eq_refl eq_refl
              ltac:(vm_compute; discriminate)
              ltac:(vm_compute; reflexivity)
              ltac:(vm_compute; discriminate))
    as (err & σ1 & b' & σ2 & Hrel & _ & Hlock & Hclk).
  { intros b' B' Hb'. vm_compute in Hb'. discriminate. }
  { vm_compute. split; discriminate. }
  { vm_compute. discriminate. }
  exists err, σ1, b', σ2. split; [exact Hrel |]. split; [exact Hlock |].
  exact Hclk.
Defined.

(** X12 at [idle]: one call on "xyz" without a response. *)
Lemma LockBucket_then_Release_nil_witness :
  (well_formed idle 1 xyz_limiter ∧
   RateLimiter.buckets xyz_limiter !! "xyz" = Some 1%positive ∧
   bucket_heap idle !! 1%positive = Some (Bucket.set_mu false xyz_held) ∧
   Bucket.mu (Bucket.set_mu false xyz_held) = false ∧
   Bucket.customRateLimit (Bucket.set_mu false xyz_held) = None) ∧
  ∃ σ1 σ2 B2,
    LockBucket 1 "xyz" idle = Returns 1%positive σ1 ∧
    Release sample_ParseTime 1 None σ1 = Returns None σ2 ∧
    bucket_heap σ2 !! 1%positive = Some B2 ∧
    Bucket.remaining B2 = -1 ∧ Bucket.mu B2 = false.
Proof.
  split; [split; [exact idle_well_formed | repeat split] |].
  destruct (LockBucket_then_Release_nil sample_ParseTime idle 1 xyz_limiter
              "xyz" 1 (Bucket.set_mu false xyz_held) idle_well_formed
              eq_refl eq_refl eq_refl eq_refl)
    as (σ1 & σ2 & Hlock & Hrel & _ & Hheap & _).
  exists σ1, σ2. eexists. split; [exact Hlock |]. split; [exact Hrel |].
  rewrite Hheap. split; [apply lookup_insert_eq |].
  split; reflexivity.
Defined.

(** X13 at [held]: the remaining count "5". *)
Lemma Release_remaining_is_int32_witness :
  ∃ σ',
    (well_formed held 1 xyz_limiter ∧
     RateLimiter.buckets xyz_limiter !! "xyz" = Some 1%positive ∧
     bucket_heap held !! 1%positive = Some xyz_held ∧
     Bucket.mu xyz_held = true ∧
     Bucket.customRateLimit xyz_held = None ∧
     http.Get remaining_5 "X-RateLimit-Remaining" = "5" ∧
     Release sample_ParseTime 1 (Some remaining_5) held = Returns None σ') ∧
    ∃ B', bucket_heap σ' !! 1%positive = Some B' ∧
          - 2 ^ 31 ≤ Bucket.remaining B' < 2 ^ 31.
Proof.
  destruct (Release sample_ParseTime 1 (Some remaining_5) held)
    as [[e|] σ'| |] eqn:E;
    [vm_compute in E; discriminate | | vm_compute in E; discriminate
     | vm_compute in E; discriminate].
  exists σ'.
  split; [split; [exact held_well_formed | vm_compute; repeat split] |].
  destruct (Release_remaining_is_int32 sample_ParseTime held 1 xyz_limiter
              "xyz" 1 xyz_held remaining_5 σ' held_well_formed eq_refl
              eq_refl eq_refl eq_refl ltac:(vm_compute; discriminate) E)
    as (B' & HB' & _ & Hrange).
  exists B'. split; [exact HB' | exact Hrange].
Defined.

(** X14 at [held_strict]: the first [Release] under the rule "1 per
    200 ms" leaves nothing and sets [reset] 200 ms after the third
    reading of the clock. *)
Lemma Release_custom_first_window_witness :
  (well_formed held_strict 1 emoji_limiter ∧
   RateLimiter.buckets emoji_limiter !! "emoji//reactions//"
   = Some 1%positive ∧
   bucket_heap held_strict !! 1%positive = Some emoji_held ∧
   Bucket.mu emoji_held = true ∧
   Bucket.customRateLimit emoji_held = Some 1%positive ∧
   rules held_strict !! 1%positive = Some strict_rule ∧
   Bucket.lastReset emoji_held = time.zero ∧
   0 ≤ clock held_strict ∧
   customRateLimit.reset strict_rule ≤ time.maxDuration) ∧
  ∃ σ' B',
    Release sample_ParseTime 1 None held_strict = Returns None σ' ∧
    bucket_heap σ' !! 1%positive = Some B' ∧
    Bucket.mu B' = false ∧
    Bucket.remaining B' = 0 ∧
    Bucket.lastReset B' = clock held_strict + 7 + 11 ∧
    Bucket.reset B' = clock held_strict + 7 + 11 + 13 + 200000000.
Proof.
  assert (0 ≤ clock held_strict) as H1 by (vm_compute; discriminate).
  assert (customRateLimit.reset strict_rule ≤ time.maxDuration) as H2
    by (vm_compute; discriminate).
  split.
  { split; [exact held_strict_well_formed |].
    split; [vm_compute; reflexivity |]. repeat split; assumption. }
  destruct (Release_custom_first_window sample_ParseTime held_strict 1
              emoji_limiter "emoji//reactions//" 1 emoji_held 1
              strict_rule None held_strict_well_formed
              ltac:(vm_compute; reflexivity) eq_refl eq_refl eq_refl eq_refl
              eq_refl H1 H2)
    as (σ' & B' & Hrun & HB' & Hmu & Hrem & Hlast & Hreset & _).
  exists σ', B'. split; [exact Hrun |]. split; [exact HB' |].
  split; [exact Hmu |]. split; [exact Hrem |]. split; [exact Hlast |].
  rewrite Hreset by (rewrite Hrem; vm_compute; reflexivity).
  vm_compute. reflexivity.
Defined.
